(** * Shamir secret sharing over GF(2^m): embit/shamir_crypto.py

    Shallow embedding of [libs/common/embit/shamir_crypto.py].  Python
    integers that hold field elements, share indices and counters are
    unsigned and unbounded, so they are embedded as [N]; byte strings are
    [list byte]; text is [string].  Exceptions are the [Raise] branch of
    [result]. *)

From Stdlib Require Import PArith NArith List Lia Bool Arith PeanoNat.
From Stdlib Require Import Permutation Classical_Prop.
From Stdlib Require Import Strings.String Strings.Byte Strings.Ascii.
From Stdlib Require DecimalString Decimal.
From Stdlib Require Import Ring Field Btauto.
Import ListNotations.

Local Open Scope N_scope.

(** [length] is the length of a list; [String.length] is written in full. *)
Local Abbreviation length := List.length (only parsing).

(** ** Binary polynomials: GF(2)[x] on bit patterns *)

Module GF2.

(** Reference carry-less product, by recursion on the bits of the second
    factor. *)
Fixpoint clmul_pos (a : N) (p : positive) : N :=
  match p with
  | xH => a
  | xO q => N.double (clmul_pos a q)
  | xI q => N.lxor a (N.double (clmul_pos a q))
  end.

Definition clmul (a b : N) : N :=
  match b with
  | N0 => 0
  | Npos p => clmul_pos a p
  end.

Lemma clmul_0_r a : clmul a 0 = 0.
Proof. reflexivity. Qed.

Lemma clmul_1_r a : clmul a 1 = a.
Proof. reflexivity. Qed.

Lemma clmul_double_r a b : clmul a (N.double b) = N.double (clmul a b).
Proof. destruct b; reflexivity. Qed.

Lemma clmul_succ_double_r a b :
  clmul a (N.succ_double b) = N.lxor a (N.double (clmul a b)).
Proof.
  destruct b as [|p]; simpl.
  - now rewrite N.lxor_0_r.
  - reflexivity.
Qed.

Lemma lxor_double_double a b :
  N.lxor (N.double a) (N.double b) = N.double (N.lxor a b).
Proof. destruct a, b; reflexivity. Qed.

Lemma lxor_sd_double a b :
  N.lxor (N.succ_double a) (N.double b) = N.succ_double (N.lxor a b).
Proof. destruct a, b; reflexivity. Qed.

Lemma lxor_double_sd a b :
  N.lxor (N.double a) (N.succ_double b) = N.succ_double (N.lxor a b).
Proof. destruct a, b; reflexivity. Qed.

Lemma lxor_sd_sd a b :
  N.lxor (N.succ_double a) (N.succ_double b) = N.double (N.lxor a b).
Proof. destruct a, b; reflexivity. Qed.

(** Equations between exclusive-ors of the same atoms, up to
    associativity, commutativity and cancellation. *)
Ltac xor_ac :=
  apply N.bits_inj; intro; rewrite ?N.lxor_spec, ?N.bits_0; btauto.

Lemma lxor_swap a b c : N.lxor a (N.lxor b c) = N.lxor b (N.lxor a c).
Proof. xor_ac. Qed.

Lemma lxor_cancel a b : N.lxor a (N.lxor a b) = b.
Proof. xor_ac. Qed.

Lemma clmul_0_l b : clmul 0 b = 0.
Proof.
  induction b as [|b IH|b IH] using N.binary_ind.
  - reflexivity.
  - now rewrite clmul_double_r, IH.
  - now rewrite clmul_succ_double_r, IH.
Qed.

Lemma clmul_double_l a b : clmul (N.double a) b = N.double (clmul a b).
Proof.
  induction b as [|b IH|b IH] using N.binary_ind.
  - reflexivity.
  - now rewrite !clmul_double_r, IH.
  - now rewrite !clmul_succ_double_r, IH, lxor_double_double.
Qed.

Lemma clmul_lxor_l a a' b :
  clmul (N.lxor a a') b = N.lxor (clmul a b) (clmul a' b).
Proof.
  induction b as [|b IH|b IH] using N.binary_ind.
  - reflexivity.
  - now rewrite !clmul_double_r, IH, lxor_double_double.
  - rewrite !clmul_succ_double_r, IH, <- lxor_double_double. xor_ac.
Qed.

Lemma clmul_lxor_r a b b' :
  clmul a (N.lxor b b') = N.lxor (clmul a b) (clmul a b').
Proof.
  revert b'.
  induction b as [|b IH|b IH] using N.binary_ind; intros b'.
  - now rewrite N.lxor_0_l, clmul_0_r, N.lxor_0_l.
  - destruct b' as [|b'|b'] using N.binary_ind.
    + now rewrite N.lxor_0_r, clmul_0_r, N.lxor_0_r.
    + now rewrite lxor_double_double, !clmul_double_r, IH, lxor_double_double.
    + rewrite lxor_double_sd, !clmul_succ_double_r, clmul_double_r, IH.
      rewrite <- lxor_double_double. xor_ac.
  - destruct b' as [|b'|b'] using N.binary_ind.
    + now rewrite N.lxor_0_r, clmul_0_r, N.lxor_0_r.
    + rewrite lxor_sd_double, !clmul_succ_double_r, clmul_double_r, IH.
      rewrite <- lxor_double_double. xor_ac.
    + rewrite lxor_sd_sd, !clmul_succ_double_r, clmul_double_r, IH.
      rewrite <- lxor_double_double. xor_ac.
Qed.

Lemma clmul_succ_double_l a b :
  clmul (N.succ_double a) b = N.lxor b (N.double (clmul a b)).
Proof.
  induction b as [|b IH|b IH] using N.binary_ind.
  - reflexivity.
  - now rewrite !clmul_double_r, IH, lxor_double_double.
  - rewrite !clmul_succ_double_r, IH.
    rewrite <- !lxor_double_double.
    replace (N.succ_double b) with (N.lxor 1 (N.double b)) by (destruct b; reflexivity).
    replace (N.succ_double a) with (N.lxor 1 (N.double a)) by (destruct a; reflexivity).
    xor_ac.
Qed.

Lemma clmul_comm a b : clmul a b = clmul b a.
Proof.
  induction b as [|b IH|b IH] using N.binary_ind.
  - now rewrite clmul_0_l.
  - now rewrite clmul_double_r, clmul_double_l, IH.
  - now rewrite clmul_succ_double_r, clmul_succ_double_l, IH.
Qed.

Lemma clmul_1_l a : clmul 1 a = a.
Proof. now rewrite clmul_comm. Qed.

Lemma clmul_assoc a b c : clmul (clmul a b) c = clmul a (clmul b c).
Proof.
  induction c as [|c IH|c IH] using N.binary_ind.
  - reflexivity.
  - now rewrite !clmul_double_r, IH.
  - now rewrite !clmul_succ_double_r, clmul_lxor_r, clmul_double_r, IH.
Qed.

(** *** Bit length ([int.bit_length]) and degree *)

Lemma size_le_iff a n : N.size a <= n <-> a < 2 ^ n.
Proof.
  split; intros H.
  - eapply N.lt_le_trans; [apply N.size_gt|].
    apply N.pow_le_mono_r; lia.
  - destruct (N.le_gt_cases (N.size a) n) as [|Hgt]; [assumption|exfalso].
    pose proof (N.size_le a) as Hle.
    assert (Hp : 2 ^ N.succ n <= 2 ^ N.size a)
      by (apply N.pow_le_mono_r; lia).
    rewrite N.pow_succ_r' in Hp.
    rewrite N.succ_double_spec in Hle. lia.
Qed.

Lemma lt_pow2_bits a n :
  a < 2 ^ n <-> (forall i, n <= i -> N.testbit a i = false).
Proof.
  split.
  - intros H i Hi.
    destruct (N.eq_dec a 0) as [->|Ha]; [apply N.bits_0|].
    apply N.bits_above_log2.
    apply N.log2_lt_pow2 in H; lia.
  - intros H.
    destruct (N.lt_ge_cases a (2 ^ n)) as [|Hge]; [assumption|exfalso].
    assert (Ha : 0 < a).
    { pose proof (N.pow_nonzero 2 n). lia. }
    apply N.log2_le_pow2 in Hge; [|assumption].
    specialize (H (N.log2 a) Hge).
    rewrite N.bit_log2 in H by lia. discriminate.
Qed.

Lemma size_bits a n :
  N.size a <= n <-> (forall i, n <= i -> N.testbit a i = false).
Proof. rewrite size_le_iff. apply lt_pow2_bits. Qed.

Lemma size_0_iff a : N.size a = 0 <-> a = 0.
Proof. destruct a; simpl; split; intros; (reflexivity || discriminate). Qed.

Lemma size_pos a : a <> 0 -> 1 <= N.size a.
Proof. intros H. destruct a; [congruence|simpl; lia]. Qed.

Lemma size_top_bit a : a <> 0 -> N.testbit a (N.pred (N.size a)) = true.
Proof.
  intros H. rewrite N.size_log2 by assumption.
  rewrite N.pred_succ. now apply N.bit_log2.
Qed.

Lemma size_lxor_le a b : N.size (N.lxor a b) <= N.max (N.size a) (N.size b).
Proof.
  apply size_bits. intros i Hi.
  rewrite N.lxor_spec.
  rewrite (proj1 (size_bits a (N.size a)) (N.le_refl _)) by lia.
  rewrite (proj1 (size_bits b (N.size b)) (N.le_refl _)) by lia.
  reflexivity.
Qed.

Lemma size_lxor_same a b :
  a <> 0 -> N.size a = N.size b -> N.size (N.lxor a b) < N.size a.
Proof.
  intros Ha Hs.
  assert (Hb : b <> 0).
  { intros E. rewrite E in Hs. apply Ha, size_0_iff. exact Hs. }
  pose proof (size_pos a Ha) as Hp.
  enough (N.size (N.lxor a b) <= N.pred (N.size a)) by lia.
  apply size_bits. intros i Hi.
  rewrite N.lxor_spec.
  destruct (N.eq_dec i (N.pred (N.size a))) as [->|Hne].
  - rewrite size_top_bit by assumption.
    rewrite Hs, size_top_bit by assumption. reflexivity.
  - rewrite (proj1 (size_bits a (N.size a)) (N.le_refl _)) by lia.
    rewrite (proj1 (size_bits b (N.size b)) (N.le_refl _)) by lia.
    reflexivity.
Qed.

Lemma size_lxor_lt a b :
  N.size a < N.size b -> N.size (N.lxor a b) = N.size b.
Proof.
  intros Hlt.
  assert (Hb : b <> 0) by (intros ->; simpl in Hlt; lia).
  apply N.le_antisymm.
  - etransitivity; [apply size_lxor_le|]. lia.
  - destruct (N.le_gt_cases (N.size b) (N.size (N.lxor a b))) as [|Hgt];
      [assumption|exfalso].
    assert (Hle : N.size (N.lxor a b) <= N.pred (N.size b)) by lia.
    pose proof (proj1 (size_bits _ _) Hle (N.pred (N.size b)) (N.le_refl _)) as Hbit.
    rewrite N.lxor_spec, (size_top_bit b Hb) in Hbit.
    rewrite (proj1 (size_bits a (N.size a)) (N.le_refl _)) in Hbit by lia.
    discriminate.
Qed.

Lemma size_double a : a <> 0 -> N.size (N.double a) = N.succ (N.size a).
Proof. destruct a as [|p]; [congruence|]. intros _. simpl. lia. Qed.

Lemma size_clmul a b :
  a <> 0 -> b <> 0 -> N.size (clmul a b) + 1 = N.size a + N.size b.
Proof.
  intros Ha Hb. destruct b as [|p]; [congruence|clear Hb].
  induction p as [q IH|q IH|]; cbn [clmul clmul_pos] in *.
  - assert (Hx : clmul_pos a q <> 0).
    { intros E. rewrite E in IH. simpl in IH. pose proof (size_pos a Ha). lia. }
    rewrite size_lxor_lt; rewrite size_double by assumption.
    + change (N.size (N.pos q~1)) with (N.succ (N.size (N.pos q))). lia.
    + assert (1 <= N.size (N.pos q)) by (simpl; lia). lia.
  - assert (Hx : clmul_pos a q <> 0).
    { intros E. rewrite E in IH. simpl in IH. pose proof (size_pos a Ha). lia. }
    rewrite size_double by assumption.
    change (N.size (N.pos q~0)) with (N.succ (N.size (N.pos q))). lia.
  - simpl. lia.
Qed.

Lemma clmul_eq_0 a b : clmul a b = 0 -> a = 0 \/ b = 0.
Proof.
  intros H.
  destruct (N.eq_dec a 0) as [|Ha]; [now left|].
  destruct (N.eq_dec b 0) as [|Hb]; [now right|].
  pose proof (size_clmul a b Ha Hb) as Hs.
  rewrite H in Hs. simpl in Hs.
  pose proof (size_pos a Ha). pose proof (size_pos b Hb). lia.
Qed.

Lemma size_clmul_le a b : N.size (clmul a b) + 1 <= N.size a + N.size b + 1.
Proof.
  destruct (N.eq_dec a 0) as [->|Ha]; [rewrite clmul_0_l; simpl; lia|].
  destruct (N.eq_dec b 0) as [->|Hb]; [rewrite clmul_0_r; simpl; lia|].
  pose proof (size_clmul a b Ha Hb). lia.
Qed.

Lemma shiftl_1_double a : N.shiftl a 1 = N.double a.
Proof. destruct a; reflexivity. Qed.

Lemma clmul_pow2 a n : clmul a (2 ^ n) = N.shiftl a n.
Proof.
  induction n as [|n IH] using N.peano_ind.
  - now rewrite N.shiftl_0_r.
  - rewrite N.pow_succ_r', <- N.double_spec, clmul_double_r, IH.
    rewrite <- N.add_1_r, <- N.shiftl_shiftl, shiftl_1_double. reflexivity.
Qed.

Lemma size_pow2 n : N.size (2 ^ n) = N.succ n.
Proof.
  rewrite N.size_log2 by (apply N.pow_nonzero; lia).
  now rewrite N.log2_pow2 by lia.
Qed.

End GF2.

(** ** Python built-ins used by the source *)

Module Py.

(** Exceptions the module can raise.  [NoReturn] is not an exception: it
    marks a [while] loop that does not leave within the fuel the model
    gives it, which only happens where the source loops forever. *)
Inductive exn : Type :=
| KeyError            (* irr_poly_table[field_size]: unsupported field size *)
| ValueError_encoding (* "The encoded value must be an integer or a
                          field_size/8 byte string" *)
| ValueError_inversion_of_zero (* "Inversion of zero" *)
| ValueError_duplicate_share   (* "Duplicate share" *)
| IndexError          (* indexing an empty list *)
| OverflowError       (* int.to_bytes: int too big to convert *)
| AttributeError      (* class attribute read before set_field_size *)
| DecodeError         (* raised by the mnemonic codec *)
| TypeError           (* len(None) *)
| NoReturn.

Inductive result (A : Type) : Type :=
| Ok (a : A)
| Raise (e : exn).
Arguments Ok {A} a.
Arguments Raise {A} e.

Definition bind {A B} (r : result A) (k : A -> result B) : result B :=
  match r with
  | Ok a => k a
  | Raise e => Raise e
  end.

(** [bin(n)] for an unsigned [n]: the digits after the ["0b"] prefix. *)
Fixpoint bin_pos (p : positive) (acc : string) : string :=
  match p with
  | xH => String "1" acc
  | xO q => bin_pos q (String "0" acc)
  | xI q => bin_pos q (String "1" acc)
  end.

Definition bin (n : N) : string :=
  ("0b" ++ match n with
           | N0 => "0"
           | Npos p => bin_pos p ""
           end)%string.

(** [s[2:]] *)
Definition slice2 (s : string) : string :=
  match s with
  | String _ (String _ r) => r
  | _ => EmptyString
  end.

(** [s * n] *)
Fixpoint str_mul (s : string) (n : nat) : string :=
  match n with
  | O => EmptyString
  | S k => (s ++ str_mul s k)%string
  end.

(** [int(s, 2)] on a string of binary digits.  Python rejects the empty
    string, which [__mul__] builds only for a field size of 0; no key of
    [irr_poly_table] is 0. *)
Fixpoint int2_digits (s : string) (acc : N) : N :=
  match s with
  | EmptyString => acc
  | String c r => int2_digits r (2 * acc + (if Ascii.eqb c "1" then 1 else 0))
  end.

Definition int2 (s : string) : N := int2_digits s 0.

Definition len (s : string) : N := N.of_nat (String.length s).

(** [int.from_bytes(b, 'big')] *)
Definition int_from_bytes (b : list byte) : N :=
  fold_left (fun acc x => acc * 256 + Byte.to_N x) b 0.

Definition byte_of_N (n : N) : byte :=
  match Byte.of_N (n mod 256) with
  | Some b => b
  | None => "000"%byte
  end.

Fixpoint bytes_le (width : nat) (v : N) : list byte :=
  match width with
  | O => []
  | S w => byte_of_N v :: bytes_le w (v / 256)
  end.

(** [v.to_bytes(width, 'big')] *)
Definition int_to_bytes (v : N) (width : N) : result (list byte) :=
  if v <? 256 ^ width then Ok (List.rev (bytes_le (N.to_nat width) v))
  else Raise OverflowError.

End Py.

Import Py.

Declare Scope result_scope.
Notation "x <- c1 ;; c2" := (bind c1 (fun x => c2))
  (at level 61, c1 at next level, right associativity) : result_scope.
Local Open Scope result_scope.

(** ** The module-level helpers [_mult_gf2] and [_div_gf2] *)

(** [while f2: ...; f2 >>= 1] runs once per bit of [f2]: the loop is
    structural recursion on the binary digits of [f2].  Operands are the
    non-negative integers, as [N]: every caller in the module passes
    values of field elements (on a negative [f2] the shift sticks at -1 and
    the loop of the source does not end). *)
Fixpoint _mult_gf2_loop (p : positive) (f1 z : N) : N :=
  let f2 := Npos p in
  let z := if N.land f2 1 =? 0 then z else N.lxor z f1 in
  let f1 := N.shiftl f1 1 in
  match p with
  | xH => z
  | xO q | xI q => _mult_gf2_loop q f1 z
  end.

Definition _mult_gf2 (f1 f2 : N) : N :=
  let '(f1, f2) := if f1 <? f2 then (f2, f1) else (f1, f2) in
  match f2 with
  | N0 => 0
  | Npos p => _mult_gf2_loop p f1 0
  end.

(** The local function [deg] of [_div_gf2]. *)
Definition deg (n : N) : N :=
  if n =? 0 then 0 else len (bin n) - 2.

Fixpoint _div_gf2_loop (fuel : nat) (b d q r : N) : option (N * N) :=
  match fuel with
  | O => None
  | S fuel' =>
      if d <=? deg r then
        let s := N.shiftl 1 (deg r - d) in
        _div_gf2_loop fuel' b d (N.lxor q s) (N.lxor r (_mult_gf2 b s))
      else Some (q, r)
  end.

(** [None]: the loop does not terminate (this is the case exactly when
    [b = 0]). *)
Definition _div_gf2 (a b : N) : option (N * N) :=
  if a <? b then Some (0, a)
  else _div_gf2_loop (S (N.to_nat (deg a))) b (deg b) 0 a.

(** *** What the helpers compute *)

Section Helpers.
Import GF2.

Lemma length_bin_pos p acc :
  String.length (bin_pos p acc) = (Pos.to_nat (Pos.size p) + String.length acc)%nat.
Proof.
  revert acc. induction p as [q IH|q IH|]; intros acc; cbn [bin_pos Pos.size].
  - rewrite IH. cbn [String.length]. lia.
  - rewrite IH. cbn [String.length]. lia.
  - cbn [String.length]. lia.
Qed.

Lemma deg_size n : deg n = N.size n.
Proof.
  unfold deg, len, bin. destruct n as [|p]; [reflexivity|].
  change (N.pos p =? 0) with false. cbv iota.
  cbn [append String.length]. rewrite length_bin_pos.
  cbn [String.length N.size]. lia.
Qed.

Lemma _mult_gf2_loop_spec p f1 z :
  _mult_gf2_loop p f1 z = N.lxor z (clmul f1 (Npos p)).
Proof.
  revert f1 z. induction p as [q IH|q IH|]; intros f1 z;
    cbn [_mult_gf2_loop].
  - rewrite IH, shiftl_1_double. change (N.land (N.pos q~1) 1 =? 0) with false.
    cbv iota. cbn [clmul clmul_pos].
    change (clmul_pos (N.double f1) q) with (clmul (N.double f1) (N.pos q)).
    rewrite clmul_double_l. cbn [clmul]. xor_ac.
  - rewrite IH, shiftl_1_double. change (N.land (N.pos q~0) 1 =? 0) with true.
    cbv iota. cbn [clmul clmul_pos].
    change (clmul_pos (N.double f1) q) with (clmul (N.double f1) (N.pos q)).
    rewrite clmul_double_l. reflexivity.
  - reflexivity.
Qed.

Lemma _mult_gf2_spec f1 f2 : _mult_gf2 f1 f2 = clmul f1 f2.
Proof.
  unfold _mult_gf2.
  destruct (f1 <? f2).
  - destruct f1 as [|p]; [now rewrite clmul_0_l|].
    rewrite _mult_gf2_loop_spec, N.lxor_0_l. apply clmul_comm.
  - destruct f2 as [|p]; [reflexivity|].
    now rewrite _mult_gf2_loop_spec, N.lxor_0_l.
Qed.

Lemma _div_gf2_loop_spec b B : b <> 0 ->
  forall fuel q r,
    (N.to_nat (N.size r) < fuel)%nat ->
    N.size q <= B -> N.size r + 1 <= B + N.size b ->
    exists q' r',
      _div_gf2_loop fuel b (N.size b) q r = Some (q', r') /\
      N.lxor (clmul b q') r' = N.lxor (clmul b q) r /\
      N.size r' < N.size b /\ N.size q' <= B.
Proof.
  intros Hb. pose proof (size_pos b Hb) as Hsb.
  induction fuel as [|fuel IH]; intros q r Hfuel Hq Hr; [lia|].
  cbn [_div_gf2_loop]. rewrite deg_size.
  destruct (N.leb_spec (N.size b) (N.size r)) as [Hle|Hgt].
  - assert (Hr0 : r <> 0) by (intros ->; simpl in Hle; lia).
    rewrite _mult_gf2_spec, N.shiftl_1_l.
    set (s := 2 ^ (N.size r - N.size b)).
    assert (Hs : N.size s = N.succ (N.size r - N.size b)) by apply size_pow2.
    assert (Hs0 : s <> 0) by (apply N.pow_nonzero; lia).
    assert (Hbs : N.size (clmul b s) = N.size r).
    { pose proof (size_clmul b s Hb Hs0). lia. }
    assert (Hdec : N.size (N.lxor r (clmul b s)) < N.size r).
    { apply size_lxor_same; [assumption|now symmetry]. }
    destruct (IH (N.lxor q s) (N.lxor r (clmul b s))) as (q' & r' & E & Heq & Hlt & Hq').
    + lia.
    + etransitivity; [apply size_lxor_le|]. lia.
    + lia.
    + exists q', r'. split; [assumption|split; [|split; assumption]].
      rewrite Heq, clmul_lxor_r. xor_ac.
  - exists q, r. repeat split; assumption.
Qed.

(** The early exit [if a < b: return 0, a] compares the integers, not the
    degrees: it leaves a remainder of the degree of [b] when [a < b] have
    equal bit length.  Outside that case the result is the Euclidean
    division. *)
Lemma _div_gf2_spec a b : b <> 0 -> (b <= a \/ N.size a < N.size b) ->
  exists q r,
    _div_gf2 a b = Some (q, r) /\
    a = N.lxor (clmul b q) r /\
    N.size r < N.size b /\
    (q <> 0 -> N.size q + N.size b <= N.size a + 1).
Proof.
  intros Hb Hab. unfold _div_gf2.
  destruct (N.ltb_spec a b) as [Hlt|Hge].
  - exists 0, a. split; [reflexivity|split; [|split]].
    + now rewrite clmul_0_r, N.lxor_0_l.
    + destruct Hab; [lia|assumption].
    + congruence.
  - rewrite !deg_size.
    assert (Hs : N.size b <= N.size a).
    { apply size_le_iff. eapply N.le_lt_trans; [exact Hge|apply N.size_gt]. }
    destruct (_div_gf2_loop_spec b (N.size a + 1 - N.size b) Hb
                (S (N.to_nat (N.size a))) 0 a)
      as (q & r & E & Heq & Hr & Hq).
    + lia.
    + simpl. lia.
    + lia.
    + exists q, r. split; [assumption|split; [|split]].
      * rewrite Heq, clmul_0_r, N.lxor_0_l. reflexivity.
      * assumption.
      * intros _. lia.
Qed.

End Helpers.

(** *** Divisibility and congruence of binary polynomials *)

Module Poly.
Import GF2.

Definition divides (d a : N) : Prop := exists t, a = clmul d t.

Definition cong (M a b : N) : Prop := divides M (N.lxor a b).

Definition irreducible (p : N) : Prop :=
  2 <= N.size p /\ forall u v, p = clmul u v -> u = 1 \/ v = 1.

Lemma divides_refl d : divides d d.
Proof. exists 1. now rewrite clmul_1_r. Qed.

Lemma divides_0 d : divides d 0.
Proof. exists 0. reflexivity. Qed.

Lemma divides_lxor d a b : divides d a -> divides d b -> divides d (N.lxor a b).
Proof. intros [s ->] [t ->]. exists (N.lxor s t). now rewrite clmul_lxor_r. Qed.

Lemma divides_clmul_r d a c : divides d a -> divides d (clmul a c).
Proof. intros [s ->]. exists (clmul s c). now rewrite clmul_assoc. Qed.

Lemma divides_clmul_l d a c : divides d a -> divides d (clmul c a).
Proof. rewrite clmul_comm. apply divides_clmul_r. Qed.

Lemma divides_trans d e a : divides d e -> divides e a -> divides d a.
Proof. intros [s ->] [t ->]. exists (clmul s t). now rewrite clmul_assoc. Qed.

Lemma divides_size d a : divides d a -> a <> 0 -> N.size d <= N.size a.
Proof.
  intros [t ->] Hne.
  assert (Hd : d <> 0) by (intros ->; now rewrite clmul_0_l in Hne).
  assert (Ht : t <> 0) by (intros ->; now rewrite clmul_0_r in Hne).
  pose proof (size_clmul d t Hd Ht). pose proof (size_pos t Ht). lia.
Qed.

Lemma size_1_iff a : N.size a = 1 <-> a = 1.
Proof.
  split; [|now intros ->].
  destruct a as [|[p|p|]]; simpl; intros H; try reflexivity; try discriminate;
    exfalso; pose proof (Pos.size_gt p); lia.
Qed.

Lemma divides_1 d : divides d 1 -> d = 1.
Proof.
  intros H. pose proof (divides_size d 1 H ltac:(discriminate)) as Hs.
  simpl in Hs. destruct H as [t Ht].
  assert (Hd : d <> 0) by (intros ->; now rewrite clmul_0_l in Ht).
  pose proof (size_pos d Hd). apply size_1_iff. lia.
Qed.

Lemma cong_refl M a : cong M a a.
Proof. unfold cong. rewrite N.lxor_nilpotent. apply divides_0. Qed.

Lemma cong_sym M a b : cong M a b -> cong M b a.
Proof. unfold cong. now rewrite N.lxor_comm. Qed.

Lemma cong_trans M a b c : cong M a b -> cong M b c -> cong M a c.
Proof.
  unfold cong. intros H1 H2.
  replace (N.lxor a c) with (N.lxor (N.lxor a b) (N.lxor b c)) by xor_ac.
  now apply divides_lxor.
Qed.

Lemma cong_lxor M a a' b b' :
  cong M a a' -> cong M b b' -> cong M (N.lxor a b) (N.lxor a' b').
Proof.
  unfold cong. intros H1 H2.
  replace (N.lxor (N.lxor a b) (N.lxor a' b'))
    with (N.lxor (N.lxor a a') (N.lxor b b')) by xor_ac.
  now apply divides_lxor.
Qed.

Lemma cong_clmul M a a' b b' :
  cong M a a' -> cong M b b' -> cong M (clmul a b) (clmul a' b').
Proof.
  unfold cong. intros H1 H2.
  replace (N.lxor (clmul a b) (clmul a' b'))
    with (N.lxor (clmul (N.lxor a a') b) (clmul a' (N.lxor b b'))).
  - apply divides_lxor; [now apply divides_clmul_r|now apply divides_clmul_l].
  - rewrite clmul_lxor_l, clmul_lxor_r. xor_ac.
Qed.

Lemma cong_divides M d a b : divides d M -> cong M a b -> cong d a b.
Proof. unfold cong. intros H1 H2. eapply divides_trans; eassumption. Qed.

Lemma cong_small M a b :
  cong M a b -> N.size a < N.size M -> N.size b < N.size M -> a = b.
Proof.
  intros H Ha Hb. apply N.lxor_eq.
  destruct (N.eq_dec (N.lxor a b) 0) as [|Hne]; [assumption|exfalso].
  pose proof (divides_size _ _ H Hne).
  pose proof (size_lxor_le a b). lia.
Qed.

End Poly.

(** ** The class [_Element] *)

Module _Element.

(** The class attribute [irr_poly_table], a dict keyed by field size. *)
Definition irr_poly_table : list (N * N) :=
  [ (128, 1 + 2^11 + 2^35 + 2^77 + 2^128);
    (160, 1 + 2^30 + 2^56 + 2^101 + 2^160);
    (192, 1 + 2^17 + 2^103 + 2^142 + 2^192);
    (224, 1 + 4 + 2^39 + 2^116 + 2^224);
    (256, 1 + 2^121 + 2^178 + 2^241 + 2^256) ].

Fixpoint dict_get (k : N) (d : list (N * N)) : option N :=
  match d with
  | [] => None
  | (k', v) :: d' => if k =? k' then Some v else dict_get k d'
  end.

(** The class attributes that [set_field_size] assigns; they do not exist
    before its first call. *)
Record class_state : Type := {
  cls_field_size : option N;
  cls_irr_poly : option N
}.

(** [_Element.field_size] is assigned before the table lookup, so a
    [KeyError] leaves the new size next to the old polynomial. *)
Definition set_field_size (field_size : N) (st : class_state)
  : result unit * class_state :=
  let st := {| cls_field_size := Some field_size;
               cls_irr_poly := cls_irr_poly st |} in
  match dict_get field_size irr_poly_table with
  | None => (Raise KeyError, st)
  | Some p => (Ok tt, {| cls_field_size := cls_field_size st;
                         cls_irr_poly := Some p |})
  end.

(** The two kinds of argument [__init__] accepts. *)
Inductive encoded_value : Type :=
| EInt (n : N)
| EBytes (b : list byte).

Section Methods.

(** The class attributes as the methods read them.  An element is its
    [_value]. *)
Variables (field_size irr_poly : N).

Definition __init__ (encoded : encoded_value) : result N :=
  match encoded with
  | EInt n => Ok n
  | EBytes b =>
      if N.of_nat (List.length b) =? field_size / 8 then Ok (int_from_bytes b)
      else Raise ValueError_encoding
  end.

Definition __eq__ (self other : N) : bool := self =? other.

Definition __int__ (self : N) : N := self.

Definition encode (self : N) : result (list byte) :=
  int_to_bytes self (field_size / 8).

(** The body of [while f2:] in [__mul__]; [p] holds the digits of [f2].
    The masks are those of the source for a field size of at least 1; for
    a field size of 0, which is no key of the table, the source raises in
    [int('', 2)] at the first pass. *)
Fixpoint __mul___loop (mask1 : N) (p : positive) (v z : N) : N :=
  let f2 := Npos p in
  let mask2 := int2 (str_mul (slice2 (bin (N.land f2 1))) (N.to_nat field_size)) in
  let z := N.lor (N.land mask2 (N.lxor z v)) (N.land (mask1 - mask2 - 1) z) in
  let v := N.shiftl v 1 in
  let mask3 :=
    int2 (str_mul (slice2 (bin (N.land (N.shiftr v field_size) 1)))
                  (N.to_nat field_size)) in
  let v := N.lor (N.land mask3 (N.lxor v irr_poly)) (N.land (mask1 - mask3 - 1) v) in
  match p with
  | xH => z
  | xO q | xI q => __mul___loop mask1 q v z
  end.

Definition __mul__ (self factor : N) : N :=
  let f1 := self in
  let f2 := factor in
  let '(f1, f2) := if f1 <? f2 then (f2, f1) else (f1, f2) in
  if (irr_poly =? f1) || (irr_poly =? f2) then 0
  else
    let mask1 := 2 ^ field_size in
    let '(v, z) := (f1, 0) in
    match f2 with
    | N0 => z
    | Npos p => __mul___loop mask1 p v z
    end.

Definition __add__ (self term : N) : N := N.lxor self term.

(** [while r1 > 0:] of [inverse]; returns the final [(r0, s0)]. *)
Fixpoint inverse_loop (fuel : nat) (r0 r1 s0 s1 : N) : result (N * N) :=
  match fuel with
  | O => Raise NoReturn
  | S fuel' =>
      if 0 <? r1 then
        match _div_gf2 r0 r1 with
        | None => Raise NoReturn
        | Some (q, _) =>
            inverse_loop fuel' r1 (N.lxor r0 (_mult_gf2 q r1))
                         s1 (N.lxor s0 (_mult_gf2 q s1))
        end
      else Ok (r0, s0)
  end.

(** Each pass but a first swapping one lowers the degree of [r1], so
    [deg irr_poly + 2] passes are enough for every argument. *)
Definition inverse (self : N) : result N :=
  if self =? 0 then Raise ValueError_inversion_of_zero
  else
    rs <- inverse_loop (S (S (N.to_nat (deg irr_poly)))) self irr_poly 1 0 ;;
    Ok (snd rs).

(** [range(n)] for an unsigned [n]. *)
Definition range (n : N) : list N := map N.of_nat (seq 0 (N.to_nat n)).

Definition __pow__ (self exponent : N) : N :=
  let result := self in
  fold_left (fun result _ => __mul__ result self) (range (exponent - 1)) result.

End Methods.

End _Element.

(** ** Multiplication in GF(2^m) *)

Section MulSpec.
Import GF2 Poly _Element.

(** Reference: shift-and-add product with reduction after each shift. *)
Definition xtime (m P v : N) : N :=
  let v2 := N.double v in
  if N.testbit v2 m then N.lxor v2 P else v2.

Fixpoint mulmod_pos (m P : N) (p : positive) (v z : N) : N :=
  match p with
  | xH => N.lxor z v
  | xO q => mulmod_pos m P q (xtime m P v) z
  | xI q => mulmod_pos m P q (xtime m P v) (N.lxor z v)
  end.

Definition mulmod (m P a b : N) : N :=
  match b with
  | N0 => 0
  | Npos p => mulmod_pos m P p a 0
  end.

Lemma int2_digits_ones n acc :
  int2_digits (str_mul "1" n) acc = acc * 2 ^ N.of_nat n + N.ones (N.of_nat n).
Proof.
  revert acc. induction n as [|n IH]; intros acc.
  - change (acc = acc * 2 ^ 0 + N.ones 0). rewrite N.pow_0_r.
    change (N.ones 0) with 0. lia.
  - cbn [str_mul append int2_digits]. rewrite IH.
    change (Ascii.eqb "1" "1") with true. cbv iota.
    rewrite Nat2N.inj_succ, !N.ones_equiv, !N.pow_succ_r'.
    pose proof (N.pow_nonzero 2 (N.of_nat n) ltac:(lia)). lia.
Qed.

Lemma int2_digits_zeros n : int2_digits (str_mul "0" n) 0 = 0.
Proof. induction n as [|n IH]; [reflexivity|exact IH]. Qed.

Lemma mask_of_bit (b : bool) n :
  int2 (str_mul (slice2 (bin (N.b2n b))) (N.to_nat n)) = if b then N.ones n else 0.
Proof.
  unfold int2. destruct b; cbn [N.b2n bin slice2 append bin_pos].
  - rewrite int2_digits_ones, N2Nat.id. lia.
  - apply int2_digits_zeros.
Qed.

Lemma land_1_b2n a : N.land a 1 = N.b2n (N.testbit a 0).
Proof.
  change 1 with (N.ones 1). rewrite N.land_ones.
  change (2 ^ 1) with 2. now rewrite N.bit0_mod.
Qed.

Lemma shiftr_land_1 a n : N.land (N.shiftr a n) 1 = N.b2n (N.testbit a n).
Proof. rewrite land_1_b2n, N.shiftr_spec' , N.add_0_l. reflexivity. Qed.

Variables (m P : N).
Hypothesis size_P : N.size P = N.succ m.

Lemma P_bits_high i : m < i -> N.testbit P i = false.
Proof. intros Hi. apply (proj1 (size_bits P (N.succ m))); lia. Qed.

Lemma P_bit_m : N.testbit P m = true.
Proof.
  assert (HP : P <> 0) by (intros E; rewrite E in size_P; simpl in size_P; lia).
  pose proof (size_top_bit P HP) as H. now rewrite size_P, N.pred_succ in H.
Qed.

Lemma P_neq_0 : P <> 0.
Proof. intros E. rewrite E in size_P. simpl in size_P. lia. Qed.

Lemma reduced_size a : a < 2 ^ m <-> N.size a < N.size P.
Proof. rewrite size_P, <- size_le_iff. lia. Qed.

Lemma xtime_lt v : v < 2 ^ m -> xtime m P v < 2 ^ m.
Proof.
  intros Hv. unfold xtime. cbv zeta.
  assert (Hd : forall i, m < i -> N.testbit (N.double v) i = false).
  { intros i Hi. rewrite N.double_spec.
    apply (proj1 (lt_pow2_bits (2 * v) (N.succ m))); [|lia].
    rewrite N.pow_succ_r'. lia. }
  destruct (N.testbit (N.double v) m) eqn:E; apply lt_pow2_bits; intros i Hi.
  - rewrite N.lxor_spec.
    destruct (N.eq_dec i m) as [->|Hne].
    + now rewrite E, P_bit_m.
    + rewrite Hd, P_bits_high by lia. reflexivity.
  - destruct (N.eq_dec i m) as [->|Hne]; [assumption|apply Hd; lia].
Qed.

Lemma xtime_cong v : cong P (xtime m P v) (N.double v).
Proof.
  unfold xtime. cbv zeta. destruct (N.testbit (N.double v) m).
  - unfold cong. replace (N.lxor (N.lxor (N.double v) P) (N.double v)) with P by xor_ac.
    apply divides_refl.
  - apply cong_refl.
Qed.

Lemma mulmod_pos_lt p : forall v z,
  v < 2 ^ m -> z < 2 ^ m -> mulmod_pos m P p v z < 2 ^ m.
Proof.
  assert (Hx : forall a b, a < 2 ^ m -> b < 2 ^ m -> N.lxor a b < 2 ^ m).
  { intros a b Ha Hb. apply size_le_iff. apply size_le_iff in Ha, Hb.
    pose proof (size_lxor_le a b). lia. }
  induction p as [q IH|q IH|]; intros v z Hv Hz; cbn [mulmod_pos].
  - apply IH; [now apply xtime_lt|now apply Hx].
  - apply IH; [now apply xtime_lt|assumption].
  - now apply Hx.
Qed.

Lemma mulmod_pos_cong p : forall v z,
  cong P (mulmod_pos m P p v z) (N.lxor z (clmul v (Npos p))).
Proof.
  induction p as [q IH|q IH|]; intros v z; cbn [mulmod_pos].
  - eapply cong_trans; [apply IH|].
    change (N.pos q~1) with (N.succ_double (N.pos q)).
    rewrite clmul_succ_double_r, <- clmul_double_l.
    rewrite <- N.lxor_assoc.
    apply cong_lxor; [apply cong_refl|].
    apply cong_clmul; [apply xtime_cong|apply cong_refl].
  - eapply cong_trans; [apply IH|].
    change (N.pos q~0) with (N.double (N.pos q)).
    rewrite clmul_double_r, <- clmul_double_l.
    apply cong_lxor; [apply cong_refl|].
    apply cong_clmul; [apply xtime_cong|apply cong_refl].
  - rewrite clmul_1_r. apply cong_refl.
Qed.

Lemma mulmod_lt a b : a < 2 ^ m -> mulmod m P a b < 2 ^ m.
Proof.
  intros Ha. destruct b as [|p]; cbn [mulmod].
  - pose proof (N.pow_nonzero 2 m). lia.
  - apply mulmod_pos_lt; [assumption|]. pose proof (N.pow_nonzero 2 m). lia.
Qed.

Lemma mulmod_cong a b : cong P (mulmod m P a b) (clmul a b).
Proof.
  destruct b as [|p]; cbn [mulmod].
  - apply cong_refl.
  - pose proof (mulmod_pos_cong p a 0) as H. now rewrite N.lxor_0_l in H.
Qed.

(** The masked selects of the source compute the same steps. *)
Lemma select_ones x y :
  N.lor (N.land (N.ones m) x) (N.land (2 ^ m - N.ones m - 1) y) = x mod 2 ^ m.
Proof.
  clear size_P. rewrite N.ones_equiv.
  replace (2 ^ m - N.pred (2 ^ m) - 1) with 0
    by (pose proof (N.pow_nonzero 2 m); lia).
  rewrite N.land_0_l, N.lor_0_r, N.land_comm, <- N.ones_equiv.
  apply N.land_ones.
Qed.

Lemma select_zero x y :
  N.lor (N.land 0 x) (N.land (2 ^ m - 0 - 1) y) = y mod 2 ^ m.
Proof.
  rewrite N.land_0_l, N.lor_0_l, N.sub_0_r, N.sub_1_r, <- N.ones_equiv.
  rewrite N.land_comm. apply N.land_ones.
Qed.

Lemma masked_select f2 x y :
  let mask := int2 (str_mul (slice2 (bin (N.land f2 1))) (N.to_nat m)) in
  N.lor (N.land mask x) (N.land (2 ^ m - mask - 1) y)
  = if N.testbit f2 0 then x mod 2 ^ m else y mod 2 ^ m.
Proof.
  clear size_P. cbv zeta. rewrite land_1_b2n, mask_of_bit.
  destruct (N.testbit f2 0); [apply select_ones|apply select_zero].
Qed.

Lemma __mul___loop_mulmod p : forall v z,
  v < 2 ^ m -> z < 2 ^ m ->
  __mul___loop m P (2 ^ m) p v z = mulmod_pos m P p v z.
Proof.
  assert (Hx : forall a b, a < 2 ^ m -> b < 2 ^ m -> N.lxor a b < 2 ^ m).
  { intros a b Ha Hb. apply size_le_iff. apply size_le_iff in Ha, Hb.
    pose proof (size_lxor_le a b). lia. }
  assert (Hv' : forall v, v < 2 ^ m ->
    (if N.testbit (N.shiftr (N.shiftl v 1) m) 0
     then N.lxor (N.shiftl v 1) P mod 2 ^ m else N.shiftl v 1 mod 2 ^ m)
    = xtime m P v).
  { intros v Hv. rewrite shiftl_1_double, N.shiftr_spec', N.add_0_l.
    pose proof (xtime_lt v Hv) as Hlt. unfold xtime in *. cbv zeta in *.
    destruct (N.testbit (N.double v) m); now apply N.mod_small. }
  pose proof masked_select as Hsel. cbv zeta in Hsel.
  induction p as [q IH|q IH|]; intros v z Hv Hz; cbn [__mul___loop mulmod_pos];
    rewrite !Hsel; cbn [N.testbit Pos.testbit].
  - rewrite (Hv' v Hv), N.mod_small by (now apply Hx).
    apply IH; [now apply xtime_lt|now apply Hx].
  - rewrite (Hv' v Hv), N.mod_small by assumption.
    apply IH; [now apply xtime_lt|assumption].
  - now apply N.mod_small, Hx.
Qed.

(** Whatever its operands, the loop leaves [z] below [2 ^ m]. *)
Lemma __mul___loop_lt p : forall v z, __mul___loop m P (2 ^ m) p v z < 2 ^ m.
Proof.
  clear size_P.
  pose proof masked_select as Hsel. cbv zeta in Hsel.
  assert (Hmod : forall (b : bool) (x y : N),
             (if b then x mod 2 ^ m else y mod 2 ^ m) < 2 ^ m).
  { intros b x y. destruct b; apply N.mod_upper_bound, N.pow_nonzero; lia. }
  induction p as [q IH|q IH|]; intros v z; cbn [__mul___loop].
  - apply IH.
  - apply IH.
  - rewrite Hsel. apply Hmod.
Qed.

Lemma __mul___lt_any a b : __mul__ m P a b < 2 ^ m.
Proof.
  clear size_P.
  assert (H0 : 0 < 2 ^ m) by (pose proof (N.pow_nonzero 2 m); lia).
  unfold __mul__. cbv zeta.
  destruct (a <? b); destruct (_ || _); try exact H0.
  - destruct a; [exact H0|apply __mul___loop_lt].
  - destruct b; [exact H0|apply __mul___loop_lt].
Qed.

Lemma __mul___mulmod a b :
  a < 2 ^ m -> b < 2 ^ m ->
  __mul__ m P a b = if a <? b then mulmod m P b a else mulmod m P a b.
Proof.
  intros Ha Hb. unfold __mul__. cbv zeta.
  assert (Hne : forall x, x < 2 ^ m -> (P =? x) = false).
  { intros x Hx. apply N.eqb_neq. intros E. rewrite <- E in Hx.
    apply reduced_size in Hx. lia. }
  destruct (a <? b).
  - rewrite (Hne b Hb), (Hne a Ha). cbn [orb].
    destruct a as [|p]; [reflexivity|].
    apply __mul___loop_mulmod; [assumption|]. pose proof (N.pow_nonzero 2 m). lia.
  - rewrite (Hne b Hb), (Hne a Ha). cbn [orb].
    destruct b as [|p]; [reflexivity|].
    apply __mul___loop_mulmod; [assumption|]. pose proof (N.pow_nonzero 2 m). lia.
Qed.

Lemma __mul___lt a b : a < 2 ^ m -> b < 2 ^ m -> __mul__ m P a b < 2 ^ m.
Proof.
  intros Ha Hb. rewrite __mul___mulmod by assumption.
  destruct (a <? b); now apply mulmod_lt.
Qed.

Lemma __mul___cong a b :
  a < 2 ^ m -> b < 2 ^ m -> cong P (__mul__ m P a b) (clmul a b).
Proof.
  intros Ha Hb. rewrite __mul___mulmod by assumption.
  destruct (a <? b).
  - rewrite (clmul_comm a b). apply mulmod_cong.
  - apply mulmod_cong.
Qed.

End MulSpec.

(** ** Euclid's algorithm as run by [inverse] *)

Section Euclid.
Import GF2 Poly _Element.

(** Reference remainder of binary polynomials. *)
Fixpoint pmod_fuel (fuel : nat) (a b : N) : N :=
  match fuel with
  | O => a
  | S f =>
      if N.size b <=? N.size a
      then pmod_fuel f (N.lxor a (N.shiftl b (N.size a - N.size b))) b
      else a
  end.

Definition pmod (a b : N) : N := pmod_fuel (N.to_nat (N.size a)) a b.

Lemma size_shiftl b k : b <> 0 -> N.size (N.shiftl b k) = N.size b + k.
Proof.
  intros Hb. rewrite <- clmul_pow2.
  pose proof (size_clmul b (2 ^ k) Hb ltac:(apply N.pow_nonzero; lia)) as H.
  rewrite size_pow2 in H. lia.
Qed.

Lemma pmod_fuel_spec b : b <> 0 ->
  forall fuel a, (N.to_nat (N.size a) <= fuel)%nat ->
    N.size (pmod_fuel fuel a b) < N.size b /\ cong b (pmod_fuel fuel a b) a.
Proof.
  intros Hb. pose proof (size_pos b Hb) as Hsb.
  induction fuel as [|fuel IH]; intros a Hfuel; cbn [pmod_fuel].
  - split; [lia|apply cong_refl].
  - destruct (N.leb_spec (N.size b) (N.size a)) as [Hle|Hgt].
    + assert (Ha : a <> 0) by (intros ->; simpl in Hle; lia).
      set (t := N.shiftl b (N.size a - N.size b)).
      assert (Ht : N.size t = N.size a).
      { unfold t. rewrite size_shiftl by assumption. lia. }
      pose proof (size_lxor_same a t Ha (eq_sym Ht)) as Hdec.
      destruct (IH (N.lxor a t)) as [H1 H2]; [lia|].
      split; [assumption|].
      eapply cong_trans; [exact H2|].
      unfold cong. replace (N.lxor (N.lxor a t) a) with t by xor_ac.
      unfold t. rewrite <- clmul_pow2. eexists; reflexivity.
    + split; [assumption|apply cong_refl].
Qed.

Lemma pmod_size a b : b <> 0 -> N.size (pmod a b) < N.size b.
Proof. intros Hb. now apply pmod_fuel_spec. Qed.

Lemma pmod_cong a b : b <> 0 -> cong b (pmod a b) a.
Proof. intros Hb. now apply pmod_fuel_spec. Qed.

Lemma cong_0_divides M a : cong M a 0 <-> divides M a.
Proof. unfold cong. now rewrite N.lxor_0_r. Qed.

Lemma size_lt_lt a b : N.size a < N.size b -> a < b.
Proof.
  intros H.
  destruct (N.lt_ge_cases a b) as [|Hge]; [assumption|exfalso].
  assert (N.size b <= N.size a); [|lia].
  apply size_le_iff. eapply N.le_lt_trans; [exact Hge|apply N.size_gt].
Qed.

(** Invariant of the loop of [inverse], for an element [a] and a modulus
    [M], once the degree of [r1] is below that of [r0]. *)
Lemma inverse_loop_spec M a K :
  forall fuel r0 r1 s0 s1,
    (N.to_nat (N.size r1) < fuel)%nat ->
    N.size r1 < N.size r0 ->
    cong M (clmul s0 a) r0 -> cong M (clmul s1 a) r1 ->
    (forall d, divides d r0 -> divides d r1 -> divides d a /\ divides d M) ->
    N.size s0 + N.size r0 <= K + 1 -> N.size s1 + N.size r0 <= K + 2 ->
    exists g s,
      inverse_loop fuel r0 r1 s0 s1 = Ok (g, s) /\ g <> 0 /\
      divides g a /\ divides g M /\ cong M (clmul s a) g /\
      N.size s + N.size g <= K + 1.
Proof.
  induction fuel as [|fuel IH];
    intros r0 r1 s0 s1 Hfuel Hlt Hc0 Hc1 Hdiv Hs0 Hs1; [lia|].
  cbn [inverse_loop].
  destruct (N.ltb_spec 0 r1) as [Hpos|Hz].
  - assert (Hr1 : r1 <> 0) by lia.
    destruct (_div_gf2_spec r0 r1 Hr1) as (q & r & E & Heq & Hr & Hq).
    { left. apply N.lt_le_incl. now apply size_lt_lt. }
    rewrite E, !_mult_gf2_spec.
    assert (Er : N.lxor r0 (clmul q r1) = r).
    { rewrite Heq, (clmul_comm q r1). xor_ac. }
    rewrite Er.
    apply IH.
    + lia.
    + assumption.
    + assumption.
    + rewrite clmul_lxor_l, clmul_assoc, <- Er.
      apply cong_lxor; [assumption|].
      apply cong_clmul; [apply cong_refl|assumption].
    + intros d Hd1 Hd2. apply Hdiv; [|assumption].
      rewrite Heq. apply divides_lxor; [|assumption].
      now apply divides_clmul_r.
    + lia.
    + assert (Hb : N.size (clmul q s1) + N.size r1 <= K + 2).
      { destruct (N.eq_dec q 0) as [->|Hq0].
        - rewrite clmul_0_l. simpl. lia.
        - destruct (N.eq_dec s1 0) as [->|Hs10].
          + rewrite clmul_0_r. simpl. lia.
          + pose proof (size_clmul q s1 Hq0 Hs10). specialize (Hq Hq0). lia. }
      pose proof (size_lxor_le s0 (clmul q s1)). lia.
  - assert (r1 = 0) by lia. subst r1.
    exists r0, s0.
    assert (Hr0 : r0 <> 0) by (intros ->; simpl in Hlt; lia).
    destruct (Hdiv r0 (divides_refl r0) (divides_0 r0)) as [Ha HM].
    repeat split; assumption.
Qed.

(** Existence of a Bezout coefficient modulo an irreducible polynomial. *)
Lemma irreducible_unit g a :
  irreducible g -> ~ divides g a -> exists s, cong g (clmul s a) 1.
Proof.
  intros [Hsz Hirr] Hnd.
  assert (Hg : g <> 0) by (intros ->; simpl in Hsz; lia).
  pose proof (pmod_size a g Hg) as Hrs.
  pose proof (pmod_cong a g Hg) as Hrc.
  set (a' := pmod a g) in *.
  assert (Ha' : a' <> 0).
  { intros E. rewrite E in Hrc. apply Hnd.
    apply cong_0_divides. now apply cong_sym. }
  destruct (inverse_loop_spec g a' (N.size g) (S (N.to_nat (N.size a'))) g a' 0 1)
    as (d & s & _ & Hd0 & Hda & Hdg & Hcong & _).
  - lia.
  - assumption.
  - rewrite clmul_0_l. apply cong_sym, cong_0_divides, divides_refl.
  - rewrite clmul_1_l. apply cong_refl.
  - auto.
  - change (N.size 0) with 0. lia.
  - change (N.size 1) with 1. lia.
  - assert (Hd1 : d = 1).
    { destruct Hdg as [t Ht]. destruct (Hirr _ _ Ht) as [|Et]; [assumption|exfalso].
      subst t. rewrite clmul_1_r in Ht. subst d.
      pose proof (divides_size _ _ Hda Ha'). lia. }
    subst d. exists s.
    eapply cong_trans; [|exact Hcong].
    apply cong_clmul; [apply cong_refl|now apply cong_sym].
Qed.

Lemma divides_dec g a : divides g a \/ ~ divides g a.
Proof.
  destruct (N.eq_dec g 0) as [->|Hg].
  - destruct (N.eq_dec a 0) as [->|Ha]; [left; apply divides_0|].
    right. intros [t Ht]. now rewrite clmul_0_l in Ht.
  - destruct (N.eq_dec (pmod a g) 0) as [E|Hne].
    + left. pose proof (pmod_cong a g Hg) as H. rewrite E in H.
      apply cong_0_divides. now apply cong_sym.
    + right. intros Hd. apply Hne.
      apply (cong_small g); [|now apply pmod_size|simpl; pose proof (size_pos g Hg); lia].
      eapply cong_trans; [now apply pmod_cong|now apply cong_0_divides].
Qed.

Lemma euclid_lemma g a b :
  irreducible g -> divides g (clmul a b) -> divides g a \/ divides g b.
Proof.
  intros Hirr Hab.
  destruct (divides_dec g a) as [|Hna]; [now left|right].
  destruct (irreducible_unit g a Hirr Hna) as [s Hs].
  apply cong_0_divides.
  eapply cong_trans with (b := clmul (clmul s a) b).
  - rewrite <- (clmul_1_l b) at 1.
    apply cong_clmul; [now apply cong_sym|apply cong_refl].
  - rewrite clmul_assoc. apply cong_0_divides. now apply divides_clmul_l.
Qed.

End Euclid.

(** ** Fermat's little theorem modulo an irreducible polynomial *)

Section Fermat.
Import GF2 Poly.

Definition prodl (l : list N) : N := fold_right clmul 1 l.

Definition pw (y : N) (n : nat) : N := Nat.iter n (clmul y) 1.

(** The nonzero polynomials of degree below [d]. *)
Definition residues (d : N) : list N :=
  map N.of_nat (seq 1 (N.to_nat (2 ^ d) - 1)).

Lemma In_residues d s : In s (residues d) <-> 0 < s < 2 ^ d.
Proof.
  unfold residues. rewrite in_map_iff. split.
  - intros (k & <- & Hk). apply in_seq in Hk. lia.
  - intros H. exists (N.to_nat s). split; [apply N2Nat.id|].
    apply in_seq. lia.
Qed.

Lemma NoDup_residues d : NoDup (residues d).
Proof.
  unfold residues. apply NoDup_map_NoDup_ForallPairs; [|apply seq_NoDup].
  intros a b _ _ H. now apply Nat2N.inj.
Qed.

Lemma pw_S y n : pw y (S n) = clmul y (pw y n).
Proof. reflexivity. Qed.

Lemma pw_add y a b : pw y (a + b) = clmul (pw y a) (pw y b).
Proof.
  induction a as [|a IH].
  - now rewrite clmul_1_l.
  - cbn [Nat.add]. rewrite !pw_S, IH. now rewrite clmul_assoc.
Qed.

Lemma prodl_perm l l' : Permutation l l' -> prodl l = prodl l'.
Proof.
  induction 1 as [|x l l' _ IH|x y l|l l' l'' _ IH1 _ IH2]; cbn [prodl fold_right].
  - reflexivity.
  - unfold prodl in IH. now rewrite IH.
  - rewrite <- !clmul_assoc. now rewrite (clmul_comm y x).
  - congruence.
Qed.

Lemma prodl_map_clmul y l :
  prodl (map (clmul y) l) = clmul (pw y (length l)) (prodl l).
Proof.
  induction l as [|s l IH]; cbn [map prodl fold_right length].
  - reflexivity.
  - fold (prodl (map (clmul y) l)). fold (prodl l). rewrite IH, pw_S.
    rewrite !clmul_assoc. f_equal.
    rewrite <- !clmul_assoc. now rewrite (clmul_comm s).
Qed.

Lemma prodl_map_cong g (f h : N -> N) l :
  (forall s, cong g (f s) (h s)) ->
  cong g (prodl (map f l)) (prodl (map h l)).
Proof.
  intros Hfh. induction l as [|s l IH]; cbn [map prodl fold_right].
  - apply cong_refl.
  - apply cong_clmul; [apply Hfh|exact IH].
Qed.

Variable g : N.
Hypothesis g_irreducible : irreducible g.

Let d := N.pred (N.size g).

Lemma g_neq_0 : g <> 0.
Proof. destruct g_irreducible as [H _]. intros E. rewrite E in H. simpl in H. lia. Qed.

Lemma size_g : N.size g = N.succ d.
Proof. destruct g_irreducible as [H _]. unfold d. lia. Qed.

Lemma residue_not_divisible s : In s (residues d) -> ~ divides g s.
Proof.
  intros Hs Hd. apply In_residues in Hs. destruct Hs as [Hpos Hlt].
  apply size_le_iff in Hlt.
  pose proof (divides_size g s Hd ltac:(lia)). rewrite size_g in *. lia.
Qed.

Lemma not_divides_prodl l :
  (forall s, In s l -> ~ divides g s) -> ~ divides g (prodl l).
Proof.
  induction l as [|s l IH]; intros Hl; cbn [prodl fold_right].
  - intros H. apply divides_1 in H.
    destruct g_irreducible as [Hs _]. rewrite H in Hs. simpl in Hs. lia.
  - intros H. apply euclid_lemma in H; [|exact g_irreducible].
    destruct H as [H|H].
    + apply (Hl s); [now left|assumption].
    + apply IH; [|exact H]. intros t Ht. apply Hl. now right.
Qed.

Lemma cancel_mod_g y s s' :
  ~ divides g y -> cong g (clmul y s) (clmul y s') -> cong g s s'.
Proof.
  intros Hy H. unfold cong in *. rewrite <- clmul_lxor_r in H.
  apply euclid_lemma in H; [|exact g_irreducible]. tauto.
Qed.

Lemma fermat_unit y :
  ~ divides g y -> cong g (pw y (N.to_nat (2 ^ d) - 1)) 1.
Proof.
  intros Hy.
  set (f := fun s => pmod (clmul y s) g).
  assert (Hf : forall s, cong g (f s) (clmul y s))
    by (intros s; apply pmod_cong, g_neq_0).
  assert (Hfs : forall s, N.size (f s) < N.size g)
    by (intros s; apply pmod_size, g_neq_0).
  assert (Hperm : Permutation (map f (residues d)) (residues d)).
  { apply NoDup_Permutation_bis.
    - apply NoDup_map_NoDup_ForallPairs; [|apply NoDup_residues].
      intros a b Ha Hb E.
      assert (Hc : cong g a b).
      { apply (cancel_mod_g y); [assumption|].
        eapply cong_trans; [apply cong_sym, Hf|]. rewrite E. apply Hf. }
      apply In_residues in Ha, Hb.
      apply (cong_small g); [assumption| |]; rewrite size_g;
        apply N.lt_succ_r, size_le_iff; tauto.
    - now rewrite length_map.
    - intros t Ht. apply in_map_iff in Ht. destruct Ht as (s & <- & Hs).
      apply In_residues. split.
      + destruct (N.eq_dec (f s) 0) as [E|]; [exfalso|lia].
        pose proof (Hf s) as Hc. rewrite E in Hc.
        apply cong_sym in Hc. apply (proj1 (cong_0_divides _ _)) in Hc.
        apply euclid_lemma in Hc; [|exact g_irreducible].
        destruct Hc as [|Hc]; [contradiction|].
        now apply (residue_not_divisible s).
      + apply size_le_iff. specialize (Hfs s). rewrite size_g in Hfs. lia. }
  apply prodl_perm in Hperm.
  pose proof (prodl_map_cong g f (clmul y) (residues d) Hf) as Hc.
  rewrite Hperm, prodl_map_clmul in Hc.
  assert (Hlen : length (residues d) = (N.to_nat (2 ^ d) - 1)%nat).
  { unfold residues. now rewrite length_map, length_seq. }
  rewrite Hlen in Hc.
  set (e := pw y (N.to_nat (2 ^ d) - 1)) in *.
  set (Pi := prodl (residues d)) in *.
  assert (Hdiv : divides g (clmul (N.lxor e 1) Pi)).
  { rewrite clmul_lxor_l, clmul_1_l. apply cong_sym in Hc. exact Hc. }
  apply euclid_lemma in Hdiv; [|exact g_irreducible].
  destruct Hdiv as [H|H]; [exact H|exfalso].
  revert H. apply not_divides_prodl. intros s. apply residue_not_divisible.
Qed.

(** [y ^ (2 ^ d) = y] in GF(2)[x]/(g), where [d] is the degree of [g]. *)
Lemma fermat y : cong g (pw y (N.to_nat (2 ^ d))) y.
Proof.
  assert (E : N.to_nat (2 ^ d) = S (N.to_nat (2 ^ d) - 1)).
  { pose proof (N.pow_nonzero 2 d ltac:(lia)). lia. }
  rewrite E, pw_S.
  destruct (divides_dec g y) as [Hy|Hy].
  - eapply cong_trans; [|apply cong_sym, cong_0_divides, Hy].
    apply cong_0_divides. now apply divides_clmul_r.
  - rewrite <- (clmul_1_r y) at 3.
    apply cong_clmul; [apply cong_refl|now apply fermat_unit].
Qed.

End Fermat.

(** ** A checkable criterion for irreducibility *)

Section Irreducibility.
Import GF2 Poly _Element.

Lemma irreducible_factor n : forall w,
  (N.to_nat (N.size w) <= n)%nat -> 2 <= N.size w ->
  exists f, irreducible f /\ divides f w /\ N.size f <= N.size w.
Proof.
  induction n as [|n IH]; intros w Hn Hw; [lia|].
  destruct (classic (exists u v, w = clmul u v /\ u <> 1 /\ v <> 1))
    as [(u & v & E & Hu & Hv)|Hno].
  - assert (Hw0 : w <> 0) by (intros ->; simpl in Hw; lia).
    assert (Hu0 : u <> 0) by (intros ->; now rewrite clmul_0_l in E).
    assert (Hv0 : v <> 0) by (intros ->; now rewrite clmul_0_r in E).
    assert (Hsz : forall t, t <> 0 -> t <> 1 -> 2 <= N.size t).
    { intros t Ht0 Ht1. pose proof (size_pos t Ht0).
      destruct (N.eq_dec (N.size t) 1) as [E1|]; [|lia].
      apply (proj1 (size_1_iff _)) in E1. contradiction. }
    pose proof (Hsz u Hu0 Hu). pose proof (Hsz v Hv0 Hv).
    pose proof (size_clmul u v Hu0 Hv0) as Hs. rewrite <- E in Hs.
    destruct (IH u) as (f & Hf & Hfu & Hfs); [lia|lia|].
    exists f. split; [assumption|split; [|lia]].
    eapply divides_trans; [exact Hfu|]. exists v. exact E.
  - exists w. split; [|split; [apply divides_refl|lia]].
    split; [assumption|]. intros u v E.
    destruct (N.eq_dec u 1) as [|Hu]; [now left|].
    destruct (N.eq_dec v 1) as [|Hv]; [now right|].
    exfalso. apply Hno. now exists u, v.
Qed.

(** Iterated squaring modulo [P]. *)
Definition frob (m P c : N) (i : nat) : N :=
  Nat.iter i (fun c => mulmod m P c c) c.

(** Product, modulo [P], of the polynomials [x^(2^i) + x], [1 <= i <= h];
    started with [c = x] and [acc = 1]. *)
Fixpoint frob_acc (m P : N) (h : nat) (c acc : N) : N :=
  match h with
  | O => acc
  | S h' =>
      let c' := mulmod m P c c in
      frob_acc m P h' c' (mulmod m P acc (N.lxor c' 2))
  end.

(** No irreducible polynomial of degree at most [m/2] divides [P]. *)
Definition irred_check (m P : N) : bool :=
  (N.size P =? N.succ m) && (1 <=? m) &&
  match inverse_loop (S (S (N.to_nat m))) P
                     (frob_acc m P (N.to_nat (m / 2)) 2 1) 0 1 with
  | Ok (g, _) => g =? 1
  | Raise _ => false
  end.

Variables (m P : N).
Hypothesis size_P : N.size P = N.succ m.

Lemma frob_cong c i :
  cong P (frob m P c i) (pw c (N.to_nat (2 ^ N.of_nat i))).
Proof.
  induction i as [|i IH].
  - change (pw c (N.to_nat (2 ^ N.of_nat 0))) with (clmul c 1).
    rewrite clmul_1_r. apply cong_refl.
  - unfold frob in *. cbn [Nat.iter].
    eapply cong_trans; [apply (mulmod_cong m P)|].
    rewrite Nat2N.inj_succ, N.pow_succ_r'.
    replace (2 * 2 ^ N.of_nat i) with (2 ^ N.of_nat i + 2 ^ N.of_nat i) by lia.
    rewrite N2Nat.inj_add, pw_add.
    now apply cong_clmul.
Qed.

Lemma divides_cong f a b :
  divides f P -> cong P a b -> divides f b -> divides f a.
Proof.
  intros HP Hc Hb.
  replace a with (N.lxor (N.lxor a b) b) by xor_ac.
  apply divides_lxor; [|assumption].
  eapply divides_trans; [exact HP|exact Hc].
Qed.

Lemma frob_acc_divides_acc f : divides f P ->
  forall h c acc, divides f acc -> divides f (frob_acc m P h c acc).
Proof.
  intros HP. induction h as [|h IH]; intros c acc Hacc; cbn [frob_acc].
  - assumption.
  - apply IH.
    eapply divides_cong; [exact HP|apply (mulmod_cong m P)|].
    now apply divides_clmul_r.
Qed.

Lemma frob_acc_divides f : divides f P ->
  forall h c acc i, (i < h)%nat ->
    divides f (N.lxor (frob m P c (S i)) 2) ->
    divides f (frob_acc m P h c acc).
Proof.
  intros HP. induction h as [|h IH]; intros c acc i Hi Hd; [lia|].
  cbn [frob_acc]. destruct i as [|i].
  - apply frob_acc_divides_acc; [assumption|].
    eapply divides_cong; [exact HP|apply (mulmod_cong m P)|].
    now apply divides_clmul_l.
  - apply (IH _ _ i); [lia|].
    unfold frob in *. rewrite Nat.iter_succ_r in Hd. exact Hd.
Qed.

Lemma frob_acc_lt h : forall c acc,
  acc < 2 ^ m -> frob_acc m P h c acc < 2 ^ m.
Proof.
  induction h as [|h IH]; intros c acc Hacc; cbn [frob_acc].
  - assumption.
  - apply IH. now apply (mulmod_lt m P size_P).
Qed.

Theorem irred_check_sound : irred_check m P = true -> irreducible P.
Proof.
  unfold irred_check. rewrite !andb_true_iff.
  intros [[_ Hm] Hg]. apply N.leb_le in Hm.
  set (acc := frob_acc m P (N.to_nat (m / 2)) 2 1) in *.
  assert (Hacc : acc < 2 ^ m).
  { apply frob_acc_lt. apply size_le_iff. simpl. lia. }
  assert (HP0 : P <> 0) by (now apply (P_neq_0 m)).
  destruct (inverse_loop_spec P acc (N.size P) (S (S (N.to_nat m))) P acc 0 1)
    as (g & s & E & Hg0 & Hga & HgP & Hcong & _).
  { apply size_le_iff in Hacc. lia. }
  { apply (reduced_size m P size_P). exact Hacc. }
  { rewrite clmul_0_l. apply cong_sym, cong_0_divides, divides_refl. }
  { rewrite clmul_1_l. apply cong_refl. }
  { auto. }
  { change (N.size 0) with 0. lia. }
  { change (N.size 1) with 1. lia. }
  rewrite E in Hg. apply N.eqb_eq in Hg. subst g.
  split; [rewrite size_P; lia|].
  intros u v EP.
  destruct (N.eq_dec u 1) as [|Hu]; [now left|].
  destruct (N.eq_dec v 1) as [|Hv]; [now right|].
  exfalso.
  assert (Hu0 : u <> 0) by (intros E0; rewrite E0, clmul_0_l in EP; contradiction).
  assert (Hv0 : v <> 0) by (intros E0; rewrite E0, clmul_0_r in EP; contradiction).
  assert (Hsz : forall t, t <> 0 -> t <> 1 -> 2 <= N.size t).
  { intros t Ht0 Ht1. pose proof (size_pos t Ht0).
    destruct (N.eq_dec (N.size t) 1) as [E1|]; [|lia].
    apply (proj1 (size_1_iff _)) in E1. contradiction. }
  pose proof (Hsz u Hu0 Hu) as Hsu. pose proof (Hsz v Hv0 Hv) as Hsv.
  pose proof (size_clmul u v Hu0 Hv0) as Hs. rewrite <- EP, size_P in Hs.
  (* a factor [w] of degree at most m/2 *)
  assert (Hw : exists w, divides w P /\ 2 <= N.size w /\ 2 * N.pred (N.size w) <= m).
  { destruct (N.le_ge_cases (N.size u) (N.size v)).
    - exists u. split; [exists v; exact EP|lia].
    - exists v. split; [exists u; rewrite clmul_comm; exact EP|lia]. }
  destruct Hw as (w & HwP & Hw2 & Hwm).
  destruct (irreducible_factor (N.to_nat (N.size w)) w (Nat.le_refl _) Hw2)
    as (f & Hf & Hfw & Hfs).
  assert (HfP : divides f P) by (eapply divides_trans; eassumption).
  pose proof (fermat f Hf 2) as Hfer.
  set (d := N.pred (N.size f)) in *.
  assert (Hd1 : 1 <= d) by (destruct Hf as [Hf _]; unfold d; lia).
  assert (Hdm : d <= m / 2).
  { apply N.div_le_lower_bound; [lia|]. unfold d. lia. }
  assert (Hdiv : divides f (N.lxor (frob m P 2 (S (N.to_nat (N.pred d)))) 2)).
  { change (cong f (frob m P 2 (S (N.to_nat (N.pred d)))) 2).
    eapply cong_trans; [|exact Hfer].
    eapply cong_divides; [exact HfP|].
    replace d with (N.of_nat (S (N.to_nat (N.pred d)))) at 2 by lia.
    apply frob_cong. }
  assert (Hfacc : divides f acc).
  { apply (frob_acc_divides f HfP _ _ _ (N.to_nat (N.pred d))); [lia|exact Hdiv]. }
  assert (Hf1 : divides f 1).
  { eapply divides_cong; [exact HfP|apply cong_sym; exact Hcong|].
    now apply divides_clmul_l. }
  apply divides_1 in Hf1. destruct Hf as [Hf _]. rewrite Hf1 in Hf. simpl in Hf. lia.
Qed.

End Irreducibility.

(** ** The five table polynomials are irreducible *)

Section Table.
Import GF2 Poly _Element.

Definition supported (field_size : N) : Prop :=
  In field_size [128; 160; 192; 224; 256].

Lemma irreducible_128 : irreducible (1 + 2^11 + 2^35 + 2^77 + 2^128).
Proof. apply (irred_check_sound 128); vm_compute; reflexivity. Qed.

Lemma irreducible_160 : irreducible (1 + 2^30 + 2^56 + 2^101 + 2^160).
Proof. apply (irred_check_sound 160); vm_compute; reflexivity. Qed.

Lemma irreducible_192 : irreducible (1 + 2^17 + 2^103 + 2^142 + 2^192).
Proof. apply (irred_check_sound 192); vm_compute; reflexivity. Qed.

Lemma irreducible_224 : irreducible (1 + 4 + 2^39 + 2^116 + 2^224).
Proof. apply (irred_check_sound 224); vm_compute; reflexivity. Qed.

Lemma irreducible_256 : irreducible (1 + 2^121 + 2^178 + 2^241 + 2^256).
Proof. apply (irred_check_sound 256); vm_compute; reflexivity. Qed.

Lemma dict_get_supported m :
  supported m <-> exists P, dict_get m irr_poly_table = Some P.
Proof.
  unfold supported, irr_poly_table. cbn [dict_get In]. split.
  - intros [<-|[<-|[<-|[<-|[<-|[]]]]]]; eexists; reflexivity.
  - intros [P H].
    repeat match type of H with
           | context [?a =? ?b] =>
               destruct (N.eqb_spec a b); [subst; tauto|]
           end.
    discriminate.
Qed.

Lemma table_entry m P :
  dict_get m irr_poly_table = Some P ->
  N.size P = N.succ m /\ irreducible P /\ 8 <= m /\ m mod 8 = 0.
Proof.
  unfold irr_poly_table. cbn [dict_get]. intros H.
  repeat match type of H with
         | context [?a =? ?b] =>
             destruct (N.eqb_spec a b); [subst m; injection H as <-|]
         end; [| | | | |discriminate].
  - split; [vm_compute; reflexivity|split; [apply irreducible_128|split; [lia|reflexivity]]].
  - split; [vm_compute; reflexivity|split; [apply irreducible_160|split; [lia|reflexivity]]].
  - split; [vm_compute; reflexivity|split; [apply irreducible_192|split; [lia|reflexivity]]].
  - split; [vm_compute; reflexivity|split; [apply irreducible_224|split; [lia|reflexivity]]].
  - split; [vm_compute; reflexivity|split; [apply irreducible_256|split; [lia|reflexivity]]].
Qed.

End Table.

(** ** GF(2^m) as computed by [_Element] *)

Section FieldLaws.
Import GF2 Poly _Element.

Variables (m P : N).
Hypothesis size_P : N.size P = N.succ m.
Hypothesis irreducible_P : irreducible P.

Local Abbreviation mul := (__mul__ m P).
Local Abbreviation add := __add__.
Local Abbreviation inv := (inverse P).

Lemma m_pos : 1 <= m.
Proof. destruct irreducible_P as [H _]. lia. Qed.

Lemma one_reduced : 1 < 2 ^ m.
Proof. apply size_le_iff. change (N.size 1) with 1. apply m_pos. Qed.

Lemma add_lt a b : a < 2 ^ m -> b < 2 ^ m -> add a b < 2 ^ m.
Proof.
  clear size_P irreducible_P. intros Ha Hb. apply size_le_iff. apply size_le_iff in Ha, Hb.
  pose proof (size_lxor_le a b). unfold __add__. lia.
Qed.

Lemma mul_comm a b : mul a b = mul b a.
Proof.
  clear size_P irreducible_P. unfold __mul__. cbv zeta.
  destruct (N.ltb_spec a b) as [H1|H1]; destruct (N.ltb_spec b a) as [H2|H2];
    try reflexivity; try lia.
  assert (a = b) by lia. now subst.
Qed.

(** Two reduced representatives of one class are equal. *)
Lemma reduced_eq a b : cong P a b -> a < 2 ^ m -> b < 2 ^ m -> a = b.
Proof.
  intros Hc Ha Hb.
  apply (cong_small P); [assumption| |]; now apply (reduced_size m P size_P).
Qed.

Lemma mul_lt a b : a < 2 ^ m -> b < 2 ^ m -> mul a b < 2 ^ m.
Proof. now apply __mul___lt. Qed.

Lemma mul_cong a b : a < 2 ^ m -> b < 2 ^ m -> cong P (mul a b) (clmul a b).
Proof. now apply __mul___cong. Qed.

Lemma mul_assoc a b c :
  a < 2 ^ m -> b < 2 ^ m -> c < 2 ^ m -> mul (mul a b) c = mul a (mul b c).
Proof.
  intros Ha Hb Hc.
  apply reduced_eq; try (apply mul_lt; try apply mul_lt; assumption).
  eapply cong_trans; [apply mul_cong; [now apply mul_lt|assumption]|].
  eapply cong_trans;
    [apply cong_clmul; [now apply mul_cong|apply cong_refl]|].
  rewrite clmul_assoc. apply cong_sym.
  eapply cong_trans; [apply mul_cong; [assumption|now apply mul_lt]|].
  apply cong_clmul; [apply cong_refl|now apply mul_cong].
Qed.

Lemma mul_add_distr_r a b c :
  a < 2 ^ m -> b < 2 ^ m -> c < 2 ^ m ->
  mul (add a b) c = add (mul a c) (mul b c).
Proof.
  intros Ha Hb Hc.
  apply reduced_eq;
    [|apply mul_lt; [now apply add_lt|assumption]
     |apply add_lt; now apply mul_lt].
  eapply cong_trans; [apply mul_cong; [now apply add_lt|assumption]|].
  unfold __add__. rewrite clmul_lxor_l.
  apply cong_sym, cong_lxor; now apply mul_cong.
Qed.

Lemma mul_1_l a : a < 2 ^ m -> mul 1 a = a.
Proof.
  intros Ha. apply reduced_eq; [|apply mul_lt; [apply one_reduced|]|]; try assumption.
  eapply cong_trans; [apply mul_cong; [apply one_reduced|assumption]|].
  rewrite clmul_1_l. apply cong_refl.
Qed.

Lemma mul_0_l a : a < 2 ^ m -> mul 0 a = 0.
Proof.
  intros Ha.
  assert (H0 : 0 < 2 ^ m) by (pose proof (N.pow_nonzero 2 m); lia).
  apply reduced_eq; [|now apply mul_lt|assumption].
  eapply cong_trans; [now apply mul_cong|].
  rewrite clmul_0_l. apply cong_refl.
Qed.

(** A divisor of [P] that also divides a nonzero reduced element is 1. *)
Lemma common_divisor_1 g a :
  a <> 0 -> a < 2 ^ m -> divides g a -> divides g P -> g = 1.
Proof.
  intros Ha Hlt Hga [t Ht].
  destruct irreducible_P as [_ Hirr].
  destruct (Hirr _ _ Ht) as [|Et]; [assumption|exfalso].
  subst t. rewrite clmul_1_r in Ht. subst g.
  pose proof (divides_size _ _ Hga Ha).
  apply (reduced_size m P size_P) in Hlt. lia.
Qed.

Lemma inverse_loop_S fuel r0 r1 s0 s1 :
  inverse_loop (S fuel) r0 r1 s0 s1 =
  if 0 <? r1 then
    match _div_gf2 r0 r1 with
    | None => Raise NoReturn
    | Some (q, _) =>
        inverse_loop fuel r1 (N.lxor r0 (_mult_gf2 q r1))
                     s1 (N.lxor s0 (_mult_gf2 q s1))
    end
  else Ok (r0, s0).
Proof. reflexivity. Qed.

Lemma inverse_spec a :
  a <> 0 -> a < 2 ^ m ->
  exists ai, inv a = Ok ai /\ ai < 2 ^ m /\ mul a ai = 1.
Proof.
  intros Ha Hlt. unfold inverse.
  destruct (N.eqb_spec a 0) as [|_]; [contradiction|].
  rewrite deg_size, size_P, inverse_loop_S.
  assert (HP0 : P <> 0) by (now apply (P_neq_0 m)).
  assert (HsaP : N.size a < N.size P) by (now apply (reduced_size m P size_P)).
  destruct (N.ltb_spec 0 P) as [_|]; [|lia].
  unfold _div_gf2. destruct (N.ltb_spec a P) as [_|Hge].
  2:{ exfalso. apply size_lt_lt in HsaP. lia. }
  rewrite !_mult_gf2_spec, clmul_0_l, !N.lxor_0_r.
  destruct (inverse_loop_spec P a m (S (N.to_nat (N.succ m))) P a 0 1)
    as (g & s & E & Hg0 & Hga & HgP & Hcong & Hsz).
  - rewrite size_P in HsaP. lia.
  - assumption.
  - rewrite clmul_0_l. apply cong_sym, cong_0_divides, divides_refl.
  - rewrite clmul_1_l. apply cong_refl.
  - auto.
  - change (N.size 0) with 0. rewrite size_P. lia.
  - change (N.size 1) with 1. rewrite size_P. lia.
  - rewrite E. cbn [bind snd].
    assert (g = 1) by (now apply (common_divisor_1 g a)). subst g.
    change (N.size 1) with 1 in Hsz.
    assert (Hs : s < 2 ^ m) by (apply size_le_iff; lia).
    exists s. split; [reflexivity|split; [assumption|]].
    apply reduced_eq; [|now apply mul_lt|apply one_reduced].
    eapply cong_trans; [now apply mul_cong|].
    rewrite clmul_comm. exact Hcong.
Qed.

Lemma mul_eq_0 a b :
  a < 2 ^ m -> b < 2 ^ m -> mul a b = 0 -> a = 0 \/ b = 0.
Proof.
  intros Ha Hb H.
  destruct (N.eq_dec a 0) as [|Ha0]; [now left|right].
  destruct (inverse_spec a Ha0 Ha) as (ai & _ & Hai & Hinv).
  rewrite <- (mul_1_l b Hb), <- Hinv, (mul_comm a ai).
  rewrite mul_assoc by assumption. rewrite H.
  rewrite mul_comm. apply mul_0_l. assumption.
Qed.

End FieldLaws.

(** *** The loops of [_div_gf2] and [inverse] terminate *)

Section Termination.
Import GF2 Poly _Element.

Lemma _div_gf2_returns a b :
  b <> 0 -> exists q r, _div_gf2 a b = Some (q, r).
Proof.
  intros Hb. destruct (N.lt_ge_cases a b) as [Hlt|Hge].
  - exists 0, a. unfold _div_gf2.
    destruct (N.ltb_spec a b); [reflexivity|lia].
  - destruct (_div_gf2_spec a b Hb (or_introl Hge)) as (q & r & E & _).
    now exists q, r.
Qed.

Lemma inverse_loop_returns fuel : forall r0 r1 s0 s1,
  r1 <= r0 -> (N.to_nat (N.size r1) < fuel)%nat ->
  exists g s, inverse_loop fuel r0 r1 s0 s1 = Ok (g, s).
Proof.
  induction fuel as [|fuel IH]; intros r0 r1 s0 s1 Hle Hfuel; [lia|].
  rewrite inverse_loop_S.
  destruct (N.ltb_spec 0 r1) as [Hpos|_]; [|now exists r0, s0].
  destruct (_div_gf2_spec r0 r1 ltac:(lia) (or_introl Hle))
    as (q & r & E & Heq & Hr & _).
  rewrite E, !_mult_gf2_spec.
  replace (N.lxor r0 (clmul q r1)) with r
    by (rewrite Heq, (clmul_comm q r1); xor_ac).
  apply IH; [|lia].
  apply N.lt_le_incl. now apply size_lt_lt.
Qed.

(** [inverse] returns for every nonzero argument, whatever the
    polynomial. *)
Lemma inverse_returns P a : a <> 0 -> exists v, inverse P a = Ok v.
Proof.
  intros Ha. unfold inverse.
  destruct (N.eqb_spec a 0) as [|_]; [contradiction|].
  rewrite deg_size.
  destruct (N.lt_ge_cases a P) as [Hlt|Hge].
  - rewrite inverse_loop_S.
    destruct (N.ltb_spec 0 P) as [_|]; [|lia].
    unfold _div_gf2. destruct (N.ltb_spec a P) as [_|]; [|lia].
    rewrite !_mult_gf2_spec, clmul_0_l, !N.lxor_0_r.
    destruct (inverse_loop_returns (S (N.to_nat (N.size P))) P a 0 1)
      as (g & s & E).
    + lia.
    + assert (N.size a <= N.size P); [|lia].
      apply size_le_iff. eapply N.lt_trans; [exact Hlt|apply N.size_gt].
    + rewrite E. now exists s.
  - destruct (inverse_loop_returns (S (S (N.to_nat (N.size P)))) a P 1 0)
      as (g & s & E); [assumption|lia|].
    rewrite E. now exists s.
Qed.

End Termination.

(** ** Polynomials over GF(2)[x]/(P) and their roots *)

Definition phi2 (b : bool) : N := if b then 1 else 0.

Lemma gf2x_ring_theory :
  ring_theory 0 1 N.lxor GF2.clmul N.lxor (fun x => x) (@eq N).
Proof.
  constructor; intros.
  - apply N.lxor_0_l.
  - apply N.lxor_comm.
  - now rewrite N.lxor_assoc.
  - apply GF2.clmul_1_l.
  - apply GF2.clmul_comm.
  - now rewrite GF2.clmul_assoc.
  - apply GF2.clmul_lxor_l.
  - reflexivity.
  - apply N.lxor_nilpotent.
Qed.

Lemma gf2x_morph :
  ring_morph 0 1 N.lxor GF2.clmul N.lxor (fun x => x) (@eq N)
             false true xorb andb xorb (fun b => b) Bool.eqb phi2.
Proof.
  constructor; try reflexivity.
  - intros [] []; reflexivity.
  - intros [] []; reflexivity.
  - intros [] []; reflexivity.
  - intros [] []; simpl; congruence.
Qed.

Add Ring gf2x : gf2x_ring_theory (morphism gf2x_morph).

Section Roots.
Import GF2 Poly.

(** Value at [x] of the polynomial with coefficients [l], lowest degree
    first, computed in GF(2)[x] without reduction. *)
Fixpoint ev (l : list N) (x : N) : N :=
  match l with
  | [] => 0
  | c :: l' => N.lxor c (clmul x (ev l' x))
  end.

(** Quotient by [X + a]. *)
Fixpoint sdiv (a : N) (l : list N) : list N :=
  match l with
  | [] => []
  | c :: l' =>
      match l' with
      | [] => []
      | _ :: _ => ev l' a :: sdiv a l'
      end
  end.

Lemma length_sdiv a l : length (sdiv a l) = pred (length l).
Proof.
  induction l as [|c l IH]; [reflexivity|].
  destruct l as [|c' l]; [reflexivity|].
  change (length (sdiv a (c :: c' :: l))) with (S (length (sdiv a (c' :: l)))).
  rewrite IH. reflexivity.
Qed.

Lemma sdiv_spec a l x :
  ev l x = N.lxor (ev l a) (clmul (N.lxor x a) (ev (sdiv a l) x)).
Proof.
  induction l as [|c l IH]; [cbn [ev sdiv]; ring|].
  destruct l as [|c' l]; [cbn [ev sdiv]; ring|].
  change (sdiv a (c :: c' :: l)) with (ev (c' :: l) a :: sdiv a (c' :: l)).
  set (l' := c' :: l) in *.
  cbn [ev]. rewrite IH at 1. ring.
Qed.

Variable P : N.
Hypothesis irreducible_P : irreducible P.

Lemma clmul_cong_0 a b :
  cong P (clmul a b) 0 -> cong P a 0 \/ cong P b 0.
Proof.
  rewrite !cong_0_divides. now apply euclid_lemma.
Qed.

(** A polynomial with more roots, pairwise distinct modulo [P], than
    coefficients vanishes everywhere modulo [P]. *)
Lemma vanish pts : forall l,
  (length l <= length pts)%nat ->
  ForallOrdPairs (fun a b => ~ cong P a b) pts ->
  (forall a, In a pts -> cong P (ev l a) 0) ->
  forall x, cong P (ev l x) 0.
Proof.
  induction pts as [|a pts IH]; intros l Hlen Hd Hroots x.
  - destruct l; [apply cong_refl|simpl in Hlen; lia].
  - destruct l as [|c l]; [apply cong_refl|].
    inversion Hd as [|? ? Ha Hd']; subst.
    set (q := sdiv a (c :: l)).
    assert (Hq : forall b, In b pts -> cong P (ev q b) 0).
    { intros b Hb.
      assert (Hprod : cong P (clmul (N.lxor b a) (ev q b)) 0).
      { replace (clmul (N.lxor b a) (ev q b))
          with (N.lxor (ev (c :: l) b) (ev (c :: l) a))
          by (rewrite (sdiv_spec a (c :: l) b); fold q; ring).
        change 0 with (N.lxor 0 0).
        apply cong_lxor; apply Hroots; [now right|now left]. }
      apply clmul_cong_0 in Hprod. destruct Hprod as [Hba|]; [exfalso|assumption].
      rewrite Forall_forall in Ha. apply (Ha b Hb).
      apply cong_sym. unfold cong in *. now rewrite N.lxor_0_r in Hba. }
    assert (Hqx : cong P (ev q x) 0).
    { apply IH; [|assumption|assumption].
      unfold q. rewrite length_sdiv. simpl in *. lia. }
    rewrite (sdiv_spec a (c :: l) x). fold q.
    eapply cong_trans;
      [apply cong_lxor;
       [apply Hroots; now left
       |apply cong_clmul; [apply cong_refl|exact Hqx]]|].
    rewrite clmul_0_r. apply cong_refl.
Qed.

(** *** Polynomial functions of bounded length *)

Definition PF (n : nat) (f : N -> N) : Prop :=
  exists l, (length l <= n)%nat /\ forall t, f t = ev l t.

Fixpoint padd (l1 l2 : list N) : list N :=
  match l1, l2 with
  | [], _ => l2
  | _, [] => l1
  | a :: l1', b :: l2' => N.lxor a b :: padd l1' l2'
  end.

Lemma ev_padd l1 : forall l2 t, ev (padd l1 l2) t = N.lxor (ev l1 t) (ev l2 t).
Proof.
  induction l1 as [|a l1 IH]; intros [|b l2] t; cbn [padd ev]; try ring.
  rewrite IH. ring.
Qed.

Lemma length_padd l1 : forall l2,
  length (padd l1 l2) = Nat.max (length l1) (length l2).
Proof.
  induction l1 as [|a l1 IH]; intros [|b l2]; cbn [padd length]; try reflexivity.
  now rewrite IH.
Qed.

Lemma ev_scale c l t : ev (map (clmul c) l) t = clmul c (ev l t).
Proof.
  induction l as [|a l IH]; cbn [map ev]; [ring|]. rewrite IH. ring.
Qed.

Lemma PF_weaken n n' f : (n <= n')%nat -> PF n f -> PF n' f.
Proof. intros Hn (l & Hl & Hf). exists l. split; [lia|assumption]. Qed.

Lemma PF_ext n f f' : (forall t, f t = f' t) -> PF n f -> PF n f'.
Proof.
  intros E (l & Hl & Hf). exists l. split; [assumption|].
  intros t. now rewrite <- E.
Qed.

Lemma PF_const c : PF 1 (fun _ => c).
Proof. exists [c]. split; [simpl; lia|]. intros t. cbn [ev]. ring. Qed.

Lemma PF_zero n : PF n (fun _ => 0).
Proof. exists []. split; [simpl; lia|reflexivity]. Qed.

Lemma PF_add n f h : PF n f -> PF n h -> PF n (fun t => N.lxor (f t) (h t)).
Proof.
  intros (l1 & H1 & E1) (l2 & H2 & E2). exists (padd l1 l2). split.
  - rewrite length_padd. lia.
  - intros t. now rewrite ev_padd, E1, E2.
Qed.

Lemma PF_scale n c f : PF n f -> PF n (fun t => clmul (f t) c).
Proof.
  intros (l & Hl & E). exists (map (clmul c) l). split.
  - now rewrite length_map.
  - intros t. rewrite ev_scale, E. ring.
Qed.

Lemma PF_mul_lin n a f : PF n f -> PF (S n) (fun t => clmul (f t) (N.lxor t a)).
Proof.
  intros (l & Hl & E). exists (padd (0 :: l) (map (clmul a) l)). split.
  - rewrite length_padd, length_map. cbn [length]. lia.
  - intros t. rewrite ev_padd, ev_scale, E. cbn [ev]. ring.
Qed.

End Roots.

(** ** The class [Shamir] *)

Module Shamir.
Import _Element.

Definition PBKDF2_ROUNDS : N := 2048.

(** [str(n)] for an unsigned [n], and [s.encode("utf-8")]. *)
Definition str (n : N) : string :=
  DecimalString.NilZero.string_of_uint (N.to_uint n).

Definition utf8 (s : string) : list byte := list_byte_of_string s.

(** [range(1, n + 1)] *)
Definition range1 (n : N) : list N := map N.of_nat (seq 1 (N.to_nat n)).

(** A list comprehension whose element expression can raise. *)
Fixpoint mapM {A B : Type} (f : A -> result B) (l : list A) : result (list B) :=
  match l with
  | [] => Ok []
  | a :: l' =>
      b <- f a ;;
      bs <- mapM f l' ;;
      Ok (b :: bs)
  end.

(** [l[i]] *)
Definition getitem {A : Type} (l : list A) (i : N) : result A :=
  match nth_error l (N.to_nat i) with
  | Some a => Ok a
  | None => Raise IndexError
  end.

(** [l[-1]] and [l[-1] = v]: an empty list has no last position. *)
Definition getitem_last {A : Type} (l : list A) : result A :=
  match List.rev l with
  | a :: _ => Ok a
  | [] => Raise IndexError
  end.

Definition setitem_last {A : Type} (l : list A) (v : A) : result (list A) :=
  match l with
  | [] => Raise IndexError
  | _ :: _ => Ok (removelast l ++ [v])
  end.

(** [l[i] = v] for a position [i >= 0]. *)
Definition setitem {A : Type} (l : list A) (i : N) (v : A) : result (list A) :=
  if i <? N.of_nat (List.length l)
  then Ok (firstn (N.to_nat i) l ++ v :: skipn (S (N.to_nat i)) l)
  else Raise IndexError.

(** [len(x)] for an entry of [rnd_bytes]: [len(None)] is a [TypeError]. *)
Definition len_entry (x : option (list byte)) : result N :=
  match x with
  | Some b => Ok (N.of_nat (List.length b))
  | None => Raise TypeError
  end.

Section Codec.

(** The collaborators that live outside this file: the BIP-39 codec
    ([bip39.mnemonic_to_bytes], [bip39.mnemonic_from_bytes]), its word list
    and [hashlib.pbkdf2_hmac(hash_name, password, salt, iterations,
    dklen)]. *)
Variable wordlist_t : Type.
Variable WORDLIST : wordlist_t.
Variable mnemonic_to_bytes : string -> wordlist_t -> result (list byte).
Variable mnemonic_from_bytes : list byte -> string.
Variable pbkdf2_hmac : string -> list byte -> list byte -> N -> N -> list byte.

(** The argument [wordlist] is [None] or a word list; the entries of
    [rnd_bytes] are [None] until they are assigned. *)
Definition mnemonic_to_shares (mnemonic : string) (nb_shares : N)
    (wordlist : option wordlist_t) : result (list (option (list byte))) :=
  let rnd_bytes := repeat None (N.to_nat nb_shares) in
  rnd_bytes <-
    match wordlist with
    | Some wordlist =>
        secret <- mnemonic_to_bytes mnemonic wordlist ;;
        setitem_last rnd_bytes (Some secret)
    | None => Ok rnd_bytes
    end ;;
  fold_left
    (fun acc i =>
       rnd_bytes <- acc ;;
       let password :=
         ("shamir" ++ str i ++ " number of shares " ++ str nb_shares)%string in
       last <- getitem_last rnd_bytes ;;
       dklen <- len_entry last ;;
       setitem rnd_bytes i
         (Some (pbkdf2_hmac "sha512" (utf8 mnemonic)
                            (utf8 ("mnemonic" ++ password)%string)
                            PBKDF2_ROUNDS dklen)))
    (range (nb_shares - 1)) (Ok rnd_bytes).

(** The local function [make_share] of [split]; [field_size] and
    [irr_poly] are the class attributes in force. *)
Definition make_share (field_size irr_poly : N) (user : N) (coeffs : list N)
  : result string :=
  idx <- __init__ field_size (EInt user) ;;
  share <- __init__ field_size (EInt 0) ;;
  let share :=
    fold_left (fun share coeff =>
                 __add__ (__mul__ field_size irr_poly idx share) coeff)
              coeffs share in
  b <- encode field_size share ;;
  Ok (mnemonic_from_bytes b).

Definition split (k n : N) (secret : string) (st : class_state)
  : result (list (N * string)) * class_state :=
  match mnemonic_to_bytes secret WORDLIST with
  | Raise e => (Raise e, st)
  | Ok secret_bytes =>
      let field_size := N.of_nat (length secret_bytes) * 8 in
      match set_field_size field_size st with
      | (Raise e, st) => (Raise e, st)
      | (Ok _, st) =>
          (match cls_field_size st, cls_irr_poly st with
           | Some fs, Some irr =>
               coeffs_bytes <- mnemonic_to_shares secret k (Some WORDLIST) ;;
               coeffs <- mapM (fun i =>
                                 b <- getitem coeffs_bytes i ;;
                                 match b with
                                 | Some b => __init__ fs (EBytes b)
                                 | None => Raise TypeError (* len(None) *)
                                 end)
                              (range k) ;;
               mapM (fun i =>
                       s <- make_share fs irr i coeffs ;;
                       Ok (i, s))
                    (range1 n)
           | _, _ => Raise AttributeError
           end, st)
      end
  end.

(** The loop that fills [gf_shares]. *)
Definition gf_shares_of (field_size : N) (shares : list (N * list byte))
  : result (list (N * N)) :=
  fold_left
    (fun acc x =>
       gf_shares <- acc ;;
       idx <- __init__ field_size (EInt (fst x)) ;;
       value <- __init__ field_size (EBytes (snd x)) ;;
       if existsb (fun y => __eq__ (fst y) idx) gf_shares
       then Raise ValueError_duplicate_share
       else Ok (gf_shares ++ [(idx, value)]))
    shares (Ok []).

(** [gf_shares[m]], for [m] in [range(k)]. *)
Definition gf_share (gf_shares : list (N * N)) (m : N) : N * N :=
  nth (N.to_nat m) gf_shares (0, 0).

(** The inner loop [for m in range(k)]: the final
    [(numerator, denominator)]. *)
Definition num_den (field_size irr_poly : N) (gf_shares : list (N * N))
    (k j : N) : N * N :=
  let x_j := fst (gf_share gf_shares j) in
  fold_left
    (fun nd m =>
       let x_m := fst (gf_share gf_shares m) in
       if negb (m =? j)
       then (__mul__ field_size irr_poly (fst nd) x_m,
             __mul__ field_size irr_poly (snd nd) (__add__ x_j x_m))
       else nd)
    (range k) (1, 1).

(** The outer loop [for j in range(k)]. *)
Definition interpolate (field_size irr_poly : N) (gf_shares : list (N * N))
    (k : N) : result N :=
  fold_left
    (fun acc j =>
       result <- acc ;;
       let y_j := snd (gf_share gf_shares j) in
       let nd := num_den field_size irr_poly gf_shares k j in
       inv <- inverse irr_poly (snd nd) ;;
       Ok (__add__ result
             (__mul__ field_size irr_poly
                (__mul__ field_size irr_poly y_j (fst nd)) inv)))
    (range k) (Ok 0).

Definition combine (shares : list (N * string)) (wordlist : wordlist_t)
    (st : class_state) : result string * class_state :=
  match mapM (fun val =>
                b <- mnemonic_to_bytes (snd val) wordlist ;;
                Ok (fst val, b)) shares with
  | Raise e => (Raise e, st)
  | Ok shares =>
      match shares with
      | [] => (Raise IndexError, st)
      | first :: _ =>
          match set_field_size (N.of_nat (length (snd first)) * 8) st with
          | (Raise e, st) => (Raise e, st)
          | (Ok _, st) =>
              (match cls_field_size st, cls_irr_poly st with
               | Some fs, Some irr =>
                   let k := N.of_nat (length shares) in
                   gf_shares <- gf_shares_of fs shares ;;
                   result <- interpolate fs irr gf_shares k ;;
                   b <- encode fs result ;;
                   Ok (mnemonic_from_bytes b)
               | _, _ => Raise AttributeError
               end, st)
          end
      end
  end.

End Codec.

End Shamir.

(** ** Byte strings and field elements *)

Section Bytes.
Import _Element.

Lemma fold_from_bytes b : forall acc,
  fold_left (fun acc x => acc * 256 + Byte.to_N x) b acc
  = acc * 256 ^ N.of_nat (length b) + int_from_bytes b.
Proof.
  unfold int_from_bytes.
  induction b as [|x b IH]; intros acc.
  - cbn [fold_left length]. change (N.of_nat 0) with 0. rewrite N.pow_0_r. lia.
  - cbn [fold_left length]. rewrite IH, (IH (0 * 256 + Byte.to_N x)).
    rewrite Nat2N.inj_succ, N.pow_succ_r'. lia.
Qed.

Lemma int_from_bytes_snoc b x :
  int_from_bytes (b ++ [x]) = int_from_bytes b * 256 + Byte.to_N x.
Proof. unfold int_from_bytes. now rewrite fold_left_app. Qed.

Lemma int_from_bytes_lt b : int_from_bytes b < 256 ^ N.of_nat (length b).
Proof.
  induction b as [|x b IH] using rev_ind.
  - cbn. lia.
  - rewrite int_from_bytes_snoc, length_app, Nat.add_1_r, Nat2N.inj_succ,
      N.pow_succ_r'.
    pose proof (Byte.to_N_bounded x). lia.
Qed.

Lemma byte_of_N_to_N n : Byte.to_N (byte_of_N n) = n mod 256.
Proof.
  unfold byte_of_N.
  destruct (Byte.of_N (n mod 256)) as [b|] eqn:E.
  - now apply Byte.to_of_N.
  - apply Byte.of_N_None_iff in E.
    pose proof (N.mod_upper_bound n 256 ltac:(lia)). lia.
Qed.

Lemma byte_of_N_snoc v x : byte_of_N (v * 256 + Byte.to_N x) = x.
Proof.
  unfold byte_of_N.
  pose proof (Byte.to_N_bounded x).
  replace ((v * 256 + Byte.to_N x) mod 256) with (Byte.to_N x).
  - now rewrite Byte.of_to_N.
  - rewrite N.add_comm, N.Div0.mod_add. symmetry. apply N.mod_small. lia.
Qed.

Lemma length_bytes_le w : forall v, length (bytes_le w v) = w.
Proof. induction w as [|w IH]; intros v; cbn [bytes_le length]; [|rewrite IH]; reflexivity. Qed.

Lemma from_bytes_le w : forall v,
  int_from_bytes (List.rev (bytes_le w v)) = v mod 256 ^ N.of_nat w.
Proof.
  induction w as [|w IH]; intros v.
  - cbn. now rewrite N.mod_1_r.
  - cbn [bytes_le List.rev]. rewrite int_from_bytes_snoc, IH, byte_of_N_to_N.
    rewrite Nat2N.inj_succ, N.pow_succ_r', N.Div0.mod_mul_r. lia.
Qed.

Lemma bytes_le_from_bytes b :
  bytes_le (length b) (int_from_bytes b) = List.rev b.
Proof.
  induction b as [|x b IH] using rev_ind; [reflexivity|].
  rewrite length_app, Nat.add_1_r, int_from_bytes_snoc, rev_app_distr.
  cbn [bytes_le List.rev app]. rewrite byte_of_N_snoc. f_equal.
  replace ((int_from_bytes b * 256 + Byte.to_N x) / 256) with (int_from_bytes b).
  - exact IH.
  - pose proof (Byte.to_N_bounded x).
    rewrite N.add_comm, N.div_add by lia.
    rewrite N.div_small by lia. reflexivity.
Qed.

Variable m : N.
Hypothesis m_bytes : m mod 8 = 0.

Lemma pow256 : 256 ^ (m / 8) = 2 ^ m.
Proof.
  change 256 with (2 ^ 8). rewrite <- N.pow_mul_r. f_equal.
  pose proof (N.div_mod m 8 ltac:(lia)). lia.
Qed.

Lemma init_bytes_lt b v : __init__ m (EBytes b) = Ok v -> v < 2 ^ m.
Proof.
  cbn [__init__]. destruct (N.eqb_spec (N.of_nat (length b)) (m / 8)) as [E|];
    [|discriminate].
  intros [= <-]. rewrite <- pow256, <- E. apply int_from_bytes_lt.
Qed.

Lemma init_bytes_ok b :
  N.of_nat (length b) = m / 8 -> __init__ m (EBytes b) = Ok (int_from_bytes b).
Proof. intros E. cbn [__init__]. now rewrite E, N.eqb_refl. Qed.

Lemma encode_ok v :
  v < 2 ^ m -> encode m v = Ok (List.rev (bytes_le (N.to_nat (m / 8)) v)).
Proof.
  intros Hv. unfold encode, int_to_bytes. rewrite pow256.
  destruct (N.ltb_spec v (2 ^ m)); [reflexivity|lia].
Qed.

Lemma encode_from_bytes b :
  N.of_nat (length b) = m / 8 -> encode m (int_from_bytes b) = Ok b.
Proof.
  intros E. rewrite encode_ok.
  - rewrite <- E, Nat2N.id, bytes_le_from_bytes, rev_involutive. reflexivity.
  - rewrite <- pow256, <- E. apply int_from_bytes_lt.
Qed.

Lemma init_encode v bs :
  encode m v = Ok bs ->
  N.of_nat (length bs) = m / 8 /\ __init__ m (EBytes bs) = Ok v.
Proof.
  unfold encode, int_to_bytes.
  destruct (N.ltb_spec v (256 ^ (m / 8))) as [Hv|]; [|discriminate].
  intros [= <-].
  assert (Hlen : N.of_nat (length (List.rev (bytes_le (N.to_nat (m / 8)) v))) = m / 8).
  { rewrite length_rev, length_bytes_le. apply N2Nat.id. }
  split; [exact Hlen|].
  rewrite init_bytes_ok by exact Hlen. f_equal.
  rewrite from_bytes_le, N2Nat.id. now apply N.mod_small.
Qed.

End Bytes.

(** ** Lagrange interpolation at zero, as computed by [combine] *)

Section Lagrange.
Import GF2 Poly _Element Shamir.

Variables (m P : N).
Hypothesis size_P : N.size P = N.succ m.
Hypothesis irreducible_P : irreducible P.

Local Abbreviation mul := (__mul__ m P).
Local Abbreviation reduced := (fun a : N => a < 2 ^ m).

(** The loop of [make_share]. *)
Definition horner (x : N) (coeffs : list N) : N :=
  fold_left (fun share coeff => __add__ (mul x share) coeff) coeffs 0.

Lemma zero_reduced : 0 < 2 ^ m.
Proof. clear size_P irreducible_P. pose proof (N.pow_nonzero 2 m). lia. Qed.

Lemma horner_snoc x cs c :
  horner x (cs ++ [c]) = __add__ (mul x (horner x cs)) c.
Proof. unfold horner. now rewrite fold_left_app. Qed.

Lemma horner_spec x cs :
  reduced x -> Forall reduced cs ->
  reduced (horner x cs) /\ cong P (horner x cs) (ev (List.rev cs) x).
Proof.
  intros Hx. induction cs as [|c cs IH] using rev_ind; intros Hcs.
  - split; [apply zero_reduced|apply cong_refl].
  - apply Forall_app in Hcs. destruct Hcs as [Hcs Hc].
    inversion Hc as [|? ? Hc' _]; subst.
    destruct (IH Hcs) as [Hr Hcong].
    rewrite horner_snoc, rev_app_distr. cbn [List.rev app ev].
    split.
    + apply (add_lt m); [apply (mul_lt m P size_P)|]; assumption.
    + unfold __add__. rewrite N.lxor_comm.
      apply cong_lxor; [apply cong_refl|].
      eapply cong_trans; [apply (mul_cong m P size_P); assumption|].
      apply cong_clmul; [apply cong_refl|assumption].
Qed.

Lemma ev_0 l : ev l 0 = hd 0 l.
Proof. destruct l as [|c l]; [reflexivity|]. cbn [ev hd]. rewrite clmul_0_l. apply N.lxor_0_r. Qed.

(** Indices of a list. *)
Lemma In_range k j : In j (range k) <-> j < k.
Proof.
  clear size_P irreducible_P. unfold range. rewrite in_map_iff. split.
  - intros (i & <- & Hi). apply in_seq in Hi. lia.
  - intros Hj. exists (N.to_nat j). split; [apply N2Nat.id|]. apply in_seq. lia.
Qed.

Lemma NoDup_range k : NoDup (range k).
Proof.
  unfold range. apply NoDup_map_NoDup_ForallPairs; [|apply seq_NoDup].
  intros a b _ _ H. now apply Nat2N.inj.
Qed.

Lemma count_ne (L : list N) j :
  In j L ->
  (S (length (filter (fun mm => negb (N.eqb mm j)) L)) <= length L)%nat.
Proof.
  clear size_P irreducible_P. induction L as [|a L IH]; intros Hj; [destruct Hj|].
  cbn [filter length].
  destruct (N.eqb_spec a j) as [->|Hne]; cbn [negb length].
  - pose proof (filter_length_le (fun mm => negb (N.eqb mm j)) L). lia.
  - destruct Hj as [|Hj]; [contradiction|]. specialize (IH Hj). lia.
Qed.

Variable gf : list (N * N).
Hypothesis gf_reduced : Forall (fun p => reduced (fst p) /\ reduced (snd p)) gf.
Hypothesis gf_distinct : NoDup (map fst gf).

Let k := N.of_nat (length gf).
Let xs (j : N) : N := fst (gf_share gf j).
Let ys (j : N) : N := snd (gf_share gf j).

Lemma gf_share_reduced j : reduced (xs j) /\ reduced (ys j).
Proof.
  unfold xs, ys, gf_share.
  destruct (Nat.lt_ge_cases (N.to_nat j) (length gf)) as [Hlt|Hge].
  - rewrite Forall_forall in gf_reduced. apply gf_reduced. now apply nth_In.
  - rewrite nth_overflow by assumption. split; apply zero_reduced.
Qed.

Lemma xs_inj i j : i < k -> j < k -> xs i = xs j -> i = j.
Proof.
  unfold k, xs, gf_share. intros Hi Hj E.
  rewrite <- !(map_nth fst) in E. cbn [fst] in E.
  apply N2Nat.inj.
  apply (proj1 (NoDup_nth (map fst gf) 0) gf_distinct);
    rewrite ?length_map; lia.
Qed.

Lemma xs_not_cong i j : i < k -> j < k -> i <> j -> ~ cong P (xs i) (xs j).
Proof.
  intros Hi Hj Hne Hc. apply Hne, xs_inj; try assumption.
  apply (reduced_eq m P size_P); [assumption| |]; apply gf_share_reduced.
Qed.

(** The product that the inner loop accumulates, without reduction, as a
    function of the evaluation point [t]. *)
Definition prodU (L : list N) (j t acc : N) : N :=
  fold_left (fun acc mm => if negb (mm =? j) then clmul acc (N.lxor t (xs mm)) else acc)
            L acc.

Lemma num_den_loop L j : forall n d a b,
  reduced n -> reduced d -> cong P n a -> cong P d b ->
  let r := fold_left
             (fun nd mm =>
                let x_m := fst (gf_share gf mm) in
                if negb (mm =? j)
                then (mul (fst nd) x_m, mul (snd nd) (__add__ (xs j) x_m))
                else nd) L (n, d) in
  reduced (fst r) /\ reduced (snd r) /\
  cong P (fst r) (prodU L j 0 a) /\ cong P (snd r) (prodU L j (xs j) b).
Proof.
  induction L as [|mm L IH]; intros n d a b Hn Hd Ha Hb; cbn [fold_left prodU].
  - cbv zeta. cbn [fst snd]. auto.
  - destruct (gf_share_reduced mm) as [Hxm _].
    destruct (gf_share_reduced j) as [Hxj _].
    fold (xs mm). destruct (negb (mm =? j)).
    + apply IH.
      * now apply (mul_lt m P size_P).
      * apply (mul_lt m P size_P); [assumption|now apply (add_lt m)].
      * cbn [fst]. eapply cong_trans; [now apply (mul_cong m P size_P)|].
        rewrite N.lxor_0_l. apply cong_clmul; [assumption|apply cong_refl].
      * cbn [snd]. eapply cong_trans;
          [apply (mul_cong m P size_P); [assumption|now apply (add_lt m)]|].
        apply cong_clmul; [assumption|apply cong_refl].
    + now apply IH.
Qed.

Lemma num_den_spec j :
  let nd := num_den m P gf k j in
  reduced (fst nd) /\ reduced (snd nd) /\
  cong P (fst nd) (prodU (range k) j 0 1) /\
  cong P (snd nd) (prodU (range k) j (xs j) 1).
Proof.
  unfold num_den. cbv zeta. fold (xs j).
  apply (num_den_loop (range k) j 1 1 1 1);
    try apply (one_reduced m P size_P irreducible_P); apply cong_refl.
Qed.

Lemma prodU_zero L j t : prodU L j t 0 = 0.
Proof.
  induction L as [|mm L IH]; cbn [prodU fold_left]; [reflexivity|].
  destruct (negb (mm =? j)); [rewrite clmul_0_l|]; exact IH.
Qed.

Lemma prodU_vanish L j i : forall acc,
  In i L -> i <> j -> prodU L j (xs i) acc = 0.
Proof.
  induction L as [|mm L IH]; intros acc Hi Hne; [destruct Hi|].
  cbn [prodU fold_left]. destruct Hi as [->|Hi].
  - destruct (N.eqb_spec i j) as [|_]; [contradiction|]. cbn [negb].
    rewrite N.lxor_nilpotent, clmul_0_r. apply prodU_zero.
  - now apply IH.
Qed.

Lemma prodU_unit L j : j < k -> (forall mm, In mm L -> mm < k) ->
  forall acc, ~ cong P acc 0 -> ~ cong P (prodU L j (xs j) acc) 0.
Proof.
  intros Hj. induction L as [|mm L IH]; intros HL acc Hacc; cbn [prodU fold_left].
  - assumption.
  - assert (HL' : forall mm', In mm' L -> mm' < k) by (intros; apply HL; now right).
    destruct (N.eqb_spec mm j) as [|Hne]; cbn [negb]; [now apply IH|].
    apply IH; [assumption|].
    intros H. apply (clmul_cong_0 P irreducible_P) in H. destruct H as [|H]; [contradiction|].
    apply (xs_not_cong j mm); [assumption|apply HL; now left|congruence|].
    unfold cong in *. now rewrite N.lxor_0_r in H.
Qed.

Lemma prodU_PF L j : forall n f,
  PF n f ->
  PF (n + length (filter (fun mm => negb (N.eqb mm j)) L))
     (fun t => prodU L j t (f t)).
Proof.
  induction L as [|mm L IH]; intros n f Hf; cbn [prodU fold_left filter].
  - cbn [length]. now rewrite Nat.add_0_r.
  - destruct (negb (mm =? j)); cbn [length].
    + rewrite <- Nat.add_succ_comm.
      apply (IH (S n) (fun t => clmul (f t) (N.lxor t (xs mm)))).
      now apply PF_mul_lin.
    + now apply IH.
Qed.

(** The value [inverse] returns for the [j]-th denominator. *)
Definition inv_den (j : N) : N :=
  match inverse P (snd (num_den m P gf k j)) with
  | Ok v => v
  | Raise _ => 0
  end.

Lemma not_cong_1_0 : ~ cong P 1 0.
Proof.
  intros H. apply cong_0_divides, divides_1 in H.
  destruct irreducible_P as [Hs _]. rewrite H in Hs. simpl in Hs. lia.
Qed.

Lemma den_nonzero j : j < k -> snd (num_den m P gf k j) <> 0.
Proof.
  intros Hj E.
  destruct (num_den_spec j) as (_ & _ & _ & Hd). rewrite E in Hd.
  apply (prodU_unit (range k) j Hj) with (acc := 1).
  - intros mm. apply In_range.
  - apply not_cong_1_0.
  - now apply cong_sym.
Qed.

Lemma inv_den_spec j : j < k ->
  inverse P (snd (num_den m P gf k j)) = Ok (inv_den j) /\
  reduced (inv_den j) /\
  cong P (clmul (prodU (range k) j (xs j) 1) (inv_den j)) 1.
Proof.
  intros Hj.
  destruct (num_den_spec j) as (_ & Hdr & _ & Hd).
  destruct (inverse_spec m P size_P irreducible_P _ (den_nonzero j Hj) Hdr)
    as (v & Ev & Hv & Hmul).
  unfold inv_den. rewrite Ev. split; [reflexivity|split; [assumption|]].
  eapply cong_trans; [apply cong_clmul; [apply cong_sym; exact Hd|apply cong_refl]|].
  rewrite <- Hmul. apply cong_sym. now apply (mul_cong m P size_P).
Qed.

Definition termU (j t : N) : N :=
  clmul (clmul (ys j) (prodU (range k) j t 1)) (inv_den j).

Definition Esum (L : list N) (t : N) : N :=
  fold_right (fun j acc => N.lxor (termU j t) acc) 0 L.

Lemma interpolate_loop L : (forall j, In j L -> j < k) ->
  forall acc a, reduced acc -> cong P acc a ->
  exists R,
    fold_left
      (fun acc j =>
         result <- acc ;;
         let y_j := snd (gf_share gf j) in
         let nd := num_den m P gf k j in
         inv <- inverse P (snd nd) ;;
         Ok (__add__ result (mul (mul y_j (fst nd)) inv)))
      L (Ok acc) = Ok R /\
    reduced R /\ cong P R (N.lxor a (Esum L 0)).
Proof.
  induction L as [|j L IH]; intros HL acc a Hacc Ha.
  - exists acc. cbn [fold_left Esum fold_right]. rewrite N.lxor_0_r. auto.
  - cbn [fold_left bind]. cbv zeta.
    assert (Hj : j < k) by (apply HL; now left).
    destruct (inv_den_spec j Hj) as (Einv & Hinv & _).
    destruct (num_den_spec j) as (Hn & _ & Hnc & _).
    destruct (gf_share_reduced j) as [_ Hy].
    rewrite Einv. cbn [bind].
    set (term := mul (mul (snd (gf_share gf j)) (fst (num_den m P gf k j))) (inv_den j)).
    assert (Hterm : reduced term).
    { apply (mul_lt m P size_P); [apply (mul_lt m P size_P)|]; assumption. }
    assert (Htc : cong P term (termU j 0)).
    { unfold term, termU.
      eapply cong_trans;
        [apply (mul_cong m P size_P); [now apply (mul_lt m P size_P)|assumption]|].
      apply cong_clmul; [|apply cong_refl].
      eapply cong_trans; [now apply (mul_cong m P size_P)|].
      apply cong_clmul; [apply cong_refl|assumption]. }
    destruct (IH (fun j' H => HL j' (or_intror H))
                 (__add__ acc term) (N.lxor a (termU j 0)))
      as (R & ER & HR & HRc).
    + now apply (add_lt m).
    + now apply cong_lxor.
    + exists R. split; [exact ER|split; [exact HR|]].
      cbn [Esum fold_right]. fold (Esum L 0).
      now rewrite N.lxor_assoc in HRc.
Qed.

Lemma termU_PF j : j < k -> PF (length gf) (fun t => termU j t).
Proof.
  intros Hj. unfold termU.
  apply PF_ext with
    (f := fun t => clmul (prodU (range k) j t 1) (clmul (ys j) (inv_den j)));
    [intros t; ring|].
  apply PF_scale.
  eapply PF_weaken; [|apply (prodU_PF (range k) j 1 (fun _ => 1)), PF_const].
  pose proof (count_ne (range k) j (proj2 (In_range k j) Hj)) as Hc.
  unfold range in Hc at 2. rewrite length_map, length_seq in Hc.
  unfold k in Hc at 2. rewrite Nat2N.id in Hc. lia.
Qed.

Lemma Esum_PF L : (forall j, In j L -> j < k) -> PF (length gf) (Esum L).
Proof.
  induction L as [|j L IH]; intros HL.
  - apply PF_zero.
  - apply PF_ext with (f := fun t => N.lxor (termU j t) (Esum L t));
      [reflexivity|].
    apply PF_add; [apply termU_PF, HL; now left|].
    apply IH. intros; apply HL; now right.
Qed.

Lemma termU_self i : i < k -> cong P (termU i (xs i)) (ys i).
Proof.
  intros Hi. destruct (inv_den_spec i Hi) as (_ & _ & H).
  unfold termU. rewrite clmul_assoc.
  rewrite <- (clmul_1_r (ys i)) at 2.
  apply cong_clmul; [apply cong_refl|exact H].
Qed.

Lemma termU_other i j : i < k -> i <> j -> termU j (xs i) = 0.
Proof.
  intros Hi Hne. unfold termU.
  rewrite prodU_vanish; [|now apply In_range|assumption].
  now rewrite clmul_0_r, clmul_0_l.
Qed.

Lemma Esum_at L i : i < k -> NoDup L ->
  (In i L -> cong P (Esum L (xs i)) (ys i)) /\
  (~ In i L -> Esum L (xs i) = 0).
Proof.
  intros Hi. induction 1 as [|j L Hj HL IH]; cbn [Esum fold_right].
  - split; [intros []|reflexivity].
  - fold (Esum L (xs i)). destruct IH as [IH1 IH2]. split.
    + intros [->|Hin].
      * rewrite (IH2 Hj), N.lxor_0_r. now apply termU_self.
      * assert (i <> j) by (intros ->; contradiction).
        rewrite termU_other, N.lxor_0_l by assumption. now apply IH1.
    + intros Hn.
      assert (i <> j) by (intros ->; apply Hn; now left).
      rewrite termU_other, N.lxor_0_l by assumption.
      apply IH2. intros H'. apply Hn. now right.
Qed.

Lemma distinct_not_cong (l : list N) :
  NoDup l -> Forall reduced l ->
  ForallOrdPairs (fun a b => ~ cong P a b) l.
Proof.
  induction 1 as [|a l Ha Hl IH]; intros Hr; constructor.
  - inversion Hr as [|? ? Hra Hrl]; subst.
    rewrite Forall_forall in *. intros b Hb Hc.
    apply Ha. replace a with b; [assumption|].
    symmetry. apply (reduced_eq m P size_P); auto.
  - apply IH. now inversion Hr.
Qed.

Lemma hd_rev_last (l : list N) : hd 0 (List.rev l) = last l 0.
Proof.
  induction l as [|c l _] using rev_ind; [reflexivity|].
  now rewrite rev_app_distr, last_last.
Qed.

(** Interpolating at zero the values of a polynomial with at most as many
    coefficients as there are points returns its constant term, the last
    coefficient in the order of [make_share]. *)
Theorem interpolate_horner cs :
  Forall reduced cs -> (length cs <= length gf)%nat ->
  (forall j, j < k -> ys j = horner (xs j) cs) ->
  interpolate m P gf k = Ok (last cs 0).
Proof.
  intros Hcs Hlen Hval.
  destruct (interpolate_loop (range k) (fun j => proj1 (In_range k j)) 0 0
              zero_reduced (cong_refl P 0)) as (R & ER & HR & HRc).
  transitivity (Ok R); [exact ER|]. f_equal.
  rewrite N.lxor_0_l in HRc.
  assert (HPF : PF (length gf)
                   (fun t => N.lxor (ev (List.rev cs) t) (Esum (range k) t))).
  { apply PF_add; [|apply Esum_PF; intros j; apply In_range].
    exists (List.rev cs). split; [now rewrite length_rev|reflexivity]. }
  destruct HPF as (l & Hl & El).
  assert (Hvan : cong P (ev l 0) 0).
  { apply (vanish P irreducible_P (map fst gf)).
    - now rewrite length_map.
    - apply distinct_not_cong; [assumption|].
      rewrite Forall_map. eapply Forall_impl; [|exact gf_reduced].
      intros p Hp. apply Hp.
    - intros a Ha. apply in_map_iff in Ha. destruct Ha as (p & <- & Hp).
      destruct (In_nth gf p (0, 0) Hp) as (i & Hi & Ei).
      assert (Hik : N.of_nat i < k) by (unfold k; lia).
      assert (Ex : fst p = xs (N.of_nat i)).
      { unfold xs, gf_share. now rewrite Nat2N.id, Ei. }
      rewrite Ex, <- El.
      replace 0 with (N.lxor (ys (N.of_nat i)) (ys (N.of_nat i)))
        by apply N.lxor_nilpotent.
      apply cong_lxor.
      + rewrite (Hval _ Hik). apply cong_sym, horner_spec; [|assumption].
        apply gf_share_reduced.
      + apply (Esum_at (range k) _ Hik (NoDup_range k)). now apply In_range. }
  rewrite <- El in Hvan.
  apply (reduced_eq m P size_P); [|assumption|].
  - eapply cong_trans; [exact HRc|].
    rewrite <- hd_rev_last, <- ev_0.
    apply cong_sym. unfold cong in *. now rewrite N.lxor_0_r in Hvan.
  - destruct cs as [|c cs] using rev_ind; [apply zero_reduced|].
    rewrite last_last. apply Forall_app in Hcs. destruct Hcs as [_ Hc].
    now inversion Hc.
Qed.

End Lagrange.

(** ** What [split] and [combine] return *)

Section Protocol.
Import GF2 Poly _Element Shamir.

Variable wordlist_t : Type.
Variable WORDLIST : wordlist_t.
Variable mnemonic_to_bytes : string -> wordlist_t -> result (list byte).
Variable mnemonic_from_bytes : list byte -> string.
Variable pbkdf2_hmac : string -> list byte -> list byte -> N -> N -> list byte.

Local Abbreviation split :=
  (Shamir.split wordlist_t WORDLIST mnemonic_to_bytes mnemonic_from_bytes
                pbkdf2_hmac).
Local Abbreviation combine :=
  (Shamir.combine wordlist_t mnemonic_to_bytes mnemonic_from_bytes).
Local Abbreviation make_share := (Shamir.make_share mnemonic_from_bytes).
Local Abbreviation mnemonic_to_shares :=
  (Shamir.mnemonic_to_shares wordlist_t mnemonic_to_bytes pbkdf2_hmac).

(** [hashlib.pbkdf2_hmac] returns [dklen] bytes. *)
Definition pbkdf2_length : Prop :=
  forall h pw salt rounds dklen,
    N.of_nat (length (pbkdf2_hmac h pw salt rounds dklen)) = dklen.

Lemma mapM_ok {A B : Type} (f : A -> result B) (g : A -> B) l :
  (forall a, In a l -> f a = Ok (g a)) -> mapM f l = Ok (map g l).
Proof.
  induction l as [|a l IH]; intros H; cbn [mapM map]; [reflexivity|].
  rewrite (H a (or_introl eq_refl)). cbn [bind].
  rewrite IH by (intros; apply H; now right). reflexivity.
Qed.

Lemma mapM_getitem_app {A B : Type} (f : A -> result B) (suf : list A) :
  forall pre,
    mapM (fun i => b <- getitem (pre ++ suf) i ;; f b)
         (map N.of_nat (seq (length pre) (length suf)))
    = mapM f suf.
Proof.
  induction suf as [|a suf IH]; intros pre; [reflexivity|].
  cbn [length seq map mapM].
  unfold getitem at 1. rewrite Nat2N.id, nth_error_app2, Nat.sub_diag by lia.
  cbn [nth_error bind].
  specialize (IH (pre ++ [a])).
  rewrite <- app_assoc, length_app, Nat.add_1_r in IH. cbn [app] in IH.
  now rewrite IH.
Qed.

Lemma mapM_getitem {A B : Type} (f : A -> result B) (l : list A) :
  mapM (fun i => b <- getitem l i ;; f b) (range (N.of_nat (length l)))
  = mapM f l.
Proof.
  unfold range. rewrite Nat2N.id. apply (mapM_getitem_app f l []).
Qed.

(** The byte strings [mnemonic_to_shares] returns, and the coefficients
    [split] makes of them. *)
Definition coeffs_bytes (secret : string) (k : N) (secret_bytes : list byte)
  : list (list byte) :=
  map (fun i =>
         pbkdf2_hmac "sha512" (utf8 secret)
           (utf8 ("mnemonic" ++
                  ("shamir" ++ str i ++ " number of shares " ++ str k))%string)
           PBKDF2_ROUNDS (N.of_nat (length secret_bytes)))
      (range (k - 1))
  ++ [secret_bytes].

Definition coefficients (secret : string) (k : N) (secret_bytes : list byte)
  : list N :=
  map int_from_bytes (coeffs_bytes secret k secret_bytes).

Lemma length_range k : length (range k) = N.to_nat k.
Proof. unfold range. now rewrite length_map, length_seq. Qed.

Lemma length_range1 n : length (range1 n) = N.to_nat n.
Proof. unfold range1. now rewrite length_map, length_seq. Qed.

Lemma length_coeffs_bytes secret k sb :
  1 <= k -> length (coeffs_bytes secret k sb) = N.to_nat k.
Proof.
  intros Hk. unfold coeffs_bytes.
  rewrite length_app, length_map, length_range. cbn [length]. lia.
Qed.

Lemma length_coefficients secret k sb :
  1 <= k -> length (coefficients secret k sb) = N.to_nat k.
Proof. intros Hk. unfold coefficients. rewrite length_map. now apply length_coeffs_bytes. Qed.

Lemma last_coefficients secret k sb :
  last (coefficients secret k sb) 0 = int_from_bytes sb.
Proof.
  unfold coefficients, coeffs_bytes. rewrite map_app. cbn [map].
  apply last_last.
Qed.

Lemma coeffs_bytes_width secret k sb b :
  pbkdf2_length -> In b (coeffs_bytes secret k sb) ->
  N.of_nat (length b) = N.of_nat (length sb).
Proof.
  intros Hlen Hb. unfold coeffs_bytes in Hb. apply in_app_or in Hb.
  destruct Hb as [Hb|[<-|[]]]; [|reflexivity].
  apply in_map_iff in Hb. destruct Hb as (i & <- & _). apply Hlen.
Qed.

Lemma getitem_last_app {A : Type} (l : list A) (a : A) :
  getitem_last (l ++ [a]) = Ok a.
Proof. unfold getitem_last. now rewrite rev_app_distr. Qed.

Lemma setitem_last_repeat {A : Type} (a v : A) n :
  setitem_last (repeat a (S n)) v = Ok (repeat a n ++ [v]).
Proof.
  change (repeat a (S n)) with (a :: repeat a n). rewrite repeat_cons.
  unfold setitem_last.
  destruct (repeat a n ++ [a]) as [|x l] eqn:E.
  - now destruct (repeat a n).
  - rewrite <- E. now rewrite removelast_last.
Qed.

Lemma setitem_app {A : Type} (pre : list A) (x v : A) (rest : list A) :
  setitem (pre ++ x :: rest) (N.of_nat (length pre)) v = Ok (pre ++ v :: rest).
Proof.
  unfold setitem. rewrite length_app. cbn [length].
  destruct (N.ltb_spec (N.of_nat (length pre))
              (N.of_nat (length pre + S (length rest)))) as [_|H]; [|lia].
  rewrite Nat2N.id.
  rewrite firstn_app, Nat.sub_diag, firstn_all, app_nil_r. cbn [firstn].
  rewrite skipn_app, skipn_all2 by lia.
  replace (S (length pre) - length pre)%nat with 1%nat by lia.
  reflexivity.
Qed.

(** The loop of [mnemonic_to_shares] once the last entry holds the decoded
    secret: it fills the entries before it, in order. *)
Lemma mnemonic_to_shares_loop (f : N -> N -> list byte) (sb : list byte) len :
  forall s (pre : list (option (list byte))),
    length pre = s ->
    fold_left
      (fun acc i =>
         rnd_bytes <- acc ;;
         last <- getitem_last rnd_bytes ;;
         dklen <- len_entry last ;;
         setitem rnd_bytes i (Some (f i dklen)))
      (map N.of_nat (seq s len))
      (Ok (pre ++ repeat None len ++ [Some sb]))
    = Ok (pre
          ++ map (fun i => Some (f i (N.of_nat (length sb))))
                 (map N.of_nat (seq s len))
          ++ [Some sb]).
Proof.
  induction len as [|len IH]; intros s pre Hpre; [reflexivity|].
  cbn [seq map fold_left repeat app bind].
  replace (pre ++ None :: repeat None len ++ [Some sb])
    with ((pre ++ None :: repeat None len) ++ [Some sb])
    by (now rewrite <- app_assoc).
  rewrite getitem_last_app. cbn [bind len_entry].
  rewrite <- app_assoc. cbn [app]. rewrite <- Hpre, setitem_app.
  replace (pre ++ Some (f (N.of_nat (length pre)) (N.of_nat (length sb)))
               :: repeat None len ++ [Some sb])
    with ((pre ++ [Some (f (N.of_nat (length pre)) (N.of_nat (length sb)))])
            ++ repeat None len ++ [Some sb])
    by (now rewrite <- app_assoc).
  rewrite (IH (S (length pre))).
  - now rewrite <- app_assoc.
  - rewrite length_app. cbn [length]. lia.
Qed.

Lemma mnemonic_to_shares_ok secret k sb :
  mnemonic_to_bytes secret WORDLIST = Ok sb -> 1 <= k ->
  mnemonic_to_shares secret k (Some WORDLIST)
  = Ok (map Some (coeffs_bytes secret k sb)).
Proof.
  intros Hdec Hk. unfold Shamir.mnemonic_to_shares. cbv zeta.
  rewrite Hdec. cbn [bind].
  replace (N.to_nat k) with (S (N.to_nat (k - 1))) by lia.
  rewrite setitem_last_repeat. cbn [bind]. unfold range.
  etransitivity.
  - exact (mnemonic_to_shares_loop
             (fun i dklen =>
                pbkdf2_hmac "sha512" (utf8 secret)
                  (utf8 ("mnemonic" ++
                         ("shamir" ++ str i ++ " number of shares " ++ str k))%string)
                  PBKDF2_ROUNDS dklen)
             sb (N.to_nat (k - 1)) 0%nat [] eq_refl).
  - cbn [app]. unfold coeffs_bytes, range.
    rewrite map_app, !map_map. reflexivity.
Qed.

Lemma mapM_map {A B C : Type} (g : A -> B) (f : B -> result C) l :
  mapM f (map g l) = mapM (fun a => f (g a)) l.
Proof.
  induction l as [|a l IH]; [reflexivity|]. cbn [map mapM]. now rewrite IH.
Qed.

Section Width.

Variables (m P : N).
Hypothesis m_bytes : m mod 8 = 0.

Local Abbreviation reduced := (fun a : N => a < 2 ^ m).

(** The bytes [encode] gives for a reduced element. *)
Definition enc (v : N) : list byte :=
  List.rev (bytes_le (N.to_nat (m / 8)) v).

Lemma horner_lt_any x cs : Forall reduced cs -> reduced (horner m P x cs).
Proof.
  intros Hcs. induction cs as [|c cs IH] using rev_ind.
  - cbn. pose proof (N.pow_nonzero 2 m). lia.
  - apply Forall_app in Hcs. destruct Hcs as [Hcs Hc]. inversion Hc; subst.
    rewrite horner_snoc. apply (add_lt m); [apply __mul___lt_any|assumption].
Qed.

Lemma make_share_ok user cs :
  Forall reduced cs ->
  make_share m P user cs = Ok (mnemonic_from_bytes (enc (horner m P user cs))).
Proof.
  intros Hcs. unfold Shamir.make_share. cbn [__init__ bind].
  fold (horner m P user cs).
  rewrite (encode_ok m m_bytes) by (now apply horner_lt_any).
  reflexivity.
Qed.

Lemma coefficients_reduced secret k sb :
  pbkdf2_length -> N.of_nat (length sb) = m / 8 ->
  Forall reduced (coefficients secret k sb).
Proof.
  intros Hlen Hsb. unfold coefficients. rewrite Forall_map, Forall_forall.
  intros b Hb. rewrite <- (pow256 m m_bytes), <- Hsb.
  rewrite <- (coeffs_bytes_width secret k sb b Hlen Hb).
  apply int_from_bytes_lt.
Qed.

End Width.

(** The state [set_field_size] leaves. *)
Lemma set_field_size_ok fs P st :
  dict_get fs irr_poly_table = Some P ->
  set_field_size fs st
  = (Ok tt, {| cls_field_size := Some fs; cls_irr_poly := Some P |}).
Proof. intros H. unfold set_field_size. now rewrite H. Qed.

Lemma set_field_size_unsupported fs st :
  dict_get fs irr_poly_table = None ->
  set_field_size fs st
  = (Raise KeyError,
     {| cls_field_size := Some fs; cls_irr_poly := cls_irr_poly st |}).
Proof. intros H. unfold set_field_size. now rewrite H. Qed.

Lemma width_of_bytes (sb : list byte) :
  let m := N.of_nat (length sb) * 8 in
  m mod 8 = 0 /\ N.of_nat (length sb) = m / 8.
Proof.
  cbv zeta. split.
  - apply N.Div0.mod_mul.
  - now rewrite N.div_mul by lia.
Qed.

Theorem split_spec k n secret st sb P :
  pbkdf2_length ->
  mnemonic_to_bytes secret WORDLIST = Ok sb ->
  let m := N.of_nat (length sb) * 8 in
  dict_get m irr_poly_table = Some P ->
  1 <= k ->
  split k n secret st
  = (Ok (map (fun i =>
                (i, mnemonic_from_bytes
                      (enc m (horner m P i (coefficients secret k sb)))))
             (range1 n)),
     {| cls_field_size := Some m; cls_irr_poly := Some P |}).
Proof.
  intros Hlen Hdec m Hdict Hk.
  destruct (width_of_bytes sb) as [Hm8 Hw]. fold m in Hm8, Hw.
  unfold Shamir.split. rewrite Hdec. fold m.
  rewrite (set_field_size_ok m P st Hdict).
  cbn [cls_field_size cls_irr_poly]. f_equal.
  rewrite (mnemonic_to_shares_ok secret k sb Hdec Hk). cbn [bind].
  replace k with (N.of_nat (length (map Some (coeffs_bytes secret k sb)))) at 1
    by (rewrite length_map, length_coeffs_bytes by assumption; apply N2Nat.id).
  rewrite (mapM_getitem
             (fun e : option (list byte) =>
                match e with
                | Some b => __init__ m (EBytes b)
                | None => Raise TypeError
                end)).
  rewrite mapM_map.
  rewrite (mapM_ok _ int_from_bytes).
  2:{ intros b Hb. apply init_bytes_ok.
      now rewrite (coeffs_bytes_width secret k sb b Hlen Hb). }
  cbn [bind]. fold (coefficients secret k sb).
  apply mapM_ok. intros i _.
  rewrite (make_share_ok m P Hm8); [reflexivity|].
  now apply coefficients_reduced.
Qed.

(** *** [combine]: decoding, duplicate check, interpolation *)

(** The list comprehension that decodes the payloads. *)
Definition decode_shares (wordlist : wordlist_t) (shares : list (N * string))
  : result (list (N * list byte)) :=
  mapM (fun val =>
          b <- mnemonic_to_bytes (snd val) wordlist ;;
          Ok (fst val, b)) shares.

(** The loop of [gf_shares_of] when every payload has the field width. *)
Fixpoint gf_ref (acc : list (N * N)) (l : list (N * list byte))
  : result (list (N * N)) :=
  match l with
  | [] => Ok acc
  | x :: l' =>
      if existsb (fun y => fst y =? fst x) acc
      then Raise ValueError_duplicate_share
      else gf_ref (acc ++ [(fst x, int_from_bytes (snd x))]) l'
  end.

Definition gf_pair (x : N * list byte) : N * N :=
  (fst x, int_from_bytes (snd x)).

Lemma gf_fold_raise fs l e :
  fold_left
    (fun acc x =>
       gf_shares <- acc ;;
       idx <- __init__ fs (EInt (fst x)) ;;
       value <- __init__ fs (EBytes (snd x)) ;;
       if existsb (fun y => __eq__ (fst y) idx) gf_shares
       then Raise ValueError_duplicate_share
       else Ok (gf_shares ++ [(idx, value)]))
    l (Raise e) = Raise e.
Proof. induction l as [|x l IH]; [reflexivity|exact IH]. Qed.

Lemma gf_fold_ref fs l : forall acc,
  (forall x, In x l -> N.of_nat (length (snd x)) = fs / 8) ->
  fold_left
    (fun acc x =>
       gf_shares <- acc ;;
       idx <- __init__ fs (EInt (fst x)) ;;
       value <- __init__ fs (EBytes (snd x)) ;;
       if existsb (fun y => __eq__ (fst y) idx) gf_shares
       then Raise ValueError_duplicate_share
       else Ok (gf_shares ++ [(idx, value)]))
    l (Ok acc) = gf_ref acc l.
Proof.
  induction l as [|x l IH]; intros acc Hw; [reflexivity|].
  cbn [fold_left gf_ref bind __init__].
  rewrite (Hw x (or_introl eq_refl)), N.eqb_refl. cbn [bind].
  unfold __eq__.
  destruct (existsb (fun y => fst y =? fst x) acc).
  - apply gf_fold_raise.
  - apply IH. intros; apply Hw; now right.
Qed.

Lemma gf_shares_of_ref fs l :
  (forall x, In x l -> N.of_nat (length (snd x)) = fs / 8) ->
  gf_shares_of fs l = gf_ref [] l.
Proof. apply gf_fold_ref. Qed.

Lemma existsb_index (acc : list (N * N)) i :
  existsb (fun y => fst y =? i) acc = true <-> In i (map fst acc).
Proof.
  rewrite existsb_exists, in_map_iff. split.
  - intros (y & Hy & E). apply N.eqb_eq in E. now exists y.
  - intros (y & E & Hy). exists y. split; [assumption|now apply N.eqb_eq].
Qed.

Lemma gf_ref_ok l : forall acc,
  NoDup (map fst acc ++ map fst l) -> gf_ref acc l = Ok (acc ++ map gf_pair l).
Proof.
  induction l as [|x l IH]; intros acc Hnd; cbn [gf_ref map].
  - now rewrite app_nil_r.
  - cbn [map] in Hnd.
    destruct (existsb (fun y => fst y =? fst x) acc) eqn:E.
    + exfalso. apply existsb_index in E.
      apply NoDup_remove_2 in Hnd. apply Hnd, in_or_app. now left.
    + rewrite IH.
      * rewrite <- app_assoc. reflexivity.
      * rewrite map_app, <- app_assoc. exact Hnd.
Qed.

Lemma gf_ref_dup l : forall acc,
  NoDup (map fst acc) -> ~ NoDup (map fst acc ++ map fst l) ->
  gf_ref acc l = Raise ValueError_duplicate_share.
Proof.
  induction l as [|x l IH]; intros acc Hacc Hnd; cbn [gf_ref].
  - exfalso. apply Hnd. cbn [map]. now rewrite app_nil_r.
  - destruct (existsb (fun y => fst y =? fst x) acc) eqn:E; [reflexivity|].
    assert (Hx : ~ In (fst x) (map fst acc)).
    { intros H. apply existsb_index in H. congruence. }
    apply IH.
    + rewrite map_app. apply NoDup_app; [assumption|repeat constructor; intros []|].
      intros a Ha [<-|[]]. contradiction.
    + rewrite map_app, <- app_assoc. exact Hnd.
Qed.

(** [combine] once the payloads are decoded and the first one selects a
    supported field. *)
Lemma combine_unfold shares wordlist st decoded first rest P :
  decode_shares wordlist shares = Ok decoded ->
  decoded = first :: rest ->
  let m := N.of_nat (length (snd first)) * 8 in
  dict_get m irr_poly_table = Some P ->
  combine shares wordlist st
  = (gf_shares <- gf_shares_of m decoded ;;
     result <- interpolate m P gf_shares (N.of_nat (length decoded)) ;;
     b <- encode m result ;;
     Ok (mnemonic_from_bytes b),
     {| cls_field_size := Some m; cls_irr_poly := Some P |}).
Proof.
  intros Hdec -> m Hdict. unfold Shamir.combine.
  unfold decode_shares in Hdec. rewrite Hdec. fold m.
  rewrite (set_field_size_ok m P st Hdict). reflexivity.
Qed.

(** *** Shares of one polynomial *)

Lemma length_enc m v : N.of_nat (length (enc m v)) = m / 8.
Proof. unfold enc. rewrite length_rev, length_bytes_le. apply N2Nat.id. Qed.

Lemma from_bytes_enc m v :
  m mod 8 = 0 -> v < 2 ^ m -> int_from_bytes (enc m v) = v.
Proof.
  intros Hm Hv. unfold enc. rewrite from_bytes_le, N2Nat.id, (pow256 m Hm).
  now apply N.mod_small.
Qed.

Lemma enc_from_bytes m b :
  m mod 8 = 0 -> N.of_nat (length b) = m / 8 -> enc m (int_from_bytes b) = b.
Proof.
  intros Hm Hb. unfold enc.
  rewrite <- Hb, Nat2N.id, bytes_le_from_bytes. apply rev_involutive.
Qed.

Lemma width_mul8 m : m mod 8 = 0 -> m / 8 * 8 = m.
Proof. intros Hm. pose proof (N.div_mod m 8 ltac:(lia)). lia. Qed.

(** [combine] on shares that are values of one polynomial with
    coefficients [cs], at pairwise distinct reduced indices, returns the
    encoding of the last coefficient. *)
Lemma combine_polynomial m P cs S wordlist st :
  dict_get m irr_poly_table = Some P ->
  Forall (fun a => a < 2 ^ m) cs ->
  (length cs <= length S)%nat -> S <> [] ->
  NoDup (map fst S) ->
  (forall x, In x S ->
     fst x < 2 ^ m /\
     mnemonic_to_bytes (snd x) wordlist = Ok (enc m (horner m P (fst x) cs))) ->
  fst (combine S wordlist st) = Ok (mnemonic_from_bytes (enc m (last cs 0))).
Proof.
  intros Hdict Hcs Hlen Hne Hnd HS.
  destruct (table_entry m P Hdict) as (HsP & Hirr & _ & Hm8).
  set (g := fun x : N * string => (fst x, enc m (horner m P (fst x) cs))).
  assert (Hdec : decode_shares wordlist S = Ok (map g S)).
  { unfold decode_shares. apply mapM_ok. intros a Ha.
    destruct (HS a Ha) as [_ E]. now rewrite E. }
  destruct S as [|a S']; [contradiction|].
  assert (Hw : N.of_nat (length (snd (g a))) * 8 = m).
  { unfold g. cbn [snd]. rewrite length_enc. now apply width_mul8. }
  pose proof (combine_unfold (a :: S') wordlist st (map g (a :: S'))
                (g a) (map g S') P Hdec eq_refl) as Hc.
  cbv zeta in Hc. rewrite Hw in Hc. specialize (Hc Hdict).
  rewrite Hc. cbn [fst]. clear Hc.
  set (S := a :: S') in *.
  rewrite gf_shares_of_ref.
  2:{ intros x Hx. apply in_map_iff in Hx. destruct Hx as (y & <- & _).
      unfold g. cbn [snd]. apply length_enc. }
  rewrite gf_ref_ok.
  2:{ cbn [map app]. rewrite map_map. exact Hnd. }
  cbn [app bind].
  set (h := fun x : N * string => (fst x, horner m P (fst x) cs)).
  assert (Egf : map gf_pair (map g S) = map h S).
  { rewrite map_map. apply map_ext. intros x. unfold gf_pair, g, h. cbn [fst snd].
    f_equal. apply from_bytes_enc; [assumption|]. now apply horner_lt_any. }
  rewrite Egf.
  replace (length (map g S)) with (length (map h S)) by now rewrite !length_map.
  rewrite (interpolate_horner m P HsP Hirr (map h S)) with (cs := cs).
  - cbn [bind]. rewrite (encode_ok m Hm8); [reflexivity|].
    destruct cs as [|c cs'] using rev_ind.
    + cbn. pose proof (N.pow_nonzero 2 m). lia.
    + rewrite last_last. apply Forall_app in Hcs. destruct Hcs as [_ Hc].
      now inversion Hc.
  - rewrite Forall_map, Forall_forall. intros x Hx. unfold h. cbn [fst snd].
    split; [apply HS, Hx|now apply horner_lt_any].
  - rewrite map_map. exact Hnd.
  - exact Hcs.
  - now rewrite length_map.
  - intros j Hj. unfold gf_share.
    assert (Hin : In (nth (N.to_nat j) (map h S) (0, 0)) (map h S))
      by (apply nth_In; lia).
    apply in_map_iff in Hin. destruct Hin as (x & <- & _). reflexivity.
Qed.

(** The codec contract: [mnemonic_from_bytes] and [mnemonic_to_bytes] are
    inverse of each other on byte strings of a supported width. *)
Definition codec_decode_encode : Prop :=
  forall b, supported (N.of_nat (length b) * 8) ->
    mnemonic_to_bytes (mnemonic_from_bytes b) WORDLIST = Ok b.

Definition codec_encode_decode : Prop :=
  forall s b, mnemonic_to_bytes s WORDLIST = Ok b -> mnemonic_from_bytes b = s.

Lemma In_range1 n i : In i (range1 n) <-> 1 <= i <= n.
Proof.
  unfold range1. rewrite in_map_iff. split.
  - intros (j & <- & Hj). apply in_seq in Hj. lia.
  - intros Hi. exists (N.to_nat i). split; [apply N2Nat.id|]. apply in_seq. lia.
Qed.

(** C1.  For every secret whose byte length times 8 is a supported field
    size, every [2 <= k <= n] (with [n] below the number of field
    elements, as every list length is), [split k n secret] returns [n]
    shares, indexed [1 .. n], and for every set [S] of [k] of them
    [combine S] returns the secret.  Of the codec it takes that decoding
    inverts encoding on the supported widths and that the secret is the
    text that encodes its bytes. *)
Theorem split_combine_round_trip k n secret sb st :
  pbkdf2_length -> codec_decode_encode ->
  mnemonic_to_bytes secret WORDLIST = Ok sb ->
  mnemonic_from_bytes sb = secret ->
  supported (N.of_nat (length sb) * 8) ->
  2 <= k -> k <= n -> n < 2 ^ (N.of_nat (length sb) * 8) ->
  exists shares,
    fst (split k n secret st) = Ok shares /\
    N.of_nat (length shares) = n /\
    map fst shares = range1 n /\
    forall S st',
      NoDup S -> incl S shares -> N.of_nat (length S) = k ->
      fst (combine S WORDLIST st') = Ok secret.
Proof.
  intros Hlen Hde Hdec Hfrom Hsup Hk Hkn Hn.
  set (m := N.of_nat (length sb) * 8) in *.
  destruct (proj1 (dict_get_supported m) Hsup) as [P Hdict].
  destruct (table_entry m P Hdict) as (HsP & Hirr & _ & Hm8).
  destruct (width_of_bytes sb) as [_ Hw]. fold m in Hw.
  set (cs := coefficients secret k sb).
  set (F := fun i => (i, mnemonic_from_bytes (enc m (horner m P i cs)))).
  exists (map F (range1 n)). split.
  { rewrite (split_spec k n secret st sb P Hlen Hdec Hdict) by lia. reflexivity. }
  split; [rewrite length_map, length_range1; apply N2Nat.id|].
  split; [rewrite map_map; apply map_id|].
  intros S st' HndS Hincl HlenS.
  assert (HS : forall x, In x S -> x = F (fst x) /\ 1 <= fst x <= n).
  { intros x Hx. apply Hincl, in_map_iff in Hx.
    destruct Hx as (i & <- & Hi). apply In_range1 in Hi. auto. }
  assert (Hcsr : Forall (fun a => a < 2 ^ m) cs)
    by (now apply (coefficients_reduced m Hm8)).
  rewrite (combine_polynomial m P cs S WORDLIST st' Hdict Hcsr).
  - unfold cs. rewrite last_coefficients, (enc_from_bytes m sb Hm8 Hw).
    f_equal. exact Hfrom.
  - unfold cs. rewrite length_coefficients by lia. lia.
  - intros ->. cbn in HlenS. lia.
  - apply NoDup_map_NoDup_ForallPairs; [|assumption].
    intros a b Ha Hb E.
    rewrite (proj1 (HS a Ha)), (proj1 (HS b Hb)). now rewrite E.
  - intros x Hx. destruct (HS x Hx) as [Ex Hi]. split; [lia|].
    rewrite Ex at 1. unfold F. cbn [snd]. apply Hde.
    rewrite length_enc, (width_mul8 m Hm8). exact Hsup.
Qed.

(** Horner's rule as the specification words it: the accumulator starts
    at zero and becomes accumulator times index plus coefficient. *)
Definition horner_rule (m P index : N) (coeffs : list N) : N :=
  fold_left (fun accumulator coefficient =>
               __add__ (__mul__ m P accumulator index) coefficient)
            coeffs 0.

Lemma horner_rule_make_share m P i cs : horner m P i cs = horner_rule m P i cs.
Proof.
  unfold horner, horner_rule. generalize 0 as acc.
  induction cs as [|c cs IH]; intros acc; [reflexivity|].
  cbn [fold_left]. rewrite (mul_comm m P i acc). apply IH.
Qed.

(** C2.  For a supported secret and a threshold [k >= 1], [split] returns
    [n] pairs whose indices are [1 .. n] in order, and the share at index
    [i] is the encoding of the Horner evaluation at [i] of the [k] derived
    coefficients. *)
Theorem split_shares_horner k n secret sb st :
  pbkdf2_length ->
  mnemonic_to_bytes secret WORDLIST = Ok sb ->
  supported (N.of_nat (length sb) * 8) ->
  1 <= k ->
  let m := N.of_nat (length sb) * 8 in
  let coeffs := coefficients secret k sb in
  exists P shares,
    dict_get m irr_poly_table = Some P /\
    fst (split k n secret st) = Ok shares /\
    N.of_nat (length shares) = n /\
    map fst shares = range1 n /\
    N.of_nat (length coeffs) = k /\
    forall i s, In (i, s) shares ->
      exists b,
        encode m (horner_rule m P i coeffs) = Ok b /\
        s = mnemonic_from_bytes b.
Proof.
  intros Hlen Hdec Hsup Hk m coeffs.
  destruct (proj1 (dict_get_supported m) Hsup) as [P Hdict].
  destruct (table_entry m P Hdict) as (_ & _ & _ & Hm8).
  destruct (width_of_bytes sb) as [_ Hw]. fold m in Hw.
  exists P. eexists. split; [exact Hdict|]. split.
  { rewrite (split_spec k n secret st sb P Hlen Hdec Hdict Hk). reflexivity. }
  split; [rewrite length_map, length_range1; apply N2Nat.id|].
  split; [rewrite map_map; apply map_id|].
  split; [unfold coeffs; rewrite length_coefficients by assumption; apply N2Nat.id|].
  intros i s Hin. apply in_map_iff in Hin. destruct Hin as (j & [= -> <-] & _).
  fold m coeffs. rewrite <- horner_rule_make_share.
  eexists. split; [|reflexivity].
  apply (encode_ok m Hm8), horner_lt_any; [exact Hm8|].
  now apply (coefficients_reduced m Hm8).
Qed.

(** C6.  A secret whose decoded width is not in the table makes [split]
    raise the lookup error and return no share. *)
Theorem split_unsupported_field_size k n secret sb st :
  mnemonic_to_bytes secret WORDLIST = Ok sb ->
  ~ supported (N.of_nat (length sb) * 8) ->
  fst (split k n secret st) = Raise KeyError.
Proof.
  intros Hdec Hns. unfold Shamir.split. rewrite Hdec.
  rewrite set_field_size_unsupported; [reflexivity|].
  destruct (dict_get _ irr_poly_table) as [P|] eqn:E; [|reflexivity].
  exfalso. apply Hns, dict_get_supported. now exists P.
Qed.


(** *** The exceptions of [combine] *)

(** The field size [combine] selects: eight times the width of the first
    decoded payload. *)
Definition active_width (decoded : list (N * list byte)) : N :=
  match decoded with
  | [] => 0
  | first :: _ => N.of_nat (length (snd first)) * 8
  end.

Lemma decode_shares_fst wordlist shares : forall decoded,
  decode_shares wordlist shares = Ok decoded ->
  map fst decoded = map fst shares.
Proof.
  unfold decode_shares.
  induction shares as [|x shares IH]; intros decoded; cbn [mapM].
  - intros [= <-]. reflexivity.
  - destruct (mnemonic_to_bytes (snd x) wordlist) as [b|e]; [|discriminate].
    cbn [bind].
    destruct (mapM _ shares) as [bs|e]; [|discriminate].
    cbn [bind]. intros [= <-]. cbn [map fst]. f_equal. now apply IH.
Qed.

Lemma combine_empty shares wordlist st :
  decode_shares wordlist shares = Ok [] ->
  fst (combine shares wordlist st) = Raise IndexError.
Proof.
  intros Hdec. unfold Shamir.combine. unfold decode_shares in Hdec.
  now rewrite Hdec.
Qed.

Lemma combine_unsupported shares wordlist st decoded :
  decode_shares wordlist shares = Ok decoded -> decoded <> [] ->
  dict_get (active_width decoded) irr_poly_table = None ->
  fst (combine shares wordlist st) = Raise KeyError.
Proof.
  intros Hdec Hne Hdict. unfold Shamir.combine. unfold decode_shares in Hdec.
  rewrite Hdec. destruct decoded as [|first rest]; [contradiction|].
  cbn [active_width] in Hdict.
  now rewrite (set_field_size_unsupported _ st Hdict).
Qed.

Lemma inverse_loop_raise fuel : forall r0 r1 s0 s1 e,
  inverse_loop fuel r0 r1 s0 s1 = Raise e -> e = NoReturn.
Proof.
  induction fuel as [|fuel IH]; intros r0 r1 s0 s1 e; cbn [inverse_loop].
  - now intros [= <-].
  - destruct (0 <? r1); [|discriminate].
    destruct (_div_gf2 r0 r1) as [[q r]|]; [apply IH|now intros [= <-]].
Qed.

Lemma inverse_raise P a e :
  inverse P a = Raise e -> e = ValueError_inversion_of_zero \/ e = NoReturn.
Proof.
  unfold inverse. destruct (a =? 0); [intros [= <-]; now left|].
  destruct (inverse_loop _ a P 1 0) as [rs|e'] eqn:E; cbn [bind]; [discriminate|].
  intros [= <-]. right. eapply inverse_loop_raise, E.
Qed.

Lemma interpolate_raise m P gf k e :
  interpolate m P gf k = Raise e ->
  e = ValueError_inversion_of_zero \/ e = NoReturn.
Proof.
  unfold interpolate.
  assert (H : forall L acc,
             (forall e, acc = Raise e ->
                e = ValueError_inversion_of_zero \/ e = NoReturn) ->
             fold_left
               (fun acc j =>
                  result <- acc ;;
                  let y_j := snd (gf_share gf j) in
                  let nd := num_den m P gf k j in
                  inv <- inverse P (snd nd) ;;
                  Ok (__add__ result
                        (__mul__ m P (__mul__ m P y_j (fst nd)) inv)))
               L acc = Raise e ->
             e = ValueError_inversion_of_zero \/ e = NoReturn).
  { induction L as [|j L IH]; intros acc Hacc; cbn [fold_left].
    - apply Hacc.
    - apply IH. intros e'. destruct acc as [r|e0]; cbn [bind].
      + cbv zeta.
        destruct (inverse P (snd (num_den m P gf k j))) as [v|e1] eqn:E;
          cbn [bind]; [discriminate|].
        intros [= <-]. eapply inverse_raise, E.
      + apply Hacc. }
  apply H. discriminate.
Qed.

Lemma encode_raise m v e : encode m v = Raise e -> e = OverflowError.
Proof.
  unfold encode, int_to_bytes. destruct (v <? _); [discriminate|].
  now intros [= <-].
Qed.

(** The field elements [combine] builds from well-formed payloads. *)
Lemma gf_shares_reduced m decoded :
  m mod 8 = 0 ->
  (forall x, In x decoded -> N.of_nat (length (snd x)) = m / 8) ->
  (forall i, In i (map fst decoded) -> i < 2 ^ m) ->
  Forall (fun p => fst p < 2 ^ m /\ snd p < 2 ^ m) (map gf_pair decoded).
Proof.
  intros Hm8 Hw Hi. rewrite Forall_map, Forall_forall. intros x Hx.
  unfold gf_pair. cbn [fst snd]. split.
  - apply Hi. now apply in_map.
  - rewrite <- (pow256 m Hm8), <- (Hw x Hx). apply int_from_bytes_lt.
Qed.

Lemma map_fst_gf_pair decoded : map fst (map gf_pair decoded) = map fst decoded.
Proof. rewrite map_map. reflexivity. Qed.

(** C4.  When the payloads decode to the active field width and the
    indices are pairwise distinct integers of [[1, 2^m)], [combine] does not
    raise the inversion-of-zero error, and every denominator handed to
    [inverse] is nonzero. *)
Theorem combine_never_inverts_zero shares wordlist st decoded :
  decode_shares wordlist shares = Ok decoded ->
  let m := active_width decoded in
  (forall x, In x decoded -> N.of_nat (length (snd x)) = m / 8) ->
  NoDup (map fst shares) ->
  (forall x, In x shares -> 1 <= fst x < 2 ^ m) ->
  fst (combine shares wordlist st) <> Raise ValueError_inversion_of_zero /\
  forall P gf_shares,
    dict_get m irr_poly_table = Some P ->
    gf_shares_of m decoded = Ok gf_shares ->
    forall j, j < N.of_nat (length gf_shares) ->
      snd (num_den m P gf_shares (N.of_nat (length gf_shares)) j) <> 0.
Proof.
  intros Hdec m Hw Hnd Hidx.
  pose proof (decode_shares_fst wordlist shares decoded Hdec) as Hfst.
  destruct decoded as [|first rest].
  { split; [rewrite (combine_empty shares wordlist st Hdec); discriminate|].
    intros P gf Hdict. discriminate Hdict. }
  set (decoded := first :: rest) in *.
  assert (Ed : decoded = first :: rest) by reflexivity.
  destruct (dict_get m irr_poly_table) as [P|] eqn:Hdict.
  2:{ split; [|intros P gf [=]].
      rewrite (combine_unsupported shares wordlist st decoded Hdec);
        [discriminate|discriminate|exact Hdict]. }
  destruct (table_entry m P Hdict) as (HsP & Hirr & _ & Hm8).
  assert (Hred : Forall (fun p => fst p < 2 ^ m /\ snd p < 2 ^ m)
                        (map gf_pair decoded)).
  { apply gf_shares_reduced; [assumption|assumption|].
    rewrite Hfst. intros i Hi. apply in_map_iff in Hi.
    destruct Hi as (x & <- & Hx). apply Hidx, Hx. }
  assert (Hdist : NoDup (map fst (map gf_pair decoded)))
    by (rewrite map_fst_gf_pair, Hfst; exact Hnd).
  assert (Hgf : gf_shares_of m decoded = Ok (map gf_pair decoded)).
  { rewrite gf_shares_of_ref by assumption.
    rewrite gf_ref_ok; [reflexivity|]. cbn [map app]. now rewrite Hfst. }
  split.
  - pose proof (combine_unfold shares wordlist st decoded first rest P Hdec Ed)
      as Hc.
    cbv zeta in Hc. change (N.of_nat (length (snd first)) * 8) with m in Hc.
    rewrite (Hc Hdict), Hgf. cbn [fst bind].
    destruct (interpolate_loop m P HsP Hirr (map gf_pair decoded) Hred Hdist
                (range (N.of_nat (length (map gf_pair decoded))))
                (fun j => proj1 (In_range _ j)) 0 0
                (zero_reduced m) (cong_refl P 0)) as (R & ER & HR & _).
    replace (length decoded) with (length (map gf_pair decoded))
      by apply length_map.
    change (interpolate m P (map gf_pair decoded)
              (N.of_nat (length (map gf_pair decoded))) = Ok R) in ER.
    rewrite ER. cbn [bind].
    rewrite (encode_ok m Hm8 R HR). discriminate.
  - intros P' gf [= <-] Egf. rewrite Hgf in Egf. injection Egf as <-.
    now apply (den_nonzero m P HsP Hirr).
Qed.

(** *** Further properties of [mnemonic_to_shares] and [split] *)

Lemma mnemonic_to_shares_fold_raise (f : N -> N -> list byte) l e :
  fold_left
    (fun acc i =>
       rnd_bytes <- acc ;;
       last <- getitem_last rnd_bytes ;;
       dklen <- len_entry last ;;
       setitem rnd_bytes i (Some (f i dklen)))
    l (Raise e) = Raise e.
Proof. induction l as [|i l IH]; [reflexivity|exact IH]. Qed.

(** X23.  With a word list, [mnemonic_to_shares] passes on the exception
    of the codec, raises [IndexError] for zero shares, and otherwise
    returns [nb_shares] byte strings of the width of the decoded mnemonic,
    the last of which is the decoded mnemonic itself.  With [wordlist=None]
    the codec is not called: the result is [nb_shares] times [None] for
    zero or one share, and [len(None)] raises [TypeError] for more. *)
Theorem mnemonic_to_shares_shape mnemonic nb_shares wordlist :
  pbkdf2_length ->
  match wordlist with
  | None =>
      mnemonic_to_shares mnemonic nb_shares None
      = if nb_shares <=? 1 then Ok (repeat None (N.to_nat nb_shares))
        else Raise TypeError
  | Some w =>
      match mnemonic_to_bytes mnemonic w with
      | Raise e => mnemonic_to_shares mnemonic nb_shares (Some w) = Raise e
      | Ok secret =>
          if nb_shares =? 0
          then mnemonic_to_shares mnemonic nb_shares (Some w) = Raise IndexError
          else
            exists rnd_bytes,
              mnemonic_to_shares mnemonic nb_shares (Some w)
              = Ok (map Some rnd_bytes) /\
              N.of_nat (length rnd_bytes) = nb_shares /\
              last rnd_bytes [] = secret /\
              Forall (fun b => length b = length secret) rnd_bytes
      end
  end.
Proof.
  intros Hlen. destruct wordlist as [w|].
  - unfold Shamir.mnemonic_to_shares. cbv zeta.
    destruct (mnemonic_to_bytes mnemonic w) as [secret|e]; cbn [bind];
      [|reflexivity].
    destruct (N.eqb_spec nb_shares 0) as [->|Hn]; [reflexivity|].
    replace (N.to_nat nb_shares) with (S (N.to_nat (nb_shares - 1))) by lia.
    rewrite setitem_last_repeat. cbn [bind]. unfold range.
    eexists. split; [|split; [|split]].
    + etransitivity.
      * exact (mnemonic_to_shares_loop
                 (fun i dklen =>
                    pbkdf2_hmac "sha512" (utf8 mnemonic)
                      (utf8 ("mnemonic" ++
                             ("shamir" ++ str i ++ " number of shares "
                                       ++ str nb_shares))%string)
                      PBKDF2_ROUNDS dklen)
                 secret (N.to_nat (nb_shares - 1)) 0%nat [] eq_refl).
      * cbn [app]. rewrite <- (map_map _ Some).
        change [Some secret] with (map Some [secret]).
        rewrite <- map_app. reflexivity.
    + rewrite length_app, !length_map, length_seq. cbn [length]. lia.
    + apply last_last.
    + apply Forall_app. split; [|now repeat constructor].
      rewrite Forall_map, Forall_forall. intros i _.
      apply Nat2N.inj, Hlen.
  - unfold Shamir.mnemonic_to_shares. cbv zeta. cbn [bind].
    destruct (N.leb_spec nb_shares 1) as [Hle|Hgt].
    + replace (nb_shares - 1) with 0 by lia. reflexivity.
    + replace (N.to_nat nb_shares) with (S (S (N.to_nat (nb_shares - 2))))
        by lia.
      replace (nb_shares - 1) with (N.succ (nb_shares - 2)) by lia.
      unfold range. rewrite N2Nat.inj_succ.
      change (repeat None (S (S (N.to_nat (nb_shares - 2)))))
        with (@None (list byte) :: repeat None (S (N.to_nat (nb_shares - 2)))).
      rewrite (repeat_cons (S (N.to_nat (nb_shares - 2))) (@None (list byte))).
      cbn [seq map fold_left bind]. rewrite getitem_last_app.
      cbn [bind len_entry].
      apply (mnemonic_to_shares_fold_raise
               (fun i dklen =>
                  pbkdf2_hmac "sha512" (utf8 mnemonic)
                    (utf8 ("mnemonic" ++
                           ("shamir" ++ str i ++ " number of shares "
                                     ++ str nb_shares))%string)
                    PBKDF2_ROUNDS dklen)).
Qed.

Lemma mul_0_r_any m P a : __mul__ m P a 0 = 0.
Proof.
  unfold __mul__. replace (a <? 0) with false by (now destruct a).
  now destruct ((P =? a) || (P =? 0)).
Qed.

(** X24.  [split] raises in three situations only, in this order: the
    codec rejects the secret (its exception is passed on), the width of
    the secret is not a key of the table ([KeyError]), the threshold is
    zero ([IndexError]); in every other case it returns [n] shares
    indexed [1 .. n]. *)
Theorem split_outcome k n secret st :
  pbkdf2_length ->
  match mnemonic_to_bytes secret WORDLIST with
  | Raise e => fst (split k n secret st) = Raise e
  | Ok sb =>
      match dict_get (N.of_nat (length sb) * 8) irr_poly_table with
      | None => fst (split k n secret st) = Raise KeyError
      | Some _ =>
          if k =? 0 then fst (split k n secret st) = Raise IndexError
          else exists shares,
              fst (split k n secret st) = Ok shares /\
              map fst shares = range1 n
      end
  end.
Proof.
  intros Hlen.
  destruct (mnemonic_to_bytes secret WORDLIST) as [sb|e] eqn:Hdec.
  2:{ unfold Shamir.split. now rewrite Hdec. }
  destruct (dict_get _ irr_poly_table) as [P|] eqn:Hdict.
  2:{ unfold Shamir.split. rewrite Hdec.
      now rewrite (set_field_size_unsupported _ st Hdict). }
  destruct (N.eqb_spec k 0) as [->|Hk].
  - unfold Shamir.split. rewrite Hdec.
    rewrite (set_field_size_ok _ P st Hdict).
    cbn [cls_field_size cls_irr_poly fst].
    unfold Shamir.mnemonic_to_shares. rewrite Hdec. reflexivity.
  - eexists. split.
    + rewrite (split_spec k n secret st sb P Hlen Hdec Hdict) by lia.
      reflexivity.
    + rewrite map_map. apply map_id.
Qed.

(** X25.  With threshold 1 the polynomial is the constant secret: every
    share [split] returns carries the secret itself. *)
Theorem split_threshold_one n secret sb st :
  codec_encode_decode ->
  mnemonic_to_bytes secret WORDLIST = Ok sb ->
  supported (N.of_nat (length sb) * 8) ->
  fst (split 1 n secret st) = Ok (map (fun i => (i, secret)) (range1 n)).
Proof.
  intros Hed Hdec Hsup.
  set (m := N.of_nat (length sb) * 8) in *.
  destruct (proj1 (dict_get_supported m) Hsup) as [P Hdict].
  destruct (table_entry m P Hdict) as (_ & _ & _ & Hm8).
  destruct (width_of_bytes sb) as [_ Hw]. fold m in Hw.
  assert (Hc : int_from_bytes sb < 2 ^ m).
  { rewrite <- (pow256 m Hm8), <- Hw. apply int_from_bytes_lt. }
  unfold Shamir.split. rewrite Hdec. fold m.
  rewrite (set_field_size_ok m P st Hdict).
  cbn [cls_field_size cls_irr_poly fst].
  rewrite (mnemonic_to_shares_ok secret 1 sb Hdec) by lia.
  change (coeffs_bytes secret 1 sb) with [sb]. change (range 1) with [0].
  cbn [bind map app mapM]. unfold getitem at 1.
  change (N.to_nat 0) with 0%nat. cbn [nth_error bind].
  rewrite (init_bytes_ok m sb Hw). cbn [bind].
  apply mapM_ok. intros i _.
  rewrite (make_share_ok m P Hm8) by (now repeat constructor).
  cbn [bind]. do 2 f_equal.
  unfold horner. cbn [fold_left]. rewrite mul_0_r_any.
  unfold __add__. rewrite N.lxor_0_l, (enc_from_bytes m sb Hm8 Hw).
  now apply Hed.
Qed.

Lemma firstn_seq_le (a b : nat) : forall s,
  (a <= b)%nat -> firstn a (seq s b) = seq s a.
Proof.
  revert b. induction a as [|a IH]; intros b s H; [reflexivity|].
  destruct b as [|b]; [lia|]. cbn [seq firstn]. f_equal. apply IH. lia.
Qed.

Lemma firstn_range1 n n' : n <= n' -> firstn (N.to_nat n) (range1 n') = range1 n.
Proof.
  intros H. unfold range1. rewrite firstn_map, firstn_seq_le by lia.
  reflexivity.
Qed.

(** X26.  The shares do not depend on how many are asked for, nor on the
    class attributes found: the shares of a call for [n] of them are the
    first [n] shares of any call for more, with any state. *)
Theorem split_shares_prefix k n n' secret sb st st' :
  pbkdf2_length ->
  mnemonic_to_bytes secret WORDLIST = Ok sb ->
  supported (N.of_nat (length sb) * 8) ->
  1 <= k -> n <= n' ->
  exists shares shares',
    fst (split k n secret st) = Ok shares /\
    fst (split k n' secret st') = Ok shares' /\
    shares = firstn (N.to_nat n) shares'.
Proof.
  intros Hlen Hdec Hsup Hk Hn.
  destruct (proj1 (dict_get_supported _) Hsup) as [P Hdict].
  do 2 eexists. split; [|split].
  - rewrite (split_spec k n secret st sb P Hlen Hdec Hdict Hk). reflexivity.
  - rewrite (split_spec k n' secret st' sb P Hlen Hdec Hdict Hk). reflexivity.
  - now rewrite firstn_map, firstn_range1.
Qed.

(** X27.  [split k n secret] returns [n] shares indexed [1 .. n], and any
    [k] or more distinct ones among them, in any order, make [combine]
    return the secret. *)
Theorem combine_k_or_more_shares k n secret sb st :
  pbkdf2_length -> codec_decode_encode ->
  mnemonic_to_bytes secret WORDLIST = Ok sb ->
  mnemonic_from_bytes sb = secret ->
  supported (N.of_nat (length sb) * 8) ->
  1 <= k -> n < 2 ^ (N.of_nat (length sb) * 8) ->
  exists shares,
    fst (split k n secret st) = Ok shares /\
    N.of_nat (length shares) = n /\
    map fst shares = range1 n /\
    forall S st',
      NoDup S -> incl S shares -> k <= N.of_nat (length S) ->
      fst (combine S WORDLIST st') = Ok secret.
Proof.
  intros Hlen Hde Hdec Hfrom Hsup Hk Hn.
  set (m := N.of_nat (length sb) * 8) in *.
  destruct (proj1 (dict_get_supported m) Hsup) as [P Hdict].
  destruct (table_entry m P Hdict) as (HsP & Hirr & _ & Hm8).
  destruct (width_of_bytes sb) as [_ Hw]. fold m in Hw.
  set (cs := coefficients secret k sb).
  set (F := fun i => (i, mnemonic_from_bytes (enc m (horner m P i cs)))).
  exists (map F (range1 n)). split.
  { rewrite (split_spec k n secret st sb P Hlen Hdec Hdict) by lia. reflexivity. }
  split; [rewrite length_map, length_range1; apply N2Nat.id|].
  split; [rewrite map_map; apply map_id|].
  intros S st' HndS Hincl HlenS.
  assert (HS : forall x, In x S -> x = F (fst x) /\ 1 <= fst x <= n).
  { intros x Hx. apply Hincl, in_map_iff in Hx.
    destruct Hx as (i & <- & Hi). apply In_range1 in Hi. auto. }
  assert (Hcsr : Forall (fun a => a < 2 ^ m) cs)
    by (now apply (coefficients_reduced m Hm8)).
  rewrite (combine_polynomial m P cs S WORDLIST st' Hdict Hcsr).
  - unfold cs. rewrite last_coefficients, (enc_from_bytes m sb Hm8 Hw).
    f_equal. exact Hfrom.
  - unfold cs. rewrite length_coefficients by lia. lia.
  - intros ->. cbn in HlenS. lia.
  - apply NoDup_map_NoDup_ForallPairs; [|assumption].
    intros a b Ha Hb E.
    rewrite (proj1 (HS a Ha)), (proj1 (HS b Hb)). now rewrite E.
  - intros x Hx. destruct (HS x Hx) as [Ex Hi]. split; [lia|].
    rewrite Ex at 1. unfold F. cbn [snd]. apply Hde.
    rewrite length_enc, (width_mul8 m Hm8). exact Hsup.
Qed.

(** *** Further properties of [combine] *)


(** What the loop that fills [gf_shares] raises, and why. *)
Lemma gf_fold_raise_cases fs l : forall acc e,
  fold_left
    (fun acc x =>
       gf_shares <- acc ;;
       idx <- __init__ fs (EInt (fst x)) ;;
       value <- __init__ fs (EBytes (snd x)) ;;
       if existsb (fun y => __eq__ (fst y) idx) gf_shares
       then Raise ValueError_duplicate_share
       else Ok (gf_shares ++ [(idx, value)]))
    l (Ok acc) = Raise e ->
  (e = ValueError_encoding /\
   exists x, In x l /\ N.of_nat (length (snd x)) <> fs / 8) \/
  (e = ValueError_duplicate_share /\ ~ NoDup (map fst acc ++ map fst l)).
Proof.
  induction l as [|x l IH]; intros acc e; cbn [fold_left]; [discriminate|].
  cbn [bind __init__].
  destruct (N.eqb_spec (N.of_nat (length (snd x))) (fs / 8)) as [Ew|Hw];
    cbn [bind].
  - unfold __eq__.
    destruct (existsb (fun y => fst y =? fst x) acc) eqn:E.
    + intros H.
      assert (E' : Raise ValueError_duplicate_share = Raise e :> result (list (N * N)))
        by (rewrite <- H; symmetry; apply gf_fold_raise).
      injection E' as <-. clear H. right. split; [reflexivity|].
      apply existsb_index in E. cbn [map]. intros Hnd.
      apply NoDup_remove_2 in Hnd. apply Hnd, in_or_app. now left.
    + intros H. apply IH in H. destruct H as [(-> & y & Hy & Hyw)|[-> Hnd]].
      * left. split; [reflexivity|]. exists y. split; [now right|assumption].
      * right. split; [reflexivity|].
        rewrite map_app, <- app_assoc in Hnd. exact Hnd.
  - intros H.
    assert (E' : Raise ValueError_encoding = Raise e :> result (list (N * N)))
      by (rewrite <- H; symmetry; apply gf_fold_raise).
    injection E' as <-. clear H. left. split; [reflexivity|].
    exists x. split; [now left|assumption].
Qed.

(** What the loop has checked when it returns. *)
Lemma gf_fold_ok fs l : forall acc gf,
  fold_left
    (fun acc x =>
       gf_shares <- acc ;;
       idx <- __init__ fs (EInt (fst x)) ;;
       value <- __init__ fs (EBytes (snd x)) ;;
       if existsb (fun y => __eq__ (fst y) idx) gf_shares
       then Raise ValueError_duplicate_share
       else Ok (gf_shares ++ [(idx, value)]))
    l (Ok acc) = Ok gf ->
  (forall x, In x l -> N.of_nat (length (snd x)) = fs / 8) /\
  (NoDup (map fst acc) -> NoDup (map fst acc ++ map fst l)) /\
  gf = acc ++ map gf_pair l.
Proof.
  induction l as [|x l IH]; intros acc gf; cbn [fold_left].
  - intros [= <-]. split; [intros x []|]. cbn [map].
    now rewrite !app_nil_r.
  - cbn [bind __init__].
    destruct (N.eqb_spec (N.of_nat (length (snd x))) (fs / 8)) as [Ew|Hw];
      cbn [bind].
    2:{ intros H. exfalso.
        assert (E' : Raise ValueError_encoding = Ok gf)
          by (rewrite <- H; symmetry; apply gf_fold_raise).
        discriminate E'. }
    unfold __eq__.
    destruct (existsb (fun y => fst y =? fst x) acc) eqn:E.
    { intros H. exfalso.
      assert (E' : Raise ValueError_duplicate_share = Ok gf)
        by (rewrite <- H; symmetry; apply gf_fold_raise).
      discriminate E'. }
    intros H. apply IH in H. destruct H as (Hws & Hnd & ->).
    split; [|split].
    + intros y [<-|Hy]; [assumption|now apply Hws].
    + intros Hacc. cbn [map].
      rewrite map_app, <- app_assoc in Hnd. apply Hnd.
      apply NoDup_app; [assumption|repeat constructor; intros []|].
      intros a Ha [<-|[]]. cbn [fst] in Ha. apply existsb_index in Ha.
      congruence.
    + rewrite <- app_assoc. reflexivity.
Qed.

Lemma inverse_raise_zero P a e :
  inverse P a = Raise e -> a = 0 /\ e = ValueError_inversion_of_zero.
Proof.
  intros H. destruct (N.eq_dec a 0) as [->|Ha].
  - split; [reflexivity|]. unfold inverse in H. cbn in H. congruence.
  - destruct (inverse_returns P a Ha) as [v Ev]. congruence.
Qed.

(** The interpolation raises nothing but the inversion of zero, and its
    result is a reduced element whatever the points are. *)
Lemma interpolate_outcome m P gf k :
  match interpolate m P gf k with
  | Ok R => R < 2 ^ m
  | Raise e => e = ValueError_inversion_of_zero
  end.
Proof.
  unfold interpolate.
  assert (H : forall L acc,
             match acc with
             | Ok R => R < 2 ^ m
             | Raise e => e = ValueError_inversion_of_zero
             end ->
             match
               fold_left
                 (fun acc j =>
                    result <- acc ;;
                    let y_j := snd (gf_share gf j) in
                    let nd := num_den m P gf k j in
                    inv <- inverse P (snd nd) ;;
                    Ok (__add__ result
                          (__mul__ m P (__mul__ m P y_j (fst nd)) inv)))
                 L acc
             with
             | Ok R => R < 2 ^ m
             | Raise e => e = ValueError_inversion_of_zero
             end).
  { induction L as [|j L IH]; intros acc Hacc; cbn [fold_left];
      [exact Hacc|].
    apply IH. destruct acc as [r|e0]; cbn [bind]; [|exact Hacc].
    cbv zeta.
    destruct (inverse P (snd (num_den m P gf k j))) as [v|e1] eqn:E;
      cbn [bind].
    - apply (add_lt m); [exact Hacc|apply __mul___lt_any].
    - now apply inverse_raise_zero in E. }
  apply H, zero_reduced.
Qed.

(** [combine] on payloads of one supported width, at pairwise distinct
    reduced indices: the interpolation succeeds. *)
Lemma combine_well_formed shares wordlist st decoded P :
  decode_shares wordlist shares = Ok decoded ->
  decoded <> [] ->
  let m := active_width decoded in
  dict_get m irr_poly_table = Some P ->
  (forall x, In x decoded -> N.of_nat (length (snd x)) = m / 8) ->
  NoDup (map fst decoded) ->
  (forall x, In x decoded -> fst x < 2 ^ m) ->
  exists R,
    R < 2 ^ m /\
    cong P R (Esum m P (map gf_pair decoded)
                (range (N.of_nat (length (map gf_pair decoded)))) 0) /\
    fst (combine shares wordlist st) = Ok (mnemonic_from_bytes (enc m R)).
Proof.
  intros Hdec Hne m Hdict Hw Hnd Hidx.
  destruct decoded as [|first rest]; [contradiction|].
  set (decoded := first :: rest) in *.
  destruct (table_entry m P Hdict) as (HsP & Hirr & _ & Hm8).
  assert (Hred : Forall (fun p => fst p < 2 ^ m /\ snd p < 2 ^ m)
                        (map gf_pair decoded)).
  { apply gf_shares_reduced; [assumption|assumption|].
    intros i Hi. apply in_map_iff in Hi.
    destruct Hi as (x & <- & Hx). apply Hidx, Hx. }
  assert (Hdist : NoDup (map fst (map gf_pair decoded)))
    by (rewrite map_fst_gf_pair; exact Hnd).
  destruct (interpolate_loop m P HsP Hirr (map gf_pair decoded) Hred Hdist
              (range (N.of_nat (length (map gf_pair decoded))))
              (fun j => proj1 (In_range _ j)) 0 0
              (zero_reduced m) (cong_refl P 0)) as (R & ER & HR & HRc).
  change (interpolate m P (map gf_pair decoded)
            (N.of_nat (length (map gf_pair decoded))) = Ok R) in ER.
  rewrite N.lxor_0_l in HRc.
  exists R. split; [exact HR|split; [exact HRc|]].
  pose proof (combine_unfold shares wordlist st decoded first rest P Hdec
                eq_refl) as Hc.
  cbv zeta in Hc. change (N.of_nat (length (snd first)) * 8) with m in Hc.
  rewrite (Hc Hdict). cbn [fst].
  rewrite gf_shares_of_ref by assumption.
  rewrite gf_ref_ok by (cbn [map app]; exact Hnd).
  cbn [app bind].
  replace (length decoded) with (length (map gf_pair decoded))
    by apply length_map.
  rewrite ER. cbn [bind].
  now rewrite (encode_ok m Hm8 R HR).
Qed.

Lemma decode_shares_nil wordlist shares :
  decode_shares wordlist shares = Ok [] -> shares = [].
Proof.
  intros H. apply decode_shares_fst in H. symmetry in H.
  now apply map_eq_nil in H.
Qed.

(** X29.  Every exception of [combine] and its cause: the exception of
    the codec on a payload; [IndexError] for no share; [KeyError] for a
    first payload of a width that is not in the table; the encoding
    [ValueError] of [__init__] for a payload of another width than the
    first; the duplicate-share [ValueError] for a repeated index; the
    inversion-of-zero [ValueError] for an index of more than the field
    width.  The interpolation result always fits [encode], and [inverse]
    always returns on a nonzero argument. *)
Theorem combine_exceptions shares wordlist st e :
  fst (combine shares wordlist st) = Raise e ->
  match decode_shares wordlist shares with
  | Raise e' => e = e'
  | Ok decoded =>
      let m := active_width decoded in
      (e = IndexError /\ shares = []) \/
      (e = KeyError /\ shares <> [] /\ ~ supported m) \/
      (supported m /\
       ((e = ValueError_encoding /\
         exists x, In x decoded /\ N.of_nat (length (snd x)) <> m / 8) \/
        (e = ValueError_duplicate_share /\ ~ NoDup (map fst shares)) \/
        (e = ValueError_inversion_of_zero /\
         exists x, In x shares /\ 2 ^ m <= fst x)))
  end.
Proof.
  intros Hr.
  destruct (decode_shares wordlist shares) as [decoded|e'] eqn:Hdec.
  2:{ unfold Shamir.combine in Hr. unfold decode_shares in Hdec.
      rewrite Hdec in Hr. cbn [fst] in Hr. congruence. }
  pose proof (decode_shares_fst wordlist shares decoded Hdec) as Hfst.
  destruct decoded as [|first rest].
  { left. rewrite (combine_empty shares wordlist st Hdec) in Hr.
    split; [congruence|now apply (decode_shares_nil wordlist)]. }
  set (decoded := first :: rest) in *. set (m := active_width decoded).
  cbv zeta. right.
  assert (Hsne : shares <> []).
  { intros ->. unfold decode_shares in Hdec. cbn [mapM] in Hdec.
    discriminate. }
  destruct (dict_get m irr_poly_table) as [P|] eqn:Hdict.
  2:{ left.
      rewrite (combine_unsupported shares wordlist st decoded Hdec) in Hr;
        [|discriminate|exact Hdict].
      split; [congruence|split; [assumption|]].
      intros Hs. apply dict_get_supported in Hs. destruct Hs as [P HP].
      fold m in HP. congruence. }
  right.
  assert (Hsup : supported m) by (apply dict_get_supported; now exists P).
  split; [exact Hsup|].
  destruct (table_entry m P Hdict) as (HsP & Hirr & _ & Hm8).
  pose proof (combine_unfold shares wordlist st decoded first rest P Hdec
                eq_refl) as Hc.
  cbv zeta in Hc. change (N.of_nat (length (snd first)) * 8) with m in Hc.
  rewrite (Hc Hdict) in Hr. cbn [fst] in Hr. clear Hc.
  destruct (gf_shares_of m decoded) as [gf|e0] eqn:Egf; cbn [bind] in Hr.
  2:{ injection Hr as <-. unfold gf_shares_of in Egf.
      apply gf_fold_raise_cases in Egf.
      destruct Egf as [[-> Hx]|[-> Hnd]].
      - left. split; [reflexivity|exact Hx].
      - right. left. split; [reflexivity|].
        cbn [map app] in Hnd. now rewrite <- Hfst. }
  unfold gf_shares_of in Egf. apply gf_fold_ok in Egf.
  destruct Egf as (Hw & Hnd & ->). cbn [app map] in Hnd.
  specialize (Hnd (NoDup_nil N)). cbn [app] in Hr.
  pose proof (interpolate_outcome m P (map gf_pair decoded)
                (N.of_nat (length decoded))) as Ho.
  destruct (interpolate m P (map gf_pair decoded) (N.of_nat (length decoded)))
    as [R|e1] eqn:Ei; cbn [bind] in Hr.
  { rewrite (encode_ok m Hm8 R Ho) in Hr. discriminate. }
  injection Hr as <-. subst e1. right. right. split; [reflexivity|].
  destruct (classic (exists x, In x shares /\ 2 ^ m <= fst x)) as [H|H];
    [exact H|exfalso].
  assert (Hidx : forall x, In x decoded -> fst x < 2 ^ m).
  { intros x Hx. destruct (N.lt_ge_cases (fst x) (2 ^ m)) as [Hlt|Hge];
      [exact Hlt|exfalso].
    assert (Hin : In (fst x) (map fst shares))
      by (rewrite <- Hfst; now apply in_map).
    apply in_map_iff in Hin. destruct Hin as (y & Ey & Hy).
    apply H. exists y. split; [assumption|now rewrite Ey]. }
  destruct (combine_well_formed shares wordlist st decoded P Hdec
              ltac:(discriminate) Hdict Hw Hnd Hidx) as (R & HR & _ & _).
  assert (Hred : Forall (fun p => fst p < 2 ^ m /\ snd p < 2 ^ m)
                        (map gf_pair decoded)).
  { apply gf_shares_reduced; [assumption|assumption|].
    intros i Hi. apply in_map_iff in Hi.
    destruct Hi as (x & <- & Hx). apply Hidx, Hx. }
  assert (Hdist : NoDup (map fst (map gf_pair decoded)))
    by (rewrite map_fst_gf_pair; exact Hnd).
  destruct (interpolate_loop m P HsP Hirr (map gf_pair decoded) Hred Hdist
              (range (N.of_nat (length (map gf_pair decoded))))
              (fun j => proj1 (In_range _ j)) 0 0
              (zero_reduced m) (cong_refl P 0)) as (R' & ER & _).
  change (interpolate m P (map gf_pair decoded)
            (N.of_nat (length (map gf_pair decoded))) = Ok R') in ER.
  rewrite length_map in ER. congruence.
Qed.

(** The loop that fills [gf_shares] raises the duplicate-share error
    exactly when it reaches, through payloads of the field width only, an
    entry of the field width whose index it has already seen. *)
Lemma gf_fold_duplicate fs l : forall acc,
  fold_left
    (fun acc x =>
       gf_shares <- acc ;;
       idx <- __init__ fs (EInt (fst x)) ;;
       value <- __init__ fs (EBytes (snd x)) ;;
       if existsb (fun y => __eq__ (fst y) idx) gf_shares
       then Raise ValueError_duplicate_share
       else Ok (gf_shares ++ [(idx, value)]))
    l (Ok acc) = Raise ValueError_duplicate_share <->
  exists l1 b l2,
    l = l1 ++ b :: l2 /\
    (forall x, In x (l1 ++ [b]) -> N.of_nat (length (snd x)) = fs / 8) /\
    In (fst b) (map fst acc ++ map fst l1).
Proof.
  induction l as [|x l IH]; intros acc; cbn [fold_left].
  - split; [discriminate|]. intros (l1 & b & l2 & E & _).
    now destruct l1.
  - cbn [bind __init__].
    destruct (N.eqb_spec (N.of_nat (length (snd x))) (fs / 8)) as [Ew|Hw];
      cbn [bind].
    + unfold __eq__.
      destruct (existsb (fun y => fst y =? fst x) acc) eqn:E.
      * split.
        -- intros _. exists [], x, l. split; [reflexivity|]. split.
           ++ intros y [<-|[]]. exact Ew.
           ++ cbn [map]. rewrite app_nil_r. now apply existsb_index.
        -- intros _. apply gf_fold_raise.
      * rewrite IH. split.
        -- intros (l1 & b & l2 & -> & Hws & Hin).
           exists (x :: l1), b, l2. split; [reflexivity|]. split.
           ++ intros y [<-|Hy]; [exact Ew|now apply Hws].
           ++ rewrite map_app, <- app_assoc in Hin. exact Hin.
        -- intros (l1 & b & l2 & El & Hws & Hin).
           destruct l1 as [|x' l1]; cbn [app] in El; injection El as <- ->.
           ++ exfalso. cbn [map] in Hin. rewrite app_nil_r in Hin.
              apply existsb_index in Hin. congruence.
           ++ exists l1, b, l2. split; [reflexivity|]. split.
              ** intros y Hy. apply Hws. now right.
              ** rewrite map_app, <- app_assoc. exact Hin.
    + split.
      * intros H. exfalso.
        assert (E' : Raise ValueError_encoding
                     = Raise ValueError_duplicate_share :> result (list (N * N)))
          by (rewrite <- H; symmetry; apply gf_fold_raise).
        discriminate E'.
      * intros (l1 & b & l2 & El & Hws & _). exfalso. apply Hw.
        destruct l1 as [|x' l1]; cbn [app] in El; injection El as <- ->;
          apply Hws; now left.
Qed.

(** C5, as the code has it.  For shares whose payloads decode, [combine]
    raises the duplicate-share error exactly when the width of the first
    payload is supported and some entry repeats the index of an earlier
    one while its payload and all the payloads before it have that width
    (a payload of another width met first raises the encoding error
    instead).  The error comes from the loop that fills [gf_shares],
    before any interpolation; with pairwise distinct indices it is not
    raised. *)
Theorem combine_duplicate_check shares wordlist st decoded :
  decode_shares wordlist shares = Ok decoded ->
  let m := active_width decoded in
  (fst (combine shares wordlist st) = Raise ValueError_duplicate_share <->
   supported m /\
   exists l1 b l2,
     decoded = l1 ++ b :: l2 /\
     (forall x, In x (l1 ++ [b]) -> N.of_nat (length (snd x)) = m / 8) /\
     In (fst b) (map fst l1)) /\
  (fst (combine shares wordlist st) = Raise ValueError_duplicate_share ->
   gf_shares_of m decoded = Raise ValueError_duplicate_share) /\
  (NoDup (map fst shares) ->
   fst (combine shares wordlist st) <> Raise ValueError_duplicate_share).
Proof.
  intros Hdec m.
  pose proof (decode_shares_fst wordlist shares decoded Hdec) as Hfst.
  assert (Hiff :
    fst (combine shares wordlist st) = Raise ValueError_duplicate_share <->
    supported m /\
    gf_shares_of m decoded = Raise ValueError_duplicate_share).
  { destruct decoded as [|first rest].
    { rewrite (combine_empty shares wordlist st Hdec). split; [discriminate|].
      intros [Hs _]. apply dict_get_supported in Hs. destruct Hs as [P HP].
      discriminate HP. }
    set (decoded := first :: rest) in *.
    destruct (dict_get m irr_poly_table) as [P|] eqn:Hdict.
    2:{ rewrite (combine_unsupported shares wordlist st decoded Hdec);
          [|discriminate|exact Hdict].
        split; [discriminate|]. intros [Hs _].
        apply dict_get_supported in Hs. destruct Hs as [P HP].
        fold m in HP. congruence. }
    assert (Hsup : supported m) by (apply dict_get_supported; now exists P).
    destruct (table_entry m P Hdict) as (_ & _ & _ & Hm8).
    pose proof (combine_unfold shares wordlist st decoded first rest P Hdec
                  eq_refl) as Hc.
    cbv zeta in Hc. change (N.of_nat (length (snd first)) * 8) with m in Hc.
    rewrite (Hc Hdict). cbn [fst]. clear Hc.
    destruct (gf_shares_of m decoded) as [gf|e0]; cbn [bind].
    - pose proof (interpolate_outcome m P gf (N.of_nat (length decoded))) as Ho.
      destruct (interpolate m P gf (N.of_nat (length decoded))) as [R|e1];
        cbn [bind].
      + rewrite (encode_ok m Hm8 R Ho). cbn [bind].
        split; [discriminate|]. intros [_ H]. discriminate H.
      + subst e1. split; [discriminate|]. intros [_ H]. discriminate H.
    - split.
      + intros H. injection H as ->. split; [exact Hsup|reflexivity].
      + intros [_ H]. injection H as ->. reflexivity. }
  assert (Hdup :
    gf_shares_of m decoded = Raise ValueError_duplicate_share <->
    exists l1 b l2,
      decoded = l1 ++ b :: l2 /\
      (forall x, In x (l1 ++ [b]) -> N.of_nat (length (snd x)) = m / 8) /\
      In (fst b) (map fst l1)).
  { unfold gf_shares_of. rewrite gf_fold_duplicate. cbn [map app].
    reflexivity. }
  split; [|split].
  - rewrite Hiff, Hdup. reflexivity.
  - intros H. apply Hiff in H. apply H.
  - intros Hnd H. apply Hiff in H. destruct H as [_ H].
    apply Hdup in H. destruct H as (l1 & b & l2 & E & _ & Hin).
    rewrite <- Hfst, E, map_app in Hnd. cbn [map] in Hnd.
    apply NoDup_remove_2 in Hnd. apply Hnd, in_or_app. now left.
Qed.

(** *** [combine] and the order of the shares *)

Lemma mapM_cons_ok {A B : Type} (f : A -> result B) a l r :
  mapM f (a :: l) = Ok r ->
  exists b bs, f a = Ok b /\ mapM f l = Ok bs /\ r = b :: bs.
Proof.
  cbn [mapM]. destruct (f a) as [b|e]; cbn [bind]; [|discriminate].
  destruct (mapM f l) as [bs|e]; cbn [bind]; [|discriminate].
  intros [= <-]. now exists b, bs.
Qed.

Lemma mapM_perm {A B : Type} (f : A -> result B) l l' :
  Permutation l l' ->
  forall r, mapM f l = Ok r ->
  exists r', mapM f l' = Ok r' /\ Permutation r r'.
Proof.
  induction 1 as [|x l l' _ IH|x y l|l l' l'' _ IH1 _ IH2]; intros r Hr.
  - exists r. split; [assumption|apply Permutation_refl].
  - apply mapM_cons_ok in Hr. destruct Hr as (b & bs & Eb & Ebs & ->).
    destruct (IH bs Ebs) as (bs' & Ebs' & Hp).
    exists (b :: bs'). cbn [mapM]. rewrite Eb, Ebs'. cbn [bind].
    split; [reflexivity|now constructor].
  - apply mapM_cons_ok in Hr. destruct Hr as (b & bs & Eb & Ebs & ->).
    apply mapM_cons_ok in Ebs. destruct Ebs as (c & cs & Ec & Ecs & ->).
    exists (c :: b :: cs). cbn [mapM]. rewrite Eb, Ec, Ecs. cbn [bind].
    split; [reflexivity|apply perm_swap].
  - destruct (IH1 r Hr) as (r' & Er' & Hp1).
    destruct (IH2 r' Er') as (r'' & Er'' & Hp2).
    exists r''. split; [assumption|now apply Permutation_trans with r'].
Qed.

(** The interpolating sum takes at every point its value. *)
Lemma Esum_point m P gf p :
  N.size P = N.succ m -> irreducible P ->
  Forall (fun p => fst p < 2 ^ m /\ snd p < 2 ^ m) gf ->
  NoDup (map fst gf) -> In p gf ->
  cong P (Esum m P gf (range (N.of_nat (length gf))) (fst p)) (snd p).
Proof.
  intros HsP Hirr Hred Hnd Hp.
  destruct (In_nth gf p (0, 0) Hp) as (i & Hi & Ei).
  assert (Hik : N.of_nat i < N.of_nat (length gf)) by lia.
  pose proof (proj1 (Esum_at m P HsP Hirr gf Hred Hnd
                       (range (N.of_nat (length gf))) (N.of_nat i) Hik
                       (NoDup_range _))
                    (proj2 (In_range _ _) Hik)) as H.
  cbv beta in H. unfold gf_share in H. now rewrite Nat2N.id, Ei in H.
Qed.

(** The value at zero of the interpolating sum does not depend on the
    order of the points. *)
Lemma Esum_perm m P gf gf' :
  N.size P = N.succ m -> irreducible P ->
  Forall (fun p => fst p < 2 ^ m /\ snd p < 2 ^ m) gf ->
  NoDup (map fst gf) -> Permutation gf gf' ->
  cong P (Esum m P gf (range (N.of_nat (length gf))) 0)
         (Esum m P gf' (range (N.of_nat (length gf'))) 0).
Proof.
  intros HsP Hirr Hred Hnd Hp.
  assert (Hred' : Forall (fun p => fst p < 2 ^ m /\ snd p < 2 ^ m) gf')
    by (eapply Permutation_Forall; eassumption).
  assert (Hnd' : NoDup (map fst gf'))
    by (eapply Permutation_NoDup; [apply Permutation_map; eassumption|assumption]).
  pose proof (Permutation_length Hp) as Hl.
  assert (HPF : PF (length gf)
                   (fun t => N.lxor (Esum m P gf (range (N.of_nat (length gf))) t)
                                    (Esum m P gf' (range (N.of_nat (length gf'))) t))).
  { apply PF_add.
    - apply (Esum_PF m P HsP). intros j. apply In_range.
    - rewrite Hl at 1. apply (Esum_PF m P HsP). intros j. apply In_range. }
  destruct HPF as (l & Hlen & El).
  assert (Hvan : cong P (ev l 0) 0).
  { apply (vanish P Hirr (map fst gf)).
    - now rewrite length_map.
    - apply (distinct_not_cong m P HsP gf Hred); [assumption|].
      rewrite Forall_map. eapply Forall_impl; [|exact Hred].
      intros p Hq. apply Hq.
    - intros a Ha. apply in_map_iff in Ha. destruct Ha as (p & <- & Hin).
      rewrite <- El.
      replace 0 with (N.lxor (snd p) (snd p)) by apply N.lxor_nilpotent.
      apply cong_lxor.
      + now apply Esum_point.
      + apply Esum_point; try assumption.
        eapply Permutation_in; eassumption. }
  rewrite <- El in Hvan. unfold cong in *. now rewrite N.lxor_0_r in Hvan.
Qed.

(** X30.  On shares whose payloads have one supported width and whose
    indices are pairwise distinct and below [2^m], [combine] succeeds, and
    its result does not depend on the order of the shares nor on the class
    attributes found. *)
Theorem combine_order_independent shares shares' wordlist st st' decoded :
  decode_shares wordlist shares = Ok decoded ->
  let m := active_width decoded in
  supported m ->
  (forall x, In x decoded -> N.of_nat (length (snd x)) = m / 8) ->
  NoDup (map fst shares) ->
  (forall x, In x shares -> fst x < 2 ^ m) ->
  Permutation shares shares' ->
  exists b,
    N.of_nat (length b) = m / 8 /\
    fst (combine shares wordlist st) = Ok (mnemonic_from_bytes b) /\
    fst (combine shares' wordlist st') = Ok (mnemonic_from_bytes b).
Proof.
  intros Hdec m Hsup Hw Hnd Hidx Hp.
  destruct (proj1 (dict_get_supported m) Hsup) as [P Hdict].
  destruct (table_entry m P Hdict) as (HsP & Hirr & _ & Hm8).
  pose proof (decode_shares_fst wordlist shares decoded Hdec) as Hfst.
  destruct (mapM_perm _ shares shares' Hp decoded Hdec) as (decoded' & Hdec' & Hpd).
  change (decode_shares wordlist shares' = Ok decoded') in Hdec'.
  assert (Hne : decoded <> []) by (intros E; subst decoded; discriminate Hdict).
  assert (Hne' : decoded' <> []).
  { intros E. subst decoded'. apply Permutation_sym, Permutation_nil in Hpd.
    contradiction. }
  assert (Hm' : active_width decoded' = m).
  { destruct decoded' as [|first' rest']; [contradiction|].
    cbn [active_width]. rewrite (Hw first').
    - now apply width_mul8.
    - eapply Permutation_in; [apply Permutation_sym; exact Hpd|now left]. }
  assert (Hnd0 : NoDup (map fst decoded)) by (now rewrite Hfst).
  assert (Hidx0 : forall x, In x decoded -> fst x < 2 ^ m).
  { intros x Hx.
    assert (Hin : In (fst x) (map fst shares))
      by (rewrite <- Hfst; now apply in_map).
    apply in_map_iff in Hin. destruct Hin as (y & Ey & Hy).
    rewrite <- Ey. now apply Hidx. }
  destruct (combine_well_formed shares wordlist st decoded P Hdec Hne Hdict
              Hw Hnd0 Hidx0) as (R & HR & HRc & Ec).
  fold m in HR, HRc, Ec.
  destruct (combine_well_formed shares' wordlist st' decoded' P Hdec' Hne')
    as (R' & HR' & HRc' & Ec').
  - now rewrite Hm'.
  - rewrite Hm'. intros x Hx. apply Hw.
    eapply Permutation_in; [apply Permutation_sym; exact Hpd|exact Hx].
  - eapply Permutation_NoDup; [apply Permutation_map; exact Hpd|exact Hnd0].
  - rewrite Hm'. intros x Hx. apply Hidx0.
    eapply Permutation_in; [apply Permutation_sym; exact Hpd|exact Hx].
  - rewrite Hm' in HR', HRc', Ec'.
    assert (E : R = R').
    { apply (reduced_eq m P HsP); [|assumption|assumption].
      eapply cong_trans; [exact HRc|].
      eapply cong_trans; [|apply cong_sym; exact HRc'].
      apply Esum_perm; try assumption.
      + apply gf_shares_reduced; [assumption|assumption|].
        intros i Hi. apply in_map_iff in Hi.
        destruct Hi as (x & <- & Hx). now apply Hidx0.
      + now rewrite map_fst_gf_pair.
      + now apply Permutation_map. }
    subst R'. exists (enc m R). split; [apply length_enc|].
    split; assumption.
Qed.

End Protocol.

(** ** Properties of the field operations *)

Section ElementProperties.
Import GF2 Poly _Element.

(** C3.  In every supported field, a nonzero element times its
    [inverse()] is the element 1, whose encoding is that of 1. *)
Theorem mul_inverse_is_one m P a :
  dict_get m irr_poly_table = Some P ->
  1 <= a < 2 ^ m ->
  exists ai,
    inverse P a = Ok ai /\
    __mul__ m P a ai = 1 /\
    encode m (__mul__ m P a ai) = encode m 1.
Proof.
  intros Hdict [Ha1 Ha].
  destruct (table_entry m P Hdict) as (HsP & Hirr & _ & _).
  destruct (inverse_spec m P HsP Hirr a ltac:(lia) Ha) as (ai & E & _ & Hmul).
  exists ai. split; [exact E|split; [exact Hmul|now rewrite Hmul]].
Qed.

(** C7.  If either operand is the integer stored as the irreducible
    polynomial, the product is the zero element. *)
Theorem mul_by_irr_poly_is_zero field_size irr_poly a b :
  a = irr_poly \/ b = irr_poly ->
  __mul__ field_size irr_poly a b = 0.
Proof.
  intros H. unfold __mul__. cbv zeta.
  destruct (a <? b); destruct H as [-> | ->];
    rewrite N.eqb_refl, ?orb_true_r; reflexivity.
Qed.

Lemma fold_left_const_iter {A B : Type} (f : A -> A) (l : list B) (a : A) :
  fold_left (fun r _ => f r) l a = Nat.iter (length l) f a.
Proof.
  revert a. induction l as [|x l IH]; intros a; [reflexivity|].
  cbn [fold_left length]. rewrite IH. symmetry. apply Nat.iter_succ_r.
Qed.

(** C10.  Exponents 0 and 1 both return the base: the loop multiplies a
    copy of the base by the base [exponent - 1] times. *)
Theorem pow_small_exponents field_size irr_poly a :
  __pow__ field_size irr_poly a 0 = a /\
  __pow__ field_size irr_poly a 1 = a /\
  forall exponent,
    __pow__ field_size irr_poly a exponent
    = Nat.iter (N.to_nat (exponent - 1))
               (fun result => __mul__ field_size irr_poly result a) a.
Proof.
  split; [reflexivity|split; [reflexivity|]].
  intros exponent. unfold __pow__. cbv zeta.
  rewrite (fold_left_const_iter (fun result => __mul__ field_size irr_poly result a)).
  unfold range. now rewrite length_map, length_seq.
Qed.

End ElementProperties.

(** ** The sequence of operations of [__mul__] *)

Module Trace.
Import _Element.

(** The statements [__mul__] executes. *)
Inductive op : Type :=
| OpCompare    (* if f2 > f1 *)
| OpSwap       (* f1, f2 = f2, f1 *)
| OpMember     (* if self.irr_poly in (f1, f2) *)
| OpLoopTest   (* while f2 *)
| OpSelectZ    (* mask2 = ...; z = (mask2 & (z ^ v)) | ... *)
| OpShiftV     (* v <<= 1 *)
| OpSelectV    (* mask3 = ...; v = (mask3 & (v ^ irr_poly)) | ... *)
| OpShiftF2    (* f2 >>= 1 *)
| OpReturn.

Definition body : list op := [OpLoopTest; OpSelectZ; OpShiftV; OpSelectV; OpShiftF2].

Section Instrumented.
Variables (field_size irr_poly : N).

(** [__mul___loop] with the executed statements recorded. *)
Fixpoint loop_tr (mask1 : N) (p : positive) (v z : N) (tr : list op)
  : N * list op :=
  let f2 := Npos p in
  let tr := tr ++ [OpLoopTest] in
  let mask2 := int2 (str_mul (slice2 (bin (N.land f2 1))) (N.to_nat field_size)) in
  let z := N.lor (N.land mask2 (N.lxor z v)) (N.land (mask1 - mask2 - 1) z) in
  let tr := tr ++ [OpSelectZ] in
  let v := N.shiftl v 1 in
  let tr := tr ++ [OpShiftV] in
  let mask3 :=
    int2 (str_mul (slice2 (bin (N.land (N.shiftr v field_size) 1)))
                  (N.to_nat field_size)) in
  let v := N.lor (N.land mask3 (N.lxor v irr_poly)) (N.land (mask1 - mask3 - 1) v) in
  let tr := tr ++ [OpSelectV] in
  let tr := tr ++ [OpShiftF2] in
  match p with
  | xH => (z, tr ++ [OpLoopTest])
  | xO q | xI q => loop_tr mask1 q v z tr
  end.

(** [__mul__] with the executed statements recorded. *)
Definition mul_tr (self factor : N) : N * list op :=
  let f1 := self in
  let f2 := factor in
  let tr := [OpCompare] in
  let '(f1, f2, tr) :=
    if f1 <? f2 then (f2, f1, tr ++ [OpSwap]) else (f1, f2, tr) in
  let tr := tr ++ [OpMember] in
  if (irr_poly =? f1) || (irr_poly =? f2) then (0, tr ++ [OpReturn])
  else
    let mask1 := 2 ^ field_size in
    let '(v, z) := (f1, 0) in
    match f2 with
    | N0 => (z, tr ++ [OpLoopTest; OpReturn])
    | Npos p =>
        let '(z, tr) := loop_tr mask1 p v z tr in
        (z, tr ++ [OpReturn])
    end.

Lemma loop_tr_spec mask1 p : forall v z tr,
  loop_tr mask1 p v z tr
  = (__mul___loop field_size irr_poly mask1 p v z,
     tr ++ List.concat (repeat body (Pos.to_nat (Pos.size p))) ++ [OpLoopTest]).
Proof.
  induction p as [q IH|q IH|]; intros v z tr; cbn [loop_tr __mul___loop].
  - rewrite IH. f_equal. cbn [Pos.size]. rewrite Pos2Nat.inj_succ.
    cbn [repeat List.concat]. unfold body at 2. rewrite <- !app_assoc. reflexivity.
  - rewrite IH. f_equal. cbn [Pos.size]. rewrite Pos2Nat.inj_succ.
    cbn [repeat List.concat]. unfold body at 2. rewrite <- !app_assoc. reflexivity.
  - f_equal. cbn. rewrite <- !app_assoc. reflexivity.
Qed.

(** Recording the statements does not change the product. *)
Lemma mul_tr_value a b : fst (mul_tr a b) = __mul__ field_size irr_poly a b.
Proof.
  unfold mul_tr, __mul__. cbv zeta.
  destruct (a <? b); destruct (_ || _); try reflexivity.
  - destruct a as [|p]; [reflexivity|]. now rewrite loop_tr_spec.
  - destruct b as [|p]; [reflexivity|]. now rewrite loop_tr_spec.
Qed.

(** The statements executed, from the order of the operands and the bit
    length of the smaller one. *)
Lemma mul_tr_trace a b :
  irr_poly <> a -> irr_poly <> b ->
  snd (mul_tr a b)
  = [OpCompare] ++ (if a <? b then [OpSwap] else []) ++ [OpMember]
    ++ List.concat (repeat body (N.to_nat (N.size (N.min a b))))
    ++ [OpLoopTest; OpReturn].
Proof.
  intros Ha Hb. unfold mul_tr. cbv zeta.
  apply N.eqb_neq in Ha, Hb.
  destruct (N.ltb_spec a b) as [Hlt|Hge].
  - rewrite Hb, Ha. cbn [orb]. rewrite N.min_l by lia.
    destruct a as [|p]; [reflexivity|].
    rewrite loop_tr_spec. cbn [snd N.size N.to_nat].
    rewrite <- !app_assoc. reflexivity.
  - rewrite Ha, Hb. cbn [orb]. rewrite N.min_r by lia.
    destruct b as [|p]; [reflexivity|].
    rewrite loop_tr_spec. cbn [snd N.size N.to_nat].
    rewrite <- !app_assoc. reflexivity.
Qed.

End Instrumented.

End Trace.

(** C9, as the code has it.  For a field size of at least 1, the
    statements [__mul__] executes are these, and recording them does not
    change the product: the comparison, the swap when the second operand
    is the larger, the membership test, and then either an immediate
    return, when an operand is the stored polynomial, or one pass of the
    loop per bit of the smaller operand, each pass the same five
    statements whatever the bits (the selections are masked, not
    branched), the last loop test and the return.  So two pairs of
    operands in the same order, whose smaller members have the same bit
    length and none of which is the stored polynomial, execute the same
    statements. *)
Theorem mul_trace_depends_on_bit_length field_size irr_poly a b :
  1 <= field_size ->
  fst (Trace.mul_tr field_size irr_poly a b) = _Element.__mul__ field_size irr_poly a b /\
  snd (Trace.mul_tr field_size irr_poly a b)
  = [Trace.OpCompare]
    ++ (if a <? b then [Trace.OpSwap] else [])
    ++ [Trace.OpMember]
    ++ (if (irr_poly =? a) || (irr_poly =? b) then [Trace.OpReturn]
        else
          List.concat
            (repeat [Trace.OpLoopTest; Trace.OpSelectZ; Trace.OpShiftV;
                     Trace.OpSelectV; Trace.OpShiftF2]
                    (N.to_nat (N.size (N.min a b))))
          ++ [Trace.OpLoopTest; Trace.OpReturn]) /\
  forall a' b',
    (a <? b) = (a' <? b') ->
    N.size (N.min a b) = N.size (N.min a' b') ->
    irr_poly <> a -> irr_poly <> b -> irr_poly <> a' -> irr_poly <> b' ->
    snd (Trace.mul_tr field_size irr_poly a b)
    = snd (Trace.mul_tr field_size irr_poly a' b').
Proof.
  intros _. split; [apply Trace.mul_tr_value|]. split.
  - destruct ((irr_poly =? a) || (irr_poly =? b)) eqn:E.
    + unfold Trace.mul_tr. cbv zeta.
      destruct (a <? b).
      * rewrite (orb_comm (irr_poly =? b)), E. reflexivity.
      * rewrite E. reflexivity.
    + apply orb_false_elim in E. destruct E as [Ea Eb].
      apply N.eqb_neq in Ea, Eb. now apply Trace.mul_tr_trace.
  - intros a' b' Hord Hsize Ha Hb Ha' Hb'.
    rewrite !Trace.mul_tr_trace by assumption.
    now rewrite Hord, Hsize.
Qed.

(** ** Concrete runs *)

(** A stand-in for the collaborators: the text of a mnemonic is its byte
    string, and the key derivation returns [dklen] zero bytes. *)
Module Codec0.
Import _Element.

Definition mnemonic_to_bytes (s : string) (_ : unit) : result (list byte) :=
  Ok (list_byte_of_string s).

Definition mnemonic_from_bytes (b : list byte) : string :=
  string_of_list_byte b.

Definition pbkdf2_hmac (_ : string) (_ _ : list byte) (_ dklen : N)
  : list byte :=
  repeat "000"%byte (N.to_nat dklen).

Definition split : N -> N -> string -> class_state ->
                   result (list (N * string)) * class_state :=
  Shamir.split unit tt mnemonic_to_bytes mnemonic_from_bytes pbkdf2_hmac.

Definition combine : list (N * string) -> unit -> class_state ->
                     result string * class_state :=
  Shamir.combine unit mnemonic_to_bytes mnemonic_from_bytes.

(** The class before any call, and after a call on a 256-bit secret. *)
Definition fresh : class_state :=
  {| cls_field_size := None; cls_irr_poly := None |}.

Definition set256 : class_state :=
  {| cls_field_size := Some 256;
     cls_irr_poly := dict_get 256 irr_poly_table |}.

Definition secret16 : string := "0123456789abcdef".
Definition secret15 : string := "0123456789abcde".
Definition secret20 : string := "0123456789abcdefghij".

Lemma pbkdf2_length_holds : pbkdf2_length pbkdf2_hmac.
Proof.
  intros h pw salt rounds dklen. unfold pbkdf2_hmac.
  rewrite repeat_length. apply N2Nat.id.
Qed.

Lemma decode_encode_holds :
  codec_decode_encode unit tt mnemonic_to_bytes mnemonic_from_bytes.
Proof.
  intros b _. unfold mnemonic_to_bytes, mnemonic_from_bytes.
  now rewrite list_byte_of_string_of_list_byte.
Qed.

Lemma encode_decode_holds :
  codec_encode_decode unit tt mnemonic_to_bytes mnemonic_from_bytes.
Proof.
  intros s b [= <-]. apply string_of_list_byte_of_string.
Qed.

Lemma supported_128 : supported 128.
Proof. left. reflexivity. Qed.

End Codec0.

Section Runs.
Import _Element Codec0.

(** A 128-bit secret, threshold 2, three shares. *)
Lemma split_combine_round_trip_witness :
  mnemonic_to_bytes secret16 tt = Ok (list_byte_of_string secret16) /\
  mnemonic_from_bytes (list_byte_of_string secret16) = secret16 /\
  supported (N.of_nat (length (list_byte_of_string secret16)) * 8) /\
  2 <= 2 /\ 2 <= 3 /\
  3 < 2 ^ (N.of_nat (length (list_byte_of_string secret16)) * 8) /\
  exists shares,
    fst (split 2 3 secret16 fresh) = Ok shares /\
    N.of_nat (length shares) = 3 /\
    map fst shares = Shamir.range1 3 /\
    forall S st',
      NoDup S -> incl S shares -> N.of_nat (length S) = 2 ->
      fst (combine S tt st') = Ok secret16.
Proof.
  assert (H1 : mnemonic_to_bytes secret16 tt = Ok (list_byte_of_string secret16))
    by reflexivity.
  assert (H0 : mnemonic_from_bytes (list_byte_of_string secret16) = secret16)
    by reflexivity.
  assert (H2 : supported (N.of_nat (length (list_byte_of_string secret16)) * 8))
    by exact supported_128.
  assert (H3 : 2 <= 2) by lia.
  assert (H4 : 2 <= 3) by lia.
  assert (H5 : 3 < 2 ^ (N.of_nat (length (list_byte_of_string secret16)) * 8))
    by reflexivity.
  split; [exact H1|split; [exact H0|]].
  repeat (split; [assumption|]).
  exact (split_combine_round_trip unit tt mnemonic_to_bytes mnemonic_from_bytes
           pbkdf2_hmac 2 3 secret16 (list_byte_of_string secret16) fresh
           pbkdf2_length_holds decode_encode_holds H1 H0 H2 H3 H4 H5).
Defined.

Lemma split_shares_horner_witness :
  mnemonic_to_bytes secret16 tt = Ok (list_byte_of_string secret16) /\
  1 <= 2 /\
  exists P shares,
    dict_get 128 irr_poly_table = Some P /\
    fst (split 2 3 secret16 fresh) = Ok shares /\
    N.of_nat (length shares) = 3 /\
    map fst shares = Shamir.range1 3 /\
    N.of_nat (length (coefficients pbkdf2_hmac secret16 2
                        (list_byte_of_string secret16))) = 2 /\
    forall i s, In (i, s) shares ->
      exists b,
        encode 128 (horner_rule 128 P i
                      (coefficients pbkdf2_hmac secret16 2
                         (list_byte_of_string secret16))) = Ok b /\
        s = mnemonic_from_bytes b.
Proof.
  assert (H1 : mnemonic_to_bytes secret16 tt = Ok (list_byte_of_string secret16))
    by reflexivity.
  assert (H2 : 1 <= 2) by lia.
  split; [exact H1|split; [exact H2|]].
  exact (split_shares_horner unit tt mnemonic_to_bytes mnemonic_from_bytes
           pbkdf2_hmac 2 3 secret16 (list_byte_of_string secret16) fresh
           pbkdf2_length_holds H1 supported_128 H2).
Defined.

Lemma mul_inverse_is_one_witness :
  1 <= 2 < 2 ^ 128 /\
  exists ai,
    inverse (1 + 2^11 + 2^35 + 2^77 + 2^128) 2 = Ok ai /\
    __mul__ 128 (1 + 2^11 + 2^35 + 2^77 + 2^128) 2 ai = 1 /\
    encode 128 (__mul__ 128 (1 + 2^11 + 2^35 + 2^77 + 2^128) 2 ai)
    = encode 128 1.
Proof.
  assert (H : 1 <= 2 < 2 ^ 128) by (split; [lia|reflexivity]).
  split; [exact H|].
  exact (mul_inverse_is_one 128 (1 + 2^11 + 2^35 + 2^77 + 2^128) 2 eq_refl H).
Defined.

(** Two well-formed 128-bit shares with indices 1 and 2. *)
Definition two_shares : list (N * string) :=
  [(1, secret16); (2, "fedcba9876543210"%string)].

Definition two_decoded : list (N * list byte) :=
  [(1, list_byte_of_string secret16);
   (2, list_byte_of_string "fedcba9876543210")].

Lemma two_decoded_width x :
  In x two_decoded ->
  N.of_nat (length (snd x)) = active_width two_decoded / 8.
Proof. intros [<-|[<-|[]]]; reflexivity. Qed.

Lemma two_shares_distinct : NoDup (map fst two_shares).
Proof.
  repeat constructor; cbn; intuition discriminate.
Qed.

Lemma two_shares_range x :
  In x two_shares -> 1 <= fst x < 2 ^ active_width two_decoded.
Proof. intros [<-|[<-|[]]]; split; cbn [fst]; (lia || reflexivity). Qed.

Lemma combine_never_inverts_zero_witness :
  decode_shares unit mnemonic_to_bytes tt two_shares = Ok two_decoded /\
  NoDup (map fst two_shares) /\
  fst (combine two_shares tt fresh) <> Raise ValueError_inversion_of_zero /\
  forall P gf_shares,
    dict_get (active_width two_decoded) irr_poly_table = Some P ->
    Shamir.gf_shares_of (active_width two_decoded) two_decoded = Ok gf_shares ->
    forall j, j < N.of_nat (length gf_shares) ->
      snd (Shamir.num_den (active_width two_decoded) P gf_shares
             (N.of_nat (length gf_shares)) j) <> 0.
Proof.
  split; [reflexivity|split; [exact two_shares_distinct|]].
  exact (combine_never_inverts_zero unit mnemonic_to_bytes mnemonic_from_bytes
           two_shares tt fresh two_decoded eq_refl two_decoded_width
           two_shares_distinct two_shares_range).
Defined.

(** Index 1 twice with payloads of the field width, then a payload of 20
    bytes: the duplicate is met first. *)
Definition duplicate_then_wide : list (N * string) :=
  [(1, secret16); (1, "fedcba9876543210"%string); (2, secret20)].

Definition duplicate_then_wide_decoded : list (N * list byte) :=
  [(1, list_byte_of_string secret16);
   (1, list_byte_of_string "fedcba9876543210");
   (2, list_byte_of_string secret20)].

Lemma duplicate_then_wide_widths x :
  In x ([(1, list_byte_of_string secret16)]
        ++ [(1, list_byte_of_string "fedcba9876543210")]) ->
  N.of_nat (length (snd x)) = active_width duplicate_then_wide_decoded / 8.
Proof. intros [<-|[<-|[]]]; reflexivity. Qed.

Lemma combine_duplicate_check_witness :
  decode_shares unit mnemonic_to_bytes tt duplicate_then_wide
  = Ok duplicate_then_wide_decoded /\
  supported (active_width duplicate_then_wide_decoded) /\
  fst (combine duplicate_then_wide tt fresh) = Raise ValueError_duplicate_share /\
  Shamir.gf_shares_of (active_width duplicate_then_wide_decoded)
    duplicate_then_wide_decoded = Raise ValueError_duplicate_share /\
  (NoDup (map fst duplicate_then_wide) ->
   fst (combine duplicate_then_wide tt fresh) <> Raise ValueError_duplicate_share).
Proof.
  assert (Hdec : decode_shares unit mnemonic_to_bytes tt duplicate_then_wide
                 = Ok duplicate_then_wide_decoded) by reflexivity.
  pose proof (combine_duplicate_check unit mnemonic_to_bytes mnemonic_from_bytes
                duplicate_then_wide tt fresh duplicate_then_wide_decoded Hdec)
    as (Hiff & Hgf & Hnd).
  assert (Hraise : fst (combine duplicate_then_wide tt fresh)
                   = Raise ValueError_duplicate_share).
  { apply (proj2 Hiff). split; [exact supported_128|].
    exists [(1, list_byte_of_string secret16)],
           (1, list_byte_of_string "fedcba9876543210"),
           [(2, list_byte_of_string secret20)].
    split; [reflexivity|split; [exact duplicate_then_wide_widths|]].
    left. reflexivity. }
  split; [exact Hdec|split; [exact supported_128|]].
  split; [exact Hraise|split; [exact (Hgf Hraise)|exact Hnd]].
Defined.

Lemma not_supported_120 :
  ~ supported (N.of_nat (length (list_byte_of_string secret15)) * 8).
Proof. cbn. intuition discriminate. Qed.

(** A 15-byte secret. *)
Lemma split_unsupported_field_size_witness :
  mnemonic_to_bytes secret15 tt = Ok (list_byte_of_string secret15) /\
  N.of_nat (length (list_byte_of_string secret15)) * 8 = 120 /\
  fst (split 2 3 secret15 fresh) = Raise KeyError.
Proof.
  split; [reflexivity|split; [reflexivity|]].
  exact (split_unsupported_field_size unit tt mnemonic_to_bytes
           mnemonic_from_bytes pbkdf2_hmac 2 3 secret15
           (list_byte_of_string secret15) fresh eq_refl not_supported_120).
Defined.

Lemma mul_by_irr_poly_is_zero_witness :
  __mul__ 128 (1 + 2^11 + 2^35 + 2^77 + 2^128) 5
          (1 + 2^11 + 2^35 + 2^77 + 2^128) = 0.
Proof.
  exact (mul_by_irr_poly_is_zero 128 (1 + 2^11 + 2^35 + 2^77 + 2^128) 5
           (1 + 2^11 + 2^35 + 2^77 + 2^128) (or_intror eq_refl)).
Defined.

(** Operands 3 and 2 against operands 2 and 2: both smaller members have
    two bits, and the loop makes two passes. *)
Lemma mul_trace_depends_on_bit_length_witness :
  1 <= 128 /\
  fst (Trace.mul_tr 128 (1 + 2^11 + 2^35 + 2^77 + 2^128) 3 2)
  = __mul__ 128 (1 + 2^11 + 2^35 + 2^77 + 2^128) 3 2 /\
  snd (Trace.mul_tr 128 (1 + 2^11 + 2^35 + 2^77 + 2^128) 3 2)
  = [Trace.OpCompare; Trace.OpMember;
     Trace.OpLoopTest; Trace.OpSelectZ; Trace.OpShiftV; Trace.OpSelectV;
     Trace.OpShiftF2;
     Trace.OpLoopTest; Trace.OpSelectZ; Trace.OpShiftV; Trace.OpSelectV;
     Trace.OpShiftF2;
     Trace.OpLoopTest; Trace.OpReturn] /\
  snd (Trace.mul_tr 128 (1 + 2^11 + 2^35 + 2^77 + 2^128) 3 2)
  = snd (Trace.mul_tr 128 (1 + 2^11 + 2^35 + 2^77 + 2^128) 2 2).
Proof.
  assert (H : 1 <= 128) by discriminate.
  pose proof (mul_trace_depends_on_bit_length 128
                (1 + 2^11 + 2^35 + 2^77 + 2^128) 3 2 H) as (Hv & Ht & Heq).
  split; [exact H|split; [exact Hv|split; [exact Ht|]]].
  apply (Heq 2 2); try reflexivity; discriminate.
Defined.

(** C5, counterexample.  Two shares carry index 1; the second decodes to
    20 bytes in a 128-bit field, and [combine] raises the encoding error
    of [_Element.__init__], raised before the duplicate check. *)
Lemma duplicate_index_raises_encoding_error :
  fst (1, secret16) = fst (1, secret20) /\
  fst (combine [(1, secret16); (1, secret20)] tt fresh)
  = Raise ValueError_encoding /\
  fst (combine [(1, secret16); (1, secret20)] tt fresh)
  <> Raise ValueError_duplicate_share.
Proof.
  split; [reflexivity|]. split; [vm_compute; reflexivity|].
  vm_compute. discriminate.
Qed.


(** C9, counterexample.  In the 128-bit field, multiplying 1 by 1 and 3 by
    3 execute different sequences of statements: one pass of the loop
    against two. *)
Lemma mul_trace_depends_on_operands :
  snd (Trace.mul_tr 128 (1 + 2^11 + 2^35 + 2^77 + 2^128) 1 1)
  <> snd (Trace.mul_tr 128 (1 + 2^11 + 2^35 + 2^77 + 2^128) 3 3).
Proof. vm_compute. discriminate. Qed.

End Runs.

(** ** Further properties of the helpers *)

Section HelperProperties.
Import GF2 Poly _Element.

(** X1.  On non-negative operands [_mult_gf2] is the product of a
    commutative ring whose sum is exclusive-or: it commutes, associates,
    distributes and has unit 1. *)
Theorem _mult_gf2_ring_laws a b c :
  _mult_gf2 a b = _mult_gf2 b a /\
  _mult_gf2 (_mult_gf2 a b) c = _mult_gf2 a (_mult_gf2 b c) /\
  _mult_gf2 a (N.lxor b c) = N.lxor (_mult_gf2 a b) (_mult_gf2 a c) /\
  _mult_gf2 a 1 = a /\
  _mult_gf2 a 0 = 0.
Proof.
  rewrite !_mult_gf2_spec. repeat split.
  - apply clmul_comm.
  - apply clmul_assoc.
  - apply clmul_lxor_r.
Qed.

(** X2.  Degrees add under [_mult_gf2]: for nonzero factors the product
    is nonzero and its bit length is the sum of the bit lengths minus one. *)
Theorem _mult_gf2_degree a b :
  a <> 0 -> b <> 0 ->
  _mult_gf2 a b <> 0 /\ deg (_mult_gf2 a b) + 1 = deg a + deg b.
Proof.
  intros Ha Hb. rewrite !deg_size, _mult_gf2_spec. split.
  - intros E. apply clmul_eq_0 in E. tauto.
  - now apply size_clmul.
Qed.

(** X3.  The local function [deg], computed from the length of [bin(n)],
    is the bit length: [n < 2^deg(n) <= 2n + 1]. *)
Theorem deg_is_bit_length n : n < 2 ^ deg n /\ 2 ^ deg n <= 2 * n + 1.
Proof.
  rewrite deg_size. split; [apply N.size_gt|].
  rewrite <- N.succ_double_spec. apply N.size_le.
Qed.

(** X4.  For a nonzero divisor [_div_gf2] returns a quotient and a
    remainder with [a = b*q + r]; the remainder has a smaller degree than
    [b] unless the early exit was taken on operands of equal bit length. *)
Theorem _div_gf2_division a b :
  b <> 0 ->
  exists q r,
    _div_gf2 a b = Some (q, r) /\
    a = N.lxor (_mult_gf2 b q) r /\
    (b <= a \/ deg a < deg b -> deg r < deg b).
Proof.
  intros Hb. destruct (N.lt_ge_cases a b) as [Hlt|Hge].
  - exists 0, a. unfold _div_gf2.
    destruct (N.ltb_spec a b) as [_|]; [|lia].
    split; [reflexivity|split].
    + now rewrite _mult_gf2_spec, clmul_0_r, N.lxor_0_l.
    + intros [|H]; [lia|exact H].
  - destruct (_div_gf2_spec a b Hb (or_introl Hge)) as (q & r & E & Heq & Hr & _).
    exists q, r. split; [exact E|split].
    + now rewrite _mult_gf2_spec.
    + intros _. now rewrite !deg_size.
Qed.

(** X5.  Dividing by the zero polynomial never returns: the loop of
    [_div_gf2] does not leave, whatever the number of passes allowed. *)
Theorem _div_gf2_by_zero a :
  _div_gf2 a 0 = None /\
  forall fuel q r, _div_gf2_loop fuel 0 (deg 0) q r = None.
Proof.
  assert (H : forall fuel q r, _div_gf2_loop fuel 0 (deg 0) q r = None).
  { induction fuel as [|fuel IH]; intros q r; [reflexivity|].
    cbn [_div_gf2_loop]. change (deg 0) with 0.
    destruct (N.leb_spec 0 (deg r)) as [_|]; [apply IH|lia]. }
  split; [|exact H].
  unfold _div_gf2. destruct (N.ltb_spec a 0) as [|_]; [lia|]. apply H.
Qed.

(** X6.  The early exit of [_div_gf2] compares integers: for [a < b] of
    equal bit length it returns [(0, a)], a remainder whose degree is not
    below that of [b]. *)
Theorem _div_gf2_early_exit a b :
  a < b -> N.size a = N.size b ->
  _div_gf2 a b = Some (0, a) /\ ~ deg a < deg b.
Proof.
  intros Hlt Hs. unfold _div_gf2.
  destruct (N.ltb_spec a b) as [_|]; [|lia].
  split; [reflexivity|]. rewrite !deg_size. lia.
Qed.

End HelperProperties.

(** ** Further properties of [_Element] *)

Section ElementMore.
Import GF2 Poly _Element.

(** X7.  Bytes to element to bytes: an element built from a byte string
    encodes back to that byte string. *)
Theorem init_then_encode field_size b v :
  __init__ field_size (EBytes b) = Ok v -> encode field_size v = Ok b.
Proof.
  cbn [__init__].
  destruct (N.eqb_spec (N.of_nat (length b)) (field_size / 8)) as [E|];
    [|discriminate].
  intros [= <-]. unfold encode, int_to_bytes. rewrite <- E.
  destruct (N.ltb_spec (int_from_bytes b) (256 ^ N.of_nat (length b))) as [_|H].
  - rewrite Nat2N.id, bytes_le_from_bytes, rev_involutive. reflexivity.
  - pose proof (int_from_bytes_lt b). lia.
Qed.

(** X8.  Element to bytes to element: what [encode] returns has
    [field_size // 8] bytes and builds the same element again. *)
Theorem encode_then_init field_size v bs :
  encode field_size v = Ok bs ->
  N.of_nat (length bs) = field_size / 8 /\
  __init__ field_size (EBytes bs) = Ok v.
Proof. apply init_encode. Qed.

(** X9.  [__init__] accepts exactly the byte strings of
    [field_size // 8] bytes, and the element it builds is below
    [256 ^ (field_size // 8)]; any other width raises [ValueError].
    [encode] raises [OverflowError] exactly from that bound on. *)
Theorem init_and_encode_bounds field_size b v :
  (__init__ field_size (EBytes b) = Raise ValueError_encoding <->
   N.of_nat (length b) <> field_size / 8) /\
  (__init__ field_size (EBytes b) = Ok v ->
   N.of_nat (length b) = field_size / 8 /\ v < 256 ^ (field_size / 8)) /\
  (encode field_size v = Raise OverflowError <-> 256 ^ (field_size / 8) <= v).
Proof.
  cbn [__init__]. unfold encode, int_to_bytes.
  destruct (N.eqb_spec (N.of_nat (length b)) (field_size / 8)) as [E|E].
  - split; [split; [discriminate|contradiction]|]. split.
    + intros [= <-]. split; [exact E|]. rewrite <- E. apply int_from_bytes_lt.
    + destruct (N.ltb_spec v (256 ^ (field_size / 8))); split;
        try discriminate; try lia; reflexivity.
  - split; [split; [intros _; exact E|reflexivity]|]. split; [discriminate|].
    destruct (N.ltb_spec v (256 ^ (field_size / 8))); split;
      try discriminate; try lia; reflexivity.
Qed.

(** X10.  For a field size of at least 1, whatever the operands and the
    class polynomial, a product is below [2 ^ field_size]. *)
Theorem mul_result_in_range field_size irr_poly a b :
  1 <= field_size ->
  __mul__ field_size irr_poly a b < 2 ^ field_size.
Proof. intros _. apply __mul___lt_any. Qed.

(** X11.  For a field size of at least 1, [__mul__] commutes for all
    operands and every class polynomial. *)
Theorem mul_commutes field_size irr_poly a b :
  1 <= field_size ->
  __mul__ field_size irr_poly a b = __mul__ field_size irr_poly b a.
Proof. intros _. apply mul_comm. Qed.

(** X12.  In a supported field the product of two elements is the
    remainder of their [_mult_gf2] product modulo the table polynomial: it
    differs from it by a multiple of the polynomial, and it is the only
    element that does. *)
Theorem mul_is_modular_product m P a b :
  dict_get m irr_poly_table = Some P ->
  a < 2 ^ m -> b < 2 ^ m ->
  (exists t, _mult_gf2 a b = N.lxor (_mult_gf2 P t) (__mul__ m P a b)) /\
  forall r t, r < 2 ^ m -> _mult_gf2 a b = N.lxor (_mult_gf2 P t) r ->
              r = __mul__ m P a b.
Proof.
  intros Hdict Ha Hb.
  destruct (table_entry m P Hdict) as (HsP & _ & _ & _).
  pose proof (mul_cong m P HsP a b Ha Hb) as [t Ht].
  split.
  - exists t. rewrite !_mult_gf2_spec, <- Ht. xor_ac.
  - intros r t' Hr E. rewrite !_mult_gf2_spec in E.
    apply (reduced_eq m P HsP); [|assumption|now apply (mul_lt m P HsP)].
    apply cong_trans with (b := clmul a b);
      [|apply cong_sym; now apply (mul_cong m P HsP)].
    exists t'. rewrite E. xor_ac.
Qed.

(** X13.  The laws of a field hold for the elements of a supported field:
    products associate and distribute over sums, 1 is neutral, 0 absorbs,
    and every element is its own opposite. *)
Theorem field_laws m P a b c :
  dict_get m irr_poly_table = Some P ->
  a < 2 ^ m -> b < 2 ^ m -> c < 2 ^ m ->
  __mul__ m P (__mul__ m P a b) c = __mul__ m P a (__mul__ m P b c) /\
  __mul__ m P (__add__ a b) c
  = __add__ (__mul__ m P a c) (__mul__ m P b c) /\
  __mul__ m P 1 a = a /\
  __mul__ m P 0 a = 0 /\
  __add__ a a = 0 /\
  __add__ a b < 2 ^ m.
Proof.
  intros Hdict Ha Hb Hc.
  destruct (table_entry m P Hdict) as (HsP & Hirr & _ & _).
  split; [now apply (mul_assoc m P HsP)|].
  split; [now apply (mul_add_distr_r m P HsP)|].
  split; [now apply (mul_1_l m P HsP Hirr)|].
  split; [now apply (mul_0_l m P HsP)|].
  split; [apply N.lxor_nilpotent|now apply (add_lt m)].
Qed.

(** X14.  A supported field has no zero divisors. *)
Theorem mul_zero_divisor_free m P a b :
  dict_get m irr_poly_table = Some P ->
  a < 2 ^ m -> b < 2 ^ m ->
  __mul__ m P a b = 0 -> a = 0 \/ b = 0.
Proof.
  intros Hdict Ha Hb.
  destruct (table_entry m P Hdict) as (HsP & Hirr & _ & _).
  now apply (mul_eq_0 m P HsP Hirr).
Qed.

(** X15.  [inverse] raises only for zero: for every nonzero argument, and
    whatever the class polynomial, its loop terminates and it returns. *)
Theorem inverse_raises_only_on_zero irr_poly a :
  (a = 0 /\ inverse irr_poly a = Raise ValueError_inversion_of_zero) \/
  (a <> 0 /\ exists v, inverse irr_poly a = Ok v).
Proof.
  destruct (N.eq_dec a 0) as [->|Ha].
  - left. split; reflexivity.
  - right. split; [assumption|now apply inverse_returns].
Qed.

Lemma inverse_unique_aux m P a b :
  N.size P = N.succ m -> irreducible P ->
  a < 2 ^ m -> b < 2 ^ m -> __mul__ m P a b = 1 ->
  a <> 0 /\ inverse P a = Ok b.
Proof.
  intros HsP Hirr Ha Hb Hab.
  assert (Ha0 : a <> 0).
  { intros ->. rewrite (mul_0_l m P HsP b Hb) in Hab. discriminate. }
  split; [assumption|].
  destruct (inverse_spec m P HsP Hirr a Ha0 Ha) as (ai & E & Hai & Hmul).
  rewrite E. f_equal.
  rewrite <- (mul_1_l m P HsP Hirr ai Hai), <- Hab, (mul_comm m P a b).
  rewrite (mul_assoc m P HsP) by assumption.
  rewrite Hmul, (mul_comm m P b 1). now apply (mul_1_l m P HsP Hirr).
Qed.

(** X16.  In a supported field the inverse of a nonzero element is a
    nonzero element, and inverting it gives the element back. *)
Theorem inverse_involutive m P a :
  dict_get m irr_poly_table = Some P ->
  1 <= a < 2 ^ m ->
  exists ai,
    inverse P a = Ok ai /\ 1 <= ai < 2 ^ m /\ inverse P ai = Ok a.
Proof.
  intros Hdict [Ha1 Ha].
  destruct (table_entry m P Hdict) as (HsP & Hirr & _ & _).
  destruct (inverse_spec m P HsP Hirr a ltac:(lia) Ha) as (ai & E & Hai & Hmul).
  rewrite (mul_comm m P a ai) in Hmul.
  destruct (inverse_unique_aux m P ai a HsP Hirr Hai Ha Hmul) as [Hai0 Einv].
  exists ai. repeat split; try assumption. lia.
Qed.

(** X17.  [inverse] returns the only element whose product with its
    argument is 1. *)
Theorem inverse_is_unique m P a b :
  dict_get m irr_poly_table = Some P ->
  a < 2 ^ m -> b < 2 ^ m ->
  __mul__ m P a b = 1 -> inverse P a = Ok b.
Proof.
  intros Hdict Ha Hb Hab.
  destruct (table_entry m P Hdict) as (HsP & Hirr & _ & _).
  now apply (inverse_unique_aux m P a b HsP Hirr).
Qed.

End ElementMore.

(** ** Exponentiation and the table of polynomials *)

Section PowerProperties.
Import GF2 Poly _Element.

Lemma pow_iter m P a e :
  __pow__ m P a e
  = Nat.iter (N.to_nat (e - 1)) (fun r => __mul__ m P r a) a.
Proof.
  unfold __pow__. cbv zeta.
  rewrite (fold_left_const_iter (fun r => __mul__ m P r a)).
  unfold range. now rewrite length_map, length_seq.
Qed.

Lemma pow_iter_cong m P a n :
  N.size P = N.succ m -> a < 2 ^ m ->
  Nat.iter n (fun r => __mul__ m P r a) a < 2 ^ m /\
  cong P (Nat.iter n (fun r => __mul__ m P r a) a) (pw a (S n)).
Proof.
  intros HsP Ha. induction n as [|n [IH1 IH2]].
  - split; [exact Ha|]. rewrite pw_S. change (pw a 0) with 1.
    rewrite clmul_1_r. apply cong_refl.
  - cbn [Nat.iter]. split; [now apply (mul_lt m P HsP)|].
    eapply cong_trans; [now apply (mul_cong m P HsP)|].
    rewrite (pw_S a (S n)), (clmul_comm a).
    apply cong_clmul; [exact IH2|apply cong_refl].
Qed.

Lemma pow_cong m P a e :
  N.size P = N.succ m -> a < 2 ^ m -> 1 <= e ->
  __pow__ m P a e < 2 ^ m /\ cong P (__pow__ m P a e) (pw a (N.to_nat e)).
Proof.
  intros HsP Ha He. rewrite pow_iter.
  replace (N.to_nat e) with (S (N.to_nat (e - 1))) by lia.
  now apply pow_iter_cong.
Qed.

(** X18.  For exponents of at least 1, the power of a sum of exponents
    is the product of the powers. *)
Theorem pow_add_exponents m P a e1 e2 :
  dict_get m irr_poly_table = Some P ->
  a < 2 ^ m -> 1 <= e1 -> 1 <= e2 ->
  __pow__ m P a (e1 + e2)
  = __mul__ m P (__pow__ m P a e1) (__pow__ m P a e2).
Proof.
  intros Hdict Ha H1 H2.
  destruct (table_entry m P Hdict) as (HsP & _ & _ & _).
  destruct (pow_cong m P a e1 HsP Ha H1) as [L1 C1].
  destruct (pow_cong m P a e2 HsP Ha H2) as [L2 C2].
  destruct (pow_cong m P a (e1 + e2) HsP Ha ltac:(lia)) as [L C].
  apply (reduced_eq m P HsP); [|assumption|now apply (mul_lt m P HsP)].
  eapply cong_trans; [exact C|].
  rewrite N2Nat.inj_add, pw_add. apply cong_sym.
  eapply cong_trans; [now apply (mul_cong m P HsP)|].
  now apply cong_clmul.
Qed.

Lemma reduced_not_divisible m P a :
  N.size P = N.succ m -> a <> 0 -> a < 2 ^ m -> ~ divides P a.
Proof.
  intros HsP Ha Hlt Hd. pose proof (divides_size P a Hd Ha).
  apply (reduced_size m P HsP) in Hlt. lia.
Qed.

(** X19.  In a supported field of [2^m] elements, raising to the power
    [2^m] is the identity, and a nonzero element raised to [2^m - 1] is 1. *)
Theorem pow_fermat m P a :
  dict_get m irr_poly_table = Some P ->
  a < 2 ^ m ->
  __pow__ m P a (2 ^ m) = a /\
  (a <> 0 -> __pow__ m P a (2 ^ m - 1) = 1).
Proof.
  intros Hdict Ha.
  destruct (table_entry m P Hdict) as (HsP & Hirr & Hm & _).
  assert (Hd : N.pred (N.size P) = m) by (rewrite HsP; apply N.pred_succ).
  assert (Hp : 2 <= 2 ^ m).
  { change 2 with (2 ^ 1) at 1. apply N.pow_le_mono_r; lia. }
  split.
  - destruct (pow_cong m P a (2 ^ m) HsP Ha ltac:(lia)) as [L C].
    apply (reduced_eq m P HsP); [|assumption|assumption].
    eapply cong_trans; [exact C|].
    pose proof (fermat P Hirr a) as F. now rewrite Hd in F.
  - intros Ha0.
    destruct (pow_cong m P a (2 ^ m - 1) HsP Ha ltac:(lia)) as [L C].
    apply (reduced_eq m P HsP);
      [|assumption|apply (one_reduced m P HsP Hirr)].
    eapply cong_trans; [exact C|].
    pose proof (fermat_unit P Hirr a (reduced_not_divisible m P a HsP Ha0 Ha))
      as F.
    rewrite Hd in F. now rewrite N2Nat.inj_sub.
Qed.

(** X20.  In a supported field [inverse] agrees with exponentiation: the
    inverse of a nonzero element is its power [2^m - 2]. *)
Theorem inverse_is_power m P a :
  dict_get m irr_poly_table = Some P ->
  1 <= a < 2 ^ m ->
  inverse P a = Ok (__pow__ m P a (2 ^ m - 2)).
Proof.
  intros Hdict [Ha1 Ha].
  destruct (table_entry m P Hdict) as (HsP & Hirr & Hm & _).
  assert (Hd : N.pred (N.size P) = m) by (rewrite HsP; apply N.pred_succ).
  assert (Hp : 4 <= 2 ^ m).
  { change 4 with (2 ^ 2). apply N.pow_le_mono_r; lia. }
  destruct (pow_cong m P a (2 ^ m - 2) HsP Ha ltac:(lia)) as [L C].
  apply (inverse_unique_aux m P a _ HsP Hirr Ha L).
  apply (reduced_eq m P HsP);
    [|now apply (mul_lt m P HsP)|apply (one_reduced m P HsP Hirr)].
  eapply cong_trans; [now apply (mul_cong m P HsP)|].
  eapply cong_trans; [apply cong_clmul; [apply cong_refl|exact C]|].
  rewrite <- pw_S.
  replace (S (N.to_nat (2 ^ m - 2))) with (N.to_nat (2 ^ m) - 1)%nat by lia.
  pose proof (fermat_unit P Hirr a
                (reduced_not_divisible m P a HsP ltac:(lia) Ha)) as F.
  now rewrite Hd in F.
Qed.

(** X21.  Every polynomial of [irr_poly_table] has the degree of its key
    and is irreducible: it is not the [_mult_gf2] product of two
    polynomials other than 1 and itself. *)
Theorem irr_poly_table_irreducible m P :
  dict_get m irr_poly_table = Some P ->
  deg P = m + 1 /\
  forall u v, P = _mult_gf2 u v -> u = 1 \/ v = 1.
Proof.
  intros Hdict.
  destruct (table_entry m P Hdict) as (HsP & [_ Hirr] & _ & _).
  split; [rewrite deg_size; lia|].
  intros u v E. rewrite _mult_gf2_spec in E. now apply Hirr.
Qed.

(** X22.  [set_field_size] succeeds exactly on the five keys of the
    table and then installs the size with its polynomial; on any other
    size it raises [KeyError] after the size is assigned, leaving the new
    size next to the polynomial that was there. *)
Theorem set_field_size_cases field_size st :
  (supported field_size /\
   exists P, dict_get field_size irr_poly_table = Some P /\
             set_field_size field_size st
             = (Ok tt, {| cls_field_size := Some field_size;
                          cls_irr_poly := Some P |})) \/
  (~ supported field_size /\
   set_field_size field_size st
   = (Raise KeyError, {| cls_field_size := Some field_size;
                         cls_irr_poly := cls_irr_poly st |})).
Proof.
  unfold set_field_size.
  destruct (dict_get field_size irr_poly_table) as [P|] eqn:E.
  - left. split; [apply dict_get_supported; now exists P|].
    exists P. split; reflexivity.
  - right. split; [|reflexivity].
    intros H. apply dict_get_supported in H. destruct H as [P H]. congruence.
Qed.

End PowerProperties.

(** ** Further concrete runs *)

Section MoreRuns.
Import _Element Codec0.

Local Abbreviation P128 := (1 + 2^11 + 2^35 + 2^77 + 2^128).

Lemma _mult_gf2_degree_witness :
  2 <> 0 /\ 3 <> 0 /\
  _mult_gf2 2 3 <> 0 /\ deg (_mult_gf2 2 3) + 1 = deg 2 + deg 3.
Proof.
  assert (H1 : 2 <> 0) by discriminate.
  assert (H2 : 3 <> 0) by discriminate.
  split; [exact H1|split; [exact H2|]].
  exact (_mult_gf2_degree 2 3 H1 H2).
Defined.

Lemma _div_gf2_division_witness :
  3 <> 0 /\
  exists q r,
    _div_gf2 7 3 = Some (q, r) /\
    7 = N.lxor (_mult_gf2 3 q) r /\
    (3 <= 7 \/ deg 7 < deg 3 -> deg r < deg 3).
Proof.
  assert (H : 3 <> 0) by discriminate.
  split; [exact H|]. exact (_div_gf2_division 7 3 H).
Defined.

Lemma _div_gf2_early_exit_witness :
  2 < 3 /\ N.size 2 = N.size 3 /\
  _div_gf2 2 3 = Some (0, 2) /\ ~ deg 2 < deg 3.
Proof.
  assert (H1 : 2 < 3) by reflexivity.
  assert (H2 : N.size 2 = N.size 3) by reflexivity.
  split; [exact H1|split; [exact H2|]].
  exact (_div_gf2_early_exit 2 3 H1 H2).
Defined.

(** The two bytes of "ab" in a 16-bit field. *)
Lemma init_then_encode_witness :
  __init__ 16 (EBytes (list_byte_of_string "ab")) = Ok 24930 /\
  encode 16 24930 = Ok (list_byte_of_string "ab").
Proof.
  assert (H : __init__ 16 (EBytes (list_byte_of_string "ab")) = Ok 24930)
    by reflexivity.
  split; [exact H|].
  exact (init_then_encode 16 (list_byte_of_string "ab") 24930 H).
Defined.

Lemma encode_then_init_witness :
  encode 16 24930 = Ok (list_byte_of_string "ab") /\
  N.of_nat (length (list_byte_of_string "ab")) = 16 / 8 /\
  __init__ 16 (EBytes (list_byte_of_string "ab")) = Ok 24930.
Proof.
  assert (H : encode 16 24930 = Ok (list_byte_of_string "ab")) by reflexivity.
  split; [exact H|].
  exact (encode_then_init 16 24930 (list_byte_of_string "ab") H).
Defined.

Lemma mul_result_in_range_witness :
  1 <= 128 /\ __mul__ 128 P128 2 3 < 2 ^ 128.
Proof.
  assert (H : 1 <= 128) by discriminate.
  split; [exact H|]. exact (mul_result_in_range 128 P128 2 3 H).
Defined.

Lemma mul_commutes_witness :
  1 <= 128 /\ __mul__ 128 P128 2 3 = __mul__ 128 P128 3 2.
Proof.
  assert (H : 1 <= 128) by discriminate.
  split; [exact H|]. exact (mul_commutes 128 P128 2 3 H).
Defined.

Lemma mul_is_modular_product_witness :
  2 < 2 ^ 128 /\ 3 < 2 ^ 128 /\
  (exists t, _mult_gf2 2 3 = N.lxor (_mult_gf2 P128 t) (__mul__ 128 P128 2 3)) /\
  forall r t, r < 2 ^ 128 -> _mult_gf2 2 3 = N.lxor (_mult_gf2 P128 t) r ->
              r = __mul__ 128 P128 2 3.
Proof.
  assert (H2 : 2 < 2 ^ 128) by reflexivity.
  assert (H3 : 3 < 2 ^ 128) by reflexivity.
  split; [exact H2|split; [exact H3|]].
  exact (mul_is_modular_product 128 P128 2 3 eq_refl H2 H3).
Defined.

Lemma field_laws_witness :
  2 < 2 ^ 128 /\ 3 < 2 ^ 128 /\ 5 < 2 ^ 128 /\
  __mul__ 128 P128 (__mul__ 128 P128 2 3) 5
  = __mul__ 128 P128 2 (__mul__ 128 P128 3 5) /\
  __mul__ 128 P128 (__add__ 2 3) 5
  = __add__ (__mul__ 128 P128 2 5) (__mul__ 128 P128 3 5) /\
  __mul__ 128 P128 1 2 = 2 /\
  __mul__ 128 P128 0 2 = 0 /\
  __add__ 2 2 = 0 /\
  __add__ 2 3 < 2 ^ 128.
Proof.
  assert (H2 : 2 < 2 ^ 128) by reflexivity.
  assert (H3 : 3 < 2 ^ 128) by reflexivity.
  assert (H5 : 5 < 2 ^ 128) by reflexivity.
  split; [exact H2|split; [exact H3|split; [exact H5|]]].
  exact (field_laws 128 P128 2 3 5 eq_refl H2 H3 H5).
Defined.

Lemma mul_zero_divisor_free_witness :
  0 < 2 ^ 128 /\ 3 < 2 ^ 128 /\ __mul__ 128 P128 0 3 = 0 /\
  (0 = 0 \/ 3 = 0).
Proof.
  assert (H0 : 0 < 2 ^ 128) by reflexivity.
  assert (H3 : 3 < 2 ^ 128) by reflexivity.
  assert (H : __mul__ 128 P128 0 3 = 0) by reflexivity.
  split; [exact H0|split; [exact H3|split; [exact H|]]].
  exact (mul_zero_divisor_free 128 P128 0 3 eq_refl H0 H3 H).
Defined.

Lemma inverse_involutive_witness :
  1 <= 2 < 2 ^ 128 /\
  exists ai,
    inverse P128 2 = Ok ai /\ 1 <= ai < 2 ^ 128 /\ inverse P128 ai = Ok 2.
Proof.
  assert (H : 1 <= 2 < 2 ^ 128) by (split; [discriminate|reflexivity]).
  split; [exact H|].
  exact (inverse_involutive 128 P128 2 eq_refl H).
Defined.

Lemma inverse_is_unique_witness :
  1 < 2 ^ 128 /\ __mul__ 128 P128 1 1 = 1 /\ inverse P128 1 = Ok 1.
Proof.
  assert (H1 : 1 < 2 ^ 128) by reflexivity.
  assert (H : __mul__ 128 P128 1 1 = 1) by reflexivity.
  split; [exact H1|split; [exact H|]].
  exact (inverse_is_unique 128 P128 1 1 eq_refl H1 H1 H).
Defined.

Lemma pow_add_exponents_witness :
  2 < 2 ^ 128 /\ 1 <= 1 /\ 1 <= 2 /\
  __pow__ 128 P128 2 (1 + 2)
  = __mul__ 128 P128 (__pow__ 128 P128 2 1) (__pow__ 128 P128 2 2).
Proof.
  assert (H2 : 2 < 2 ^ 128) by reflexivity.
  assert (E1 : 1 <= 1) by discriminate.
  assert (E2 : 1 <= 2) by discriminate.
  split; [exact H2|split; [exact E1|split; [exact E2|]]].
  exact (pow_add_exponents 128 P128 2 1 2 eq_refl H2 E1 E2).
Defined.

Lemma pow_fermat_witness :
  2 < 2 ^ 128 /\
  __pow__ 128 P128 2 (2 ^ 128) = 2 /\
  (2 <> 0 -> __pow__ 128 P128 2 (2 ^ 128 - 1) = 1).
Proof.
  assert (H2 : 2 < 2 ^ 128) by reflexivity.
  split; [exact H2|].
  exact (pow_fermat 128 P128 2 eq_refl H2).
Defined.

Lemma inverse_is_power_witness :
  1 <= 2 < 2 ^ 128 /\
  inverse P128 2 = Ok (__pow__ 128 P128 2 (2 ^ 128 - 2)).
Proof.
  assert (H : 1 <= 2 < 2 ^ 128) by (split; [discriminate|reflexivity]).
  split; [exact H|].
  exact (inverse_is_power 128 P128 2 eq_refl H).
Defined.

Lemma irr_poly_table_irreducible_witness :
  dict_get 128 irr_poly_table = Some P128 /\
  deg P128 = 128 + 1 /\
  forall u v, P128 = _mult_gf2 u v -> u = 1 \/ v = 1.
Proof.
  assert (H : dict_get 128 irr_poly_table = Some P128) by reflexivity.
  split; [exact H|].
  exact (irr_poly_table_irreducible 128 P128 H).
Defined.

(** A 128-bit secret and two coefficients. *)
Lemma mnemonic_to_shares_shape_witness :
  exists rnd_bytes,
    Shamir.mnemonic_to_shares unit mnemonic_to_bytes pbkdf2_hmac secret16 2
      (Some tt)
    = Ok (map Some rnd_bytes) /\
    N.of_nat (length rnd_bytes) = 2 /\
    last rnd_bytes [] = list_byte_of_string secret16 /\
    Forall (fun b => length b = length (list_byte_of_string secret16)) rnd_bytes.
Proof.
  exact (mnemonic_to_shares_shape unit mnemonic_to_bytes pbkdf2_hmac secret16 2
           (Some tt) pbkdf2_length_holds).
Defined.

Lemma split_outcome_witness :
  exists shares,
    fst (split 2 3 secret16 fresh) = Ok shares /\
    map fst shares = Shamir.range1 3.
Proof.
  exact (split_outcome unit tt mnemonic_to_bytes mnemonic_from_bytes
           pbkdf2_hmac 2 3 secret16 fresh pbkdf2_length_holds).
Defined.

Lemma split_threshold_one_witness :
  mnemonic_to_bytes secret16 tt = Ok (list_byte_of_string secret16) /\
  fst (split 1 3 secret16 fresh)
  = Ok (map (fun i => (i, secret16)) (Shamir.range1 3)).
Proof.
  assert (H : mnemonic_to_bytes secret16 tt = Ok (list_byte_of_string secret16))
    by reflexivity.
  split; [exact H|].
  exact (split_threshold_one unit tt mnemonic_to_bytes mnemonic_from_bytes
           pbkdf2_hmac 3 secret16 (list_byte_of_string secret16) fresh
           encode_decode_holds H supported_128).
Defined.

Lemma split_shares_prefix_witness :
  mnemonic_to_bytes secret16 tt = Ok (list_byte_of_string secret16) /\
  1 <= 2 /\ 2 <= 3 /\
  exists shares shares',
    fst (split 2 2 secret16 fresh) = Ok shares /\
    fst (split 2 3 secret16 set256) = Ok shares' /\
    shares = firstn (N.to_nat 2) shares'.
Proof.
  assert (H : mnemonic_to_bytes secret16 tt = Ok (list_byte_of_string secret16))
    by reflexivity.
  assert (H1 : 1 <= 2) by discriminate.
  assert (H2 : 2 <= 3) by discriminate.
  split; [exact H|split; [exact H1|split; [exact H2|]]].
  exact (split_shares_prefix unit tt mnemonic_to_bytes mnemonic_from_bytes
           pbkdf2_hmac 2 2 3 secret16 (list_byte_of_string secret16) fresh
           set256 pbkdf2_length_holds H supported_128 H1 H2).
Defined.

Lemma combine_k_or_more_shares_witness :
  mnemonic_to_bytes secret16 tt = Ok (list_byte_of_string secret16) /\
  mnemonic_from_bytes (list_byte_of_string secret16) = secret16 /\
  1 <= 2 /\
  3 < 2 ^ (N.of_nat (length (list_byte_of_string secret16)) * 8) /\
  exists shares,
    fst (split 2 3 secret16 fresh) = Ok shares /\
    N.of_nat (length shares) = 3 /\
    map fst shares = Shamir.range1 3 /\
    forall S st',
      NoDup S -> incl S shares -> 2 <= N.of_nat (length S) ->
      fst (combine S tt st') = Ok secret16.
Proof.
  assert (H : mnemonic_to_bytes secret16 tt = Ok (list_byte_of_string secret16))
    by reflexivity.
  assert (H0 : mnemonic_from_bytes (list_byte_of_string secret16) = secret16)
    by reflexivity.
  assert (H1 : 1 <= 2) by discriminate.
  assert (H2 : 3 < 2 ^ (N.of_nat (length (list_byte_of_string secret16)) * 8))
    by reflexivity.
  split; [exact H|split; [exact H0|split; [exact H1|split; [exact H2|]]]].
  exact (combine_k_or_more_shares unit tt mnemonic_to_bytes mnemonic_from_bytes
           pbkdf2_hmac 2 3 secret16 (list_byte_of_string secret16) fresh
           pbkdf2_length_holds decode_encode_holds H H0 supported_128 H1 H2).
Defined.

(** Two well-formed shares with the same index. *)
Definition twin_shares : list (N * string) :=
  [(1, secret16); (1, "fedcba9876543210"%string)].

Lemma combine_exceptions_witness :
  fst (combine twin_shares tt fresh) = Raise ValueError_duplicate_share /\
  match decode_shares unit mnemonic_to_bytes tt twin_shares with
  | Raise e' => ValueError_duplicate_share = e'
  | Ok decoded =>
      let m := active_width decoded in
      (ValueError_duplicate_share = IndexError /\ twin_shares = []) \/
      (ValueError_duplicate_share = KeyError /\ twin_shares <> [] /\
       ~ supported m) \/
      (supported m /\
       ((ValueError_duplicate_share = ValueError_encoding /\
         exists x, In x decoded /\ N.of_nat (length (snd x)) <> m / 8) \/
        (ValueError_duplicate_share = ValueError_duplicate_share /\
         ~ NoDup (map fst twin_shares)) \/
        (ValueError_duplicate_share = ValueError_inversion_of_zero /\
         exists x, In x twin_shares /\ 2 ^ m <= fst x)))
  end.
Proof.
  assert (H : fst (combine twin_shares tt fresh)
              = Raise ValueError_duplicate_share) by reflexivity.
  split; [exact H|].
  exact (combine_exceptions unit mnemonic_to_bytes mnemonic_from_bytes
           twin_shares tt fresh ValueError_duplicate_share H).
Defined.

(** The two shares of [two_shares] in the other order. *)
Definition two_shares_swapped : list (N * string) :=
  [(2, "fedcba9876543210"%string); (1, secret16)].

Lemma two_shares_reduced x :
  In x two_shares -> fst x < 2 ^ active_width two_decoded.
Proof. intros [<-|[<-|[]]]; reflexivity. Qed.

Lemma combine_order_independent_witness :
  decode_shares unit mnemonic_to_bytes tt two_shares = Ok two_decoded /\
  supported (active_width two_decoded) /\
  NoDup (map fst two_shares) /\
  Permutation two_shares two_shares_swapped /\
  exists b,
    N.of_nat (length b) = active_width two_decoded / 8 /\
    fst (combine two_shares tt fresh) = Ok (mnemonic_from_bytes b) /\
    fst (combine two_shares_swapped tt set256) = Ok (mnemonic_from_bytes b).
Proof.
  assert (Hp : Permutation two_shares two_shares_swapped) by apply perm_swap.
  split; [reflexivity|split; [exact supported_128|]].
  split; [exact two_shares_distinct|split; [exact Hp|]].
  exact (combine_order_independent unit mnemonic_to_bytes mnemonic_from_bytes
           two_shares two_shares_swapped tt fresh set256 two_decoded eq_refl
           supported_128 two_decoded_width two_shares_distinct
           two_shares_reduced Hp).
Defined.

End MoreRuns.
